(** * Merge-path CSR SpMV (cpu_spmv.cpp): shallow embedding and properties

    The development follows the source file top-down:
    - [int2], [CountingInputIterator], the checked array accesses and the
      checked arithmetic on [int];
    - [MergePathSearch], the binary search along one diagonal;
    - [OmpMergePartitionMatrix], the per-thread diagonal split;
    - [SpmvGold], the serial reference;
    - [OmpMergeCsrmv], the kernel: per-thread phase, then carry-out fix-up;
    - [TestOmpMergeCsrmv], the driver of the kernel;
    - the jump tables that [TestOmpMergeCsrLenGotomv] builds;
    - the data-set selection and the count of timing iterations of
      [RunTests].

    Indices ([OffsetT], [int]) are 32-bit integers.  A step the source
    leaves undefined ends the run: an access outside an array with
    [OutOfBounds], and a sum, difference or product that is not an [int]
    with [IntOverflow].  The partitioner and the search compute with
    [num_rows], [num_nonzeros] and [num_threads], and all their arithmetic
    is checked; they stay inside [int] while [m + nnz + P <= 2 ^ 31 - 1]
    and [m <= 2 ^ 30], and Part V shows matrices beyond these bounds at
    which they do not.  In [SpmvGold] and in the kernel the only index
    arithmetic is a step by one below a bound that is itself an [int] (a
    row offset, an end coordinate, [num_rows]), which cannot overflow.  The
    partitioner is also given as a machine runs it that wraps to 32 bits
    ([OmpMergePartitionMatrix32]): where the checked run ends normally the
    two agree ([OmpMergePartitionMatrix32_checked]), and Part V shows what
    the wrapping run does where the checked one ends with [IntOverflow].
    The element type [ValueT] is a parameter with its
    [zero], [add] and [mul], so that every statement says which algebraic
    laws it relies on (none, for most).  The [omp parallel for] loops are
    run in ascending thread order; [OmpMergePartitionMatrix_any_order] and
    [parallel_phase_any_order] show that every other order of the threads
    ends in the same state. *)

From Equations Require Import Equations.
From stdpp Require Import base option list numbers strings.


Open Scope Z_scope.

(** * Part I: the program *)

(** ** Utility types *)

Record int2 := Int2 { x : Z; y : Z }.

Inductive array_id :=
| A_row_offsets | A_column_indices | A_values
| A_vector_x | A_vector_y_out
| A_row_carry_out | A_value_carry_out
| A_thread_coords | A_thread_coord_ends.

(** Outcome of a run: a value, or the first step that the source leaves
    undefined: an access outside an array, a result of [int] arithmetic
    that is not an [int] ([value] is the result in the integers), or a
    division by zero. *)
Inductive result (A : Type) :=
| Ok (a : A)
| OutOfBounds (arr : array_id) (index : Z)
| IntOverflow (value : Z)
| DivideByZero.
Arguments Ok {A} a.
Arguments OutOfBounds {A} arr index.
Arguments IntOverflow {A} value.
Arguments DivideByZero {A}.

Definition bind {A B} (r : result A) (k : A -> result B) : result B :=
  match r with
  | Ok a => k a
  | OutOfBounds arr i => OutOfBounds arr i
  | IntOverflow v => IntOverflow v
  | DivideByZero => DivideByZero
  end.

Notation "'let*' v := c 'in' k" := (bind c (fun v => k))
  (at level 10, v name, c at level 100, k at level 200).
Notation "'let*' ' p := c 'in' k" := (bind c (fun v => let 'p := v in k))
  (at level 10, p pattern, c at level 100, k at level 200).

(** [arr[i]] as an rvalue. *)
Definition read {A} (arr : array_id) (l : list A) (i : Z) : result A :=
  if 0 <=? i then
    match l !! Z.to_nat i with
    | Some v => Ok v
    | None => OutOfBounds arr i
    end
  else OutOfBounds arr i.

(** [arr[i] = v]. *)
Definition write {A} (arr : array_id) (l : list A) (i : Z) (v : A) : result (list A) :=
  if (0 <=? i) && (i <? Z.of_nat (length l)) then Ok (<[Z.to_nat i := v]> l)
  else OutOfBounds arr i.

(** ** [int] arithmetic

    [OffsetT] is [int] wherever the templates are used, and an [int] has 32
    bits.  A sum, difference, product or quotient of two [int]s whose value
    is not an [int] is a signed overflow; the source leaves it undefined,
    as it does an access outside an array, and the run ends there with
    [IntOverflow]. *)

Definition max_int : Z := 2 ^ 31 - 1.
Definition min_int : Z := - 2 ^ 31.

Definition int_of (value : Z) : result Z :=
  if (min_int <=? value) && (value <=? max_int) then Ok value else IntOverflow value.

Definition add_int (a b : Z) : result Z := int_of (a + b).
Definition sub_int (a b : Z) : result Z := int_of (a - b).
Definition mul_int (a b : Z) : result Z := int_of (a * b).

(** [- a] *)
Definition neg_int (a : Z) : result Z := int_of (- a).

(** [a / b] rounds towards zero. *)
Definition div_int (a b : Z) : result Z :=
  if b =? 0 then DivideByZero else int_of (a `quot` b).

(** An iterator is what [operator[]] answers. *)
Definition iterator := Z -> result Z.

(** The pointer [p + off]. *)
Definition ptr_add (arr : array_id) (p : list Z) (off : Z) : iterator :=
  fun n => read arr p (off + n).

Record CountingInputIterator := { val : Z }.

(** [CountingInputIterator::operator[]]: [val + n]. *)
Definition counting_subscript (it : CountingInputIterator) : iterator :=
  fun n => add_int (val it) n.

(** ** MergePath search *)

(** [(x_min + x_max) >> 1] *)
Definition pivot_of (x_min x_max : Z) : result Z :=
  let* sum := add_int x_min x_max in
  Ok (Z.shiftr sum 1).

(** [a[x_pivot] <= b[diagonal - x_pivot - 1]] *)
Definition pivot_test (a b : iterator) (diagonal x_pivot : Z) : result bool :=
  let* a_item := a x_pivot in
  let* i := sub_int diagonal x_pivot in
  let* i' := sub_int i 1 in
  let* b_item := b i' in
  Ok (bool_decide (a_item <= b_item)).

Definition inspect {A} (a : A) : {b : A | a = b} := exist _ a eq_refl.

(** The [while (x_min < x_max)] loop; it returns the final [x_min]. *)
Equations? search_loop (a b : iterator) (diagonal x_min x_max : Z) : result Z
  by wf (Z.to_nat (x_max - x_min)) lt :=
  search_loop a b diagonal x_min x_max with Z_lt_dec x_min x_max => {
    | right _ := Ok x_min
    | left _ with inspect (pivot_of x_min x_max) => {
        | exist _ (OutOfBounds arr i) _ := OutOfBounds arr i
        | exist _ (IntOverflow v) _ := IntOverflow v
        | exist _ DivideByZero _ := DivideByZero
        | exist _ (Ok x_pivot) Hpivot with pivot_test a b diagonal x_pivot => {
            | OutOfBounds arr i := OutOfBounds arr i
            | IntOverflow v := IntOverflow v
            | DivideByZero := DivideByZero
            | Ok false := search_loop a b diagonal x_min x_pivot
            | Ok true with inspect (add_int x_pivot 1) => {
                | exist _ (OutOfBounds arr i) _ := OutOfBounds arr i
                | exist _ (IntOverflow v) _ := IntOverflow v
                | exist _ DivideByZero _ := DivideByZero
                | exist _ (Ok x_min') Hmin :=
                    search_loop a b diagonal x_min' x_max } } } }.
Proof.
  all: unfold pivot_of, add_int, int_of in *.
  all: repeat match goal with
       | H : context [if ?c then _ else _] |- _ => destruct c; simpl in H
       end; try discriminate.
  all: repeat match goal with H : Ok _ = Ok _ |- _ => injection H as <- end.
  all: rewrite Z.shiftr_div_pow2 by lia; change (2 ^ 1) with 2.
  all: pose proof (Z.div_mod (x_min + x_max) 2 ltac:(lia));
       pose proof (Z.mod_pos_bound (x_min + x_max) 2 ltac:(lia)); lia.
Qed.

Definition MergePathSearch (diagonal : Z) (a b : iterator) (a_len b_len : Z)
  : result int2 :=
  let* d := sub_int diagonal b_len in
  let x_min := Z.max d 0 in
  let x_max := Z.min diagonal a_len in
  let* x_min' := search_loop a b diagonal x_min x_max in
  let* y' := sub_int diagonal x_min' in
  Ok {| x := Z.min x_min' a_len; y := y' |}.

(** ** Counting loops

    [for (i = lo; i < hi; ++i) body], for a body that changes neither [i]
    nor [hi]: [Z.to_nat (hi - lo)] iterations. *)
Fixpoint for_iter {St : Type} (n : nat) (i : Z) (body : Z -> St -> result St) (s : St)
  : result St :=
  match n with
  | O => Ok s
  | S n' => let* s' := body i s in for_iter n' (i + 1) body s'
  end.

Definition for_loop {St : Type} (lo hi : Z) (body : Z -> St -> result St) (s : St)
  : result St :=
  for_iter (Z.to_nat (hi - lo)) lo body s.

(** The iterations of a loop run one after the other in the order of the
    list [order]: one schedule of an [omp parallel for]. *)
Fixpoint run_in_order {St : Type} (order : list Z) (body : Z -> St -> result St) (s : St)
  : result St :=
  match order with
  | [] => Ok s
  | i :: rest => let* s' := body i s in run_in_order rest body s'
  end.

(** ** Partitioner *)

Section Partition.
Variables (num_threads num_rows num_nonzeros : Z) (row_offsets : list Z).

Definition num_merge_items : result Z := add_int num_rows num_nonzeros.

Definition items_per_thread : result Z :=
  let* num_merge_items := num_merge_items in
  let* sum := add_int num_merge_items num_threads in
  let* sum' := sub_int sum 1 in
  div_int sum' num_threads.

Definition start_diagonal (tid : Z) : result Z :=
  let* num_merge_items := num_merge_items in
  let* items_per_thread := items_per_thread in
  let* product := mul_int items_per_thread tid in
  Ok (Z.min product num_merge_items).

Definition end_diagonal (tid : Z) : result Z :=
  let* num_merge_items := num_merge_items in
  let* items_per_thread := items_per_thread in
  let* start_diagonal := start_diagonal tid in
  let* sum := add_int start_diagonal items_per_thread in
  Ok (Z.min sum num_merge_items).

(** One iteration of the loop over [tid]. *)
Definition partition_thread (tid : Z) (st : list int2 * list int2)
  : result (list int2 * list int2) :=
  let '(thread_coords, thread_coord_ends) := st in
  let nonzero_indices := {| val := 0 |} in
  let* start_diagonal := start_diagonal tid in
  let* end_diagonal := end_diagonal tid in
  let* c := MergePathSearch start_diagonal (ptr_add A_row_offsets row_offsets 1)
         (counting_subscript nonzero_indices) num_rows num_nonzeros in
  let* thread_coords' := write A_thread_coords thread_coords tid c in
  let* c_end := MergePathSearch end_diagonal (ptr_add A_row_offsets row_offsets 1)
         (counting_subscript nonzero_indices) num_rows num_nonzeros in
  let* thread_coord_ends' := write A_thread_coord_ends thread_coord_ends tid c_end in
  Ok (thread_coords', thread_coord_ends').

Definition OmpMergePartitionMatrix (thread_coords thread_coord_ends : list int2)
  : result (list int2 * list int2) :=
  for_loop 0 num_threads partition_thread (thread_coords, thread_coord_ends).

End Partition.

(** ** The partitioner with wrap-around

    The search and the partitioner once more, as a machine runs them that
    wraps every sum, difference and product to 32 bits in two's
    complement.  Where the checked run above ends normally this run is the
    same ([OmpMergePartitionMatrix32_checked]); where the checked run ends
    with [IntOverflow] this is what such a machine goes on to do. *)

Definition wrap32 (z : Z) : Z := (z + 2 ^ 31) `mod` 2 ^ 32 - 2 ^ 31.

Definition num_merge_items32 (num_rows num_nonzeros : Z) : Z :=
  wrap32 (num_rows + num_nonzeros).

Definition items_per_thread32 (num_threads num_rows num_nonzeros : Z) : Z :=
  wrap32 (wrap32 (wrap32 (num_merge_items32 num_rows num_nonzeros + num_threads) - 1)
          `quot` num_threads).

Definition start_diagonal32 (num_threads num_rows num_nonzeros tid : Z) : Z :=
  Z.min (wrap32 (items_per_thread32 num_threads num_rows num_nonzeros * tid))
        (num_merge_items32 num_rows num_nonzeros).

Definition end_diagonal32 (num_threads num_rows num_nonzeros tid : Z) : Z :=
  Z.min (wrap32 (start_diagonal32 num_threads num_rows num_nonzeros tid
                 + items_per_thread32 num_threads num_rows num_nonzeros))
        (num_merge_items32 num_rows num_nonzeros).

Definition pivot_of32 (x_min x_max : Z) : Z := Z.shiftr (wrap32 (x_min + x_max)) 1.

Definition counting_subscript32 (it : CountingInputIterator) : iterator :=
  fun n => Ok (wrap32 (val it + n)).

(** A run that may take more iterations than it is given is [None]. *)
Definition then32 {A B} (r : result A) (k : A -> option (result B))
  : option (result B) :=
  match r with
  | Ok a => k a
  | OutOfBounds arr i => Some (OutOfBounds arr i)
  | IntOverflow v => Some (IntOverflow v)
  | DivideByZero => Some DivideByZero
  end.

Definition bind32 {A B} (r : option (result A)) (k : A -> option (result B))
  : option (result B) :=
  match r with
  | Some r' => then32 r' k
  | None => None
  end.

(** The [while (x_min < x_max)] loop.  Once a sum has wrapped, the range
    need not shrink any more, so the loop is given the number [fuel] of
    iterations it may take. *)
Fixpoint search_loop32 (fuel : nat) (a b : iterator) (diagonal x_min x_max : Z)
  : option (result Z) :=
  if decide (x_min < x_max) then
    match fuel with
    | O => None
    | S fuel' =>
        let x_pivot := pivot_of32 x_min x_max in
        then32 (a x_pivot) (fun a_item =>
        then32 (b (wrap32 (wrap32 (diagonal - x_pivot) - 1))) (fun b_item =>
        if decide (a_item <= b_item)
        then search_loop32 fuel' a b diagonal (wrap32 (x_pivot + 1)) x_max
        else search_loop32 fuel' a b diagonal x_min x_pivot))
    end
  else Some (Ok x_min).

Definition MergePathSearch32 (fuel : nat) (diagonal : Z) (a b : iterator)
    (a_len b_len : Z) : option (result int2) :=
  let x_min := Z.max (wrap32 (diagonal - b_len)) 0 in
  let x_max := Z.min diagonal a_len in
  bind32 (search_loop32 fuel a b diagonal x_min x_max) (fun x_min' =>
  Some (Ok {| x := Z.min x_min' a_len; y := wrap32 (diagonal - x_min') |})).

Definition partition_thread32 (fuel : nat) (num_threads num_rows num_nonzeros : Z)
    (row_offsets : list Z) (tid : Z) (st : list int2 * list int2)
  : option (result (list int2 * list int2)) :=
  let '(thread_coords, thread_coord_ends) := st in
  let nonzero_indices := {| val := 0 |} in
  bind32 (MergePathSearch32 fuel (start_diagonal32 num_threads num_rows num_nonzeros tid)
            (ptr_add A_row_offsets row_offsets 1)
            (counting_subscript32 nonzero_indices) num_rows num_nonzeros) (fun c =>
  then32 (write A_thread_coords thread_coords tid c) (fun thread_coords' =>
  bind32 (MergePathSearch32 fuel (end_diagonal32 num_threads num_rows num_nonzeros tid)
            (ptr_add A_row_offsets row_offsets 1)
            (counting_subscript32 nonzero_indices) num_rows num_nonzeros) (fun c_end =>
  then32 (write A_thread_coord_ends thread_coord_ends tid c_end)
    (fun thread_coord_ends' => Some (Ok (thread_coords', thread_coord_ends')))))).

Fixpoint for_iter32 {St : Type} (n : nat) (i : Z) (body : Z -> St -> option (result St))
    (s : St) : option (result St) :=
  match n with
  | O => Some (Ok s)
  | S n' => bind32 (body i s) (fun s' => for_iter32 n' (i + 1) body s')
  end.

Definition OmpMergePartitionMatrix32 (fuel : nat) (num_threads num_rows num_nonzeros : Z)
    (row_offsets : list Z) (thread_coords thread_coord_ends : list int2)
  : option (result (list int2 * list int2)) :=
  for_iter32 (Z.to_nat (num_threads - 0)) 0
    (partition_thread32 fuel num_threads num_rows num_nonzeros row_offsets)
    (thread_coords, thread_coord_ends).

(** ** SpMV: serial reference and merge-based kernel *)

Section Spmv.
Context {ValueT : Type}.
Variables (zero : ValueT) (add mul : ValueT -> ValueT -> ValueT).
Variables (num_rows : Z).
Variables (row_offsets column_indices : list Z) (values vector_x : list ValueT).

(** [running_total += values[j] * vector_x[column_indices[j]]] *)
Definition accumulate (j : Z) (running_total : ValueT) : result ValueT :=
  let* v := read A_values values j in
  let* c := read A_column_indices column_indices j in
  let* xv := read A_vector_x vector_x c in
  Ok (add running_total (mul v xv)).

(** Body of the loop over [row] in [SpmvGold]. *)
Definition SpmvGold_row (row : Z) (vector_y_out : list ValueT)
  : result (list ValueT) :=
  let* offset := read A_row_offsets row_offsets row in
  let* row_end := read A_row_offsets row_offsets (row + 1) in
  let* partial := for_loop offset row_end accumulate zero in
  write A_vector_y_out vector_y_out row partial.

Definition SpmvGold (vector_y_out : list ValueT) : result (list ValueT) :=
  for_loop 0 num_rows SpmvGold_row vector_y_out.

Section Kernel.
Variables (thread_coords thread_coord_ends : list int2) (num_threads : Z).

(** Body of "consume whole rows": the state is [thread_coord.y] and
    [vector_y_out], the loop variable is [thread_coord.x].  The bound of
    the inner loop, [row_offsets[thread_coord.x + 1]], is read anew at
    every test and is the same every time, since nothing writes
    [row_offsets]; the inner loop leaves [thread_coord.y] at the larger of
    its old value and that bound. *)
Definition consume_row (row : Z) (st : Z * list ValueT)
  : result (Z * list ValueT) :=
  let '(j, vector_y_out) := st in
  let* row_end := read A_row_offsets row_offsets (row + 1) in
  let* running_total := for_loop j row_end accumulate zero in
  let* vector_y_out' := write A_vector_y_out vector_y_out row running_total in
  Ok (Z.max j row_end, vector_y_out').

(** Body of the parallel loop; the state is [vector_y_out] and the two
    carry-out arrays. *)
Definition thread_body (tid : Z) (st : list ValueT * list Z * list ValueT)
  : result (list ValueT * list Z * list ValueT) :=
  let '(vector_y_out, row_carry_out, value_carry_out) := st in
  let* thread_coord := read A_thread_coords thread_coords tid in
  let* thread_coord_end := read A_thread_coord_ends thread_coord_ends tid in
  let* '(j, vector_y_out') :=
    for_loop (x thread_coord) (x thread_coord_end) consume_row
             (y thread_coord, vector_y_out) in
  let* running_total := for_loop j (y thread_coord_end) accumulate zero in
  let* row_carry_out' :=
    write A_row_carry_out row_carry_out tid (x thread_coord_end) in
  let* value_carry_out' :=
    write A_value_carry_out value_carry_out tid running_total in
  Ok (vector_y_out', row_carry_out', value_carry_out').

Definition parallel_phase (row_carry_out : list Z) (value_carry_out : list ValueT)
    (vector_y_out : list ValueT) : result (list ValueT * list Z * list ValueT) :=
  for_loop 0 num_threads thread_body (vector_y_out, row_carry_out, value_carry_out).

(** Body of the carry-out fix-up loop. *)
Definition fixup_step (row_carry_out : list Z) (value_carry_out : list ValueT)
    (tid : Z) (vector_y_out : list ValueT) : result (list ValueT) :=
  let* row := read A_row_carry_out row_carry_out tid in
  if row <? num_rows then
    let* old := read A_vector_y_out vector_y_out row in
    let* carry := read A_value_carry_out value_carry_out tid in
    write A_vector_y_out vector_y_out row (add old carry)
  else Ok vector_y_out.

Definition carry_out_fixup (row_carry_out : list Z) (value_carry_out : list ValueT)
    (vector_y_out : list ValueT) : result (list ValueT) :=
  for_loop 0 (num_threads - 1) (fixup_step row_carry_out value_carry_out)
           vector_y_out.

(** The two carry-out arrays are 256-slot locals, not initialised:
    [junk_row] and [junk_value] give their contents on entry. *)
Definition OmpMergeCsrmv (junk_row : Z -> Z) (junk_value : Z -> ValueT)
    (vector_y_out : list ValueT) : result (list ValueT) :=
  let row_carry_out := junk_row <$> seqZ 0 256 in
  let value_carry_out := junk_value <$> seqZ 0 256 in
  let* '(vector_y_out', row_carry_out', value_carry_out') :=
    parallel_phase row_carry_out value_carry_out vector_y_out in
  carry_out_fixup row_carry_out' value_carry_out' vector_y_out'.

End Kernel.
End Spmv.

(** ** Driver: choice of the data set in [RunTests] *)

(** Modelled from the spec: the type [CooMatrix] is declared in
    sparse_matrix.h, which is not part of the sources at hand; [RunTests]
    reads these three dimensions of it. *)
Record CooMatrix := {
  coo_num_rows : Z;
  coo_num_cols : Z;
  coo_num_nonzeros : Z
}.

Inductive message :=
| Trivial_dataset        (* "Trivial dataset\n" *)
| Dataset_name           (* the data set's name and ", " *)
| No_graph_type.         (* "No graph type specified.\n" *)

Inductive dataset_outcome :=
| Exit (code : Z) (printed : list message)
| Benchmark (printed : list message).

(** The head of [RunTests], up to the conversion to CSR.  [InitMarket] is
    the Matrix Market loader, [g_quiet] the global flag. *)
Definition RunTests_dataset (g_quiet : bool) (InitMarket : string -> CooMatrix)
    (mtx_filename : string) (grid2d grid3d wheel dense : Z)
  : dataset_outcome :=
  if negb (String.eqb mtx_filename EmptyString) then
    let coo_matrix := InitMarket mtx_filename in
    if (coo_num_rows coo_matrix =? 1) || (coo_num_cols coo_matrix =? 1)
       || (coo_num_nonzeros coo_matrix =? 1)
    then Exit 0 (if negb g_quiet then [Trivial_dataset] else [])
    else Benchmark [Dataset_name]
  else if 0 <? grid2d then Benchmark [Dataset_name]
  else if 0 <? grid3d then Benchmark [Dataset_name]
  else if 0 <? wheel then Benchmark [Dataset_name]
  else if 0 <? dense then Benchmark [Dataset_name]
  else Exit 1 [No_graph_type].

(** ** Driver: [TestOmpMergeCsrmv]

    The timers, the printing and the call of [CompareResults] (declared in
    utils.h, outside the sources at hand) are left out; what is kept is the
    data the calls pass on.  The fields of the [CsrMatrix] argument
    (sparse_matrix.h) are passed one by one. *)

(** [memset(vector_y_out, -1, sizeof(ValueT) * num_rows)]: every byte of
    the first [num_rows] cells is set to 0xFF; [all_ones] is the element
    with that bit pattern. *)
Definition memset_all_ones {ValueT} (all_ones : ValueT) (num_rows : Z)
    (vector_y_out : list ValueT) : result (list ValueT) :=
  for_loop 0 num_rows (fun i yv => write A_vector_y_out yv i all_ones) vector_y_out.

Record test_run (ValueT : Type) := {
  g_omp_threads_after : Z;          (* the global [g_omp_threads] on return *)
  checked_y : list ValueT;          (* [vector_y_out] when it is compared *)
  final_y : list ValueT             (* [vector_y_out] on return *)
}.
Arguments g_omp_threads_after {ValueT} _.
Arguments checked_y {ValueT} _.
Arguments final_y {ValueT} _.

Section TestDriver.
Context {ValueT : Type}.
Variables (zero : ValueT) (add mul : ValueT -> ValueT -> ValueT) (all_ones : ValueT).
(** [omp_get_num_procs()], and the content of fresh memory: of the two
    [new int2[num_threads]] arrays, and of the carry arrays of the kernel's
    call number [call]. *)
Variables (omp_get_num_procs : Z).
Variables (junk_coords junk_coord_ends : Z -> int2).
Variables (junk_row : Z -> Z -> Z) (junk_value : Z -> Z -> ValueT).

Definition TestOmpMergeCsrmv (g_omp_threads : Z)
    (num_rows num_nonzeros : Z) (row_offsets column_indices : list Z)
    (values vector_x vector_y_out : list ValueT) (timing_iterations : Z)
  : result (test_run ValueT) :=
  let g_omp_threads :=
    if g_omp_threads =? -1 then omp_get_num_procs else g_omp_threads in
  let num_threads := g_omp_threads in
  let thread_coords := junk_coords <$> seqZ 0 num_threads in
  let thread_coord_ends := junk_coord_ends <$> seqZ 0 num_threads in
  let* '(thread_coords, thread_coord_ends) :=
    OmpMergePartitionMatrix num_threads num_rows num_nonzeros row_offsets
      thread_coords thread_coord_ends in
  let run call vector_y_out :=
    OmpMergeCsrmv zero add mul num_rows row_offsets column_indices values vector_x
      thread_coords thread_coord_ends g_omp_threads (junk_row call) (junk_value call)
      vector_y_out in
  (* Warmup/correctness *)
  let* vector_y_out := memset_all_ones all_ones num_rows vector_y_out in
  let* vector_y_out := run 0 vector_y_out in
  let checked := vector_y_out in
  (* Re-populate caches, etc. *)
  let* vector_y_out := run 1 vector_y_out in
  let* vector_y_out := run 2 vector_y_out in
  let* vector_y_out := run 3 vector_y_out in
  (* Timing *)
  let* vector_y_out :=
    for_loop 0 timing_iterations (fun it y => run (4 + it) y) vector_y_out in
  Ok {| g_omp_threads_after := g_omp_threads;
        checked_y := checked;
        final_y := vector_y_out |}.

End TestDriver.

(** ** Driver: the number of timing iterations in [RunTests]

    [std::min(200000ull, std::max(100ull, ((16ull << 30) / num_nonzeros)))]
    when the command line gave none ([-1]).  The division is done in
    [unsigned long long], to which the [int] [num_nonzeros] is converted;
    a division by 0 is undefined and gives [None]. *)
Definition default_timing_iterations (num_nonzeros : Z) : option Z :=
  let divisor := num_nonzeros `mod` 2 ^ 64 in
  if divisor =? 0 then None
  else Some (Z.min 200000 (Z.max 100 (Z.shiftl 16 30 `div` divisor))).

Definition RunTests_timing_iterations (timing_iterations num_nonzeros : Z) : option Z :=
  if timing_iterations =? -1 then default_timing_iterations num_nonzeros
  else Some timing_iterations.

(** ** Driver: the choice of the data set when the loader ends the run

    Modelled from the spec: [InitMarket] is defined in sparse_matrix.h,
    which is not among the sources at hand; by the list of exit codes the
    program ends with code 1 on a load failure.  [Load_failure printed] is
    that end inside the loader, after it printed [printed];
    [Loaded coo_matrix] is its return with the matrix read. *)
Inductive loaded :=
| Loaded (coo_matrix : CooMatrix)
| Load_failure (printed : list message).

Definition RunTests_dataset_loading (g_quiet : bool) (InitMarket : string -> loaded)
    (mtx_filename : string) (grid2d grid3d wheel dense : Z)
  : dataset_outcome :=
  if negb (String.eqb mtx_filename EmptyString) then
    match InitMarket mtx_filename with
    | Load_failure printed => Exit 1 printed
    | Loaded coo_matrix =>
        if (coo_num_rows coo_matrix =? 1) || (coo_num_cols coo_matrix =? 1)
           || (coo_num_nonzeros coo_matrix =? 1)
        then Exit 0 (if negb g_quiet then [Trivial_dataset] else [])
        else Benchmark [Dataset_name]
    end
  else if 0 <? grid2d then Benchmark [Dataset_name]
  else if 0 <? grid3d then Benchmark [Dataset_name]
  else if 0 <? wheel then Benchmark [Dataset_name]
  else if 0 <? dense then Benchmark [Dataset_name]
  else Exit 1 [No_graph_type].

(** ** The jump tables of the CSRLenGoto variant

    [TestOmpMergeCsrLenGotomv] builds, for every thread, a table with one
    jump distance for each whole row of the thread and an end marker.  A
    run of this code can also leave a jump table, or ask for an array of
    negative length.  The jump distance [-(length * 22)] is [int]
    arithmetic on the row length; the row numbers stay between the
    coordinates of the thread. *)

Inductive site :=
| Array (arr : array_id)
| Jump_table (tid : Z).           (* [row_jump_distances[tid]] *)

Inductive outcome (A : Type) :=
| Done (a : A)
| Fault (s : site) (index : Z)
| Bad_array_length (len : Z)
| Overflow (value : Z)
| Division_by_zero.
Arguments Done {A} a.
Arguments Fault {A} s index.
Arguments Bad_array_length {A} len.
Arguments Overflow {A} value.
Arguments Division_by_zero {A}.

Definition bind_outcome {A B} (r : outcome A) (k : A -> outcome B) : outcome B :=
  match r with
  | Done a => k a
  | Fault s i => Fault s i
  | Bad_array_length len => Bad_array_length len
  | Overflow v => Overflow v
  | Division_by_zero => Division_by_zero
  end.

Notation "'let+' v := c 'in' k" := (bind_outcome c (fun v => k))
  (at level 10, v name, c at level 100, k at level 200).

Definition lift {A} (r : result A) : outcome A :=
  match r with
  | Ok a => Done a
  | OutOfBounds arr i => Fault (Array arr) i
  | IntOverflow v => Overflow v
  | DivideByZero => Division_by_zero
  end.

(** [table[i] = v] for a jump table. *)
Definition write_table (tid : Z) (table : list Z) (i v : Z) : outcome (list Z) :=
  if (0 <=? i) && (i <? Z.of_nat (length table)) then Done (<[Z.to_nat i := v]> table)
  else Fault (Jump_table tid) i.

(** [new int[len]]: [len] cells of whatever the memory held. *)
Definition new_int_array (junk : Z -> Z) (len : Z) : outcome (list Z) :=
  if len <? 0 then Bad_array_length len else Done (junk <$> seqZ 0 len).

Fixpoint for_iter_outcome {St : Type} (n : nat) (i : Z) (body : Z -> St -> outcome St)
    (s : St) : outcome St :=
  match n with
  | O => Done s
  | S n' => let+ s' := body i s in for_iter_outcome n' (i + 1) body s'
  end.

Definition for_loop_outcome {St : Type} (lo hi : Z) (body : Z -> St -> outcome St)
    (s : St) : outcome St :=
  for_iter_outcome (Z.to_nat (hi - lo)) lo body s.

Section JumpTables.
Variables (row_offsets : list Z) (thread_coords thread_coord_ends : list int2).

(** The row the whole rows of a thread start with: the row after
    [thread_coord.x] when the thread starts inside that row. *)
Definition first_whole_row (thread_coord : int2) (row_begin : Z) : Z :=
  if row_begin <? y thread_coord then x thread_coord + 1 else x thread_coord.

(** Body of the loop over [tid] that fills [row_jump_distances[tid]];
    [junk] is the content of the fresh table. *)
Definition jump_table_of_thread (junk : Z -> Z) (tid : Z) : outcome (list Z) :=
  let+ thread_coord := lift (read A_thread_coords thread_coords tid) in
  let+ thread_coord_end := lift (read A_thread_coord_ends thread_coord_ends tid) in
  let+ row_begin := lift (read A_row_offsets row_offsets (x thread_coord)) in
  let first := first_whole_row thread_coord row_begin in
  let+ table := new_int_array junk (x thread_coord_end - first + 1) in
  let+ table :=
    for_loop_outcome first (x thread_coord_end)
      (fun i table =>
         let+ next := lift (read A_row_offsets row_offsets (i + 1)) in
         let+ this := lift (read A_row_offsets row_offsets i) in
         let+ length := lift (sub_int next this) in
         let+ product := lift (mul_int length 22) in
         let+ distance := lift (neg_int product) in
         write_table tid table (i - first) distance)
      table in
  let j := Z.max 0 (x thread_coord_end - first) in
  write_table tid table j (6 + 3 + 3 + 4 + 7 + 3 + 3).

End JumpTables.

(** ** The index computations on unbounded integers

    The search and the partitioner's arithmetic once more, with the sums,
    differences and products taken in the integers and not checked.  The
    proofs go through these: [MergePathSearch_int] and
    [OmpMergePartitionMatrix_int] show that the program computes the same
    as long as the values fit an [int]. *)

(** [CountingInputIterator::operator[]]: [val + n]. *)
Definition counting_subscript_Z (it : CountingInputIterator) : iterator :=
  fun n => Ok (val it + n).

(** [(x_min + x_max) >> 1] *)
Definition pivot_of_Z (x_min x_max : Z) : Z := Z.shiftr (x_min + x_max) 1.

(** The [while (x_min < x_max)] loop; it returns the final [x_min]. *)
Equations? search_loop_Z (a b : iterator) (diagonal x_min x_max : Z) : result Z
  by wf (Z.to_nat (x_max - x_min)) lt :=
  search_loop_Z a b diagonal x_min x_max with Z_lt_dec x_min x_max => {
    | right _ := Ok x_min
    | left _ with a (pivot_of_Z x_min x_max) => {
        | OutOfBounds arr i := OutOfBounds arr i
        | IntOverflow v := IntOverflow v
        | DivideByZero := DivideByZero
        | Ok a_pivot with b (diagonal - pivot_of_Z x_min x_max - 1) => {
            | OutOfBounds arr i := OutOfBounds arr i
            | IntOverflow v := IntOverflow v
            | DivideByZero := DivideByZero
            | Ok b_item with Z_le_dec a_pivot b_item => {
                | left _ := search_loop_Z a b diagonal (pivot_of_Z x_min x_max + 1) x_max
                | right _ := search_loop_Z a b diagonal x_min (pivot_of_Z x_min x_max) } } } }.
Proof.
  all: unfold pivot_of_Z; rewrite Z.shiftr_div_pow2 by lia; change (2 ^ 1) with 2.
  all: pose proof (Z.div_mod (x_min + x_max) 2 ltac:(lia));
       pose proof (Z.mod_pos_bound (x_min + x_max) 2 ltac:(lia)); lia.
Qed.

Definition MergePathSearch_Z (diagonal : Z) (a b : iterator) (a_len b_len : Z)
  : result int2 :=
  let x_min := Z.max (diagonal - b_len) 0 in
  let x_max := Z.min diagonal a_len in
  let* x_min' := search_loop_Z a b diagonal x_min x_max in
  Ok {| x := Z.min x_min' a_len; y := diagonal - x_min' |}.


Section Partition_Z.
Variables (num_threads num_rows num_nonzeros : Z) (row_offsets : list Z).
Definition num_merge_items_Z : Z := num_rows + num_nonzeros.

Definition items_per_thread_Z : Z :=
  (num_merge_items_Z + num_threads - 1) `quot` num_threads.

Definition start_diagonal_Z (tid : Z) : Z :=
  Z.min (items_per_thread_Z * tid) num_merge_items_Z.

Definition end_diagonal_Z (tid : Z) : Z :=
  Z.min (start_diagonal_Z tid + items_per_thread_Z) num_merge_items_Z.

(** One iteration of the loop over [tid]. *)
Definition partition_thread_Z (tid : Z) (st : list int2 * list int2)
  : result (list int2 * list int2) :=
  let '(thread_coords, thread_coord_ends) := st in
  let nonzero_indices := {| val := 0 |} in
  let* c := MergePathSearch_Z (start_diagonal_Z tid) (ptr_add A_row_offsets row_offsets 1)
         (counting_subscript_Z nonzero_indices) num_rows num_nonzeros in
  let* thread_coords' := write A_thread_coords thread_coords tid c in
  let* c_end := MergePathSearch_Z (end_diagonal_Z tid) (ptr_add A_row_offsets row_offsets 1)
         (counting_subscript_Z nonzero_indices) num_rows num_nonzeros in
  let* thread_coord_ends' := write A_thread_coord_ends thread_coord_ends tid c_end in
  Ok (thread_coords', thread_coord_ends').

Definition OmpMergePartitionMatrix_Z (thread_coords thread_coord_ends : list int2)
  : result (list int2 * list int2) :=
  for_loop 0 num_threads partition_thread_Z (thread_coords, thread_coord_ends).

End Partition_Z.

(** * Part II: vocabulary of the statements *)

(** Total read: the cell, or [d] outside the array. *)
Definition at_ {A} (d : A) (l : list A) (i : Z) : A :=
  if 0 <=? i then default d (l !! Z.to_nat i) else d.

Abbreviation ro_at := (at_ 0).
Abbreviation coord_at := (at_ {| x := 0; y := 0 |}).

(** ** Well-formed CSR row offsets and the merge path *)

Record wf_row_offsets (m nnz : Z) (row_offsets : list Z) : Prop := {
  wf_rows : 1 <= m;
  wf_nnz : 0 <= nnz;
  wf_length : Z.of_nat (length row_offsets) = m + 1;
  wf_first : ro_at row_offsets 0 = 0;
  wf_last : ro_at row_offsets m = nnz;
  wf_step : forall i, 0 <= i < m -> ro_at row_offsets i <= ro_at row_offsets (i + 1)
}.

(** A well-formed CSR matrix with its input vector. *)
Record wf_csr {ValueT} (m n nnz : Z) (row_offsets column_indices : list Z)
    (values vector_x : list ValueT) : Prop := {
  wf_offsets : wf_row_offsets m nnz row_offsets;
  wf_columns_length : Z.of_nat (length column_indices) = nnz;
  wf_values_length : Z.of_nat (length values) = nnz;
  wf_x_length : Z.of_nat (length vector_x) = n;
  wf_columns : forall j, 0 <= j < nnz -> 0 <= at_ 0 column_indices j < n
}.

(** A point of the merge path of [row_offsets[1..m]] with [0, 1, ...]. *)
Record on_path (m nnz : Z) (row_offsets : list Z) (c : int2) : Prop := {
  path_x : 0 <= x c <= m;
  path_y : 0 <= y c <= nnz;
  path_lo : ro_at row_offsets (x c) <= y c;
  path_hi : x c < m -> y c <= ro_at row_offsets (x c + 1)
}.

Definition list_a (row_offsets : list Z) : iterator := ptr_add A_row_offsets row_offsets 1.
Definition list_b : iterator := counting_subscript_Z {| val := 0 |}.

(** What the partitioner leaves in its two arrays: for every thread the
    search results on its two diagonals. *)
Definition partitioned (P m nnz : Z) (row_offsets : list Z)
    (thread_coords thread_coord_ends : list int2) : Prop :=
  Z.of_nat (length thread_coords) = P /\
  Z.of_nat (length thread_coord_ends) = P /\
  forall t, 0 <= t < P ->
    MergePathSearch_Z (start_diagonal_Z P m nnz t) (list_a row_offsets) list_b m nnz
      = Ok (coord_at thread_coords t) /\
    MergePathSearch_Z (end_diagonal_Z P m nnz t) (list_a row_offsets) list_b m nnz
      = Ok (coord_at thread_coord_ends t).

(** Loop invariant of the partitioner: threads below [k] are done. *)
Definition filled (P m nnz : Z) (row_offsets : list Z) (k : Z)
    (st : list int2 * list int2) : Prop :=
  Z.of_nat (length st.1) = P /\ Z.of_nat (length st.2) = P /\
  forall t, 0 <= t < k ->
    MergePathSearch_Z (start_diagonal_Z P m nnz t) (list_a row_offsets) list_b m nnz
      = Ok (coord_at st.1 t) /\
    MergePathSearch_Z (end_diagonal_Z P m nnz t) (list_a row_offsets) list_b m nnz
      = Ok (coord_at st.2 t).

(** State of the partitioner's loop when the threads of the list [ran]
    have run, in whatever order, from the arrays [tc0] and [tce0]. *)
Definition partition_ran (P m nnz : Z) (row_offsets : list Z) (tc0 tce0 : list int2)
    (ran : list Z) (st : list int2 * list int2) : Prop :=
  Z.of_nat (length st.1) = P /\ Z.of_nat (length st.2) = P /\
  forall t, 0 <= t < P ->
    (t ∈ ran ->
       MergePathSearch_Z (start_diagonal_Z P m nnz t) (list_a row_offsets) list_b m nnz
         = Ok (coord_at st.1 t) /\
       MergePathSearch_Z (end_diagonal_Z P m nnz t) (list_a row_offsets) list_b m nnz
         = Ok (coord_at st.2 t)) /\
    (t ∉ ran -> coord_at st.1 t = coord_at tc0 t /\ coord_at st.2 t = coord_at tce0 t).

(** The partition invariants the kernel needs for its accesses: every
    thread's range lies in the grid and runs forward. *)
Definition coords_in_range (P m nnz : Z) (thread_coords thread_coord_ends : list int2)
  : Prop :=
  P <= Z.of_nat (length thread_coords) /\
  P <= Z.of_nat (length thread_coord_ends) /\
  forall t, 0 <= t < P ->
    0 <= x (coord_at thread_coords t) <= x (coord_at thread_coord_ends t) /\
    x (coord_at thread_coord_ends t) <= m /\
    0 <= y (coord_at thread_coords t) <= y (coord_at thread_coord_ends t) /\
    y (coord_at thread_coord_ends t) <= nnz.

(** A partition of the whole merge path into consecutive pieces. *)
Record path_partition (P m nnz : Z) (row_offsets : list Z)
    (thread_coords thread_coord_ends : list int2) : Prop := {
  pp_range : coords_in_range P m nnz thread_coords thread_coord_ends;
  pp_start : forall t, 0 <= t < P -> on_path m nnz row_offsets (coord_at thread_coords t);
  pp_end : forall t, 0 <= t < P -> on_path m nnz row_offsets (coord_at thread_coord_ends t);
  pp_first : coord_at thread_coords 0 = {| x := 0; y := 0 |};
  pp_last : coord_at thread_coord_ends (P - 1) = {| x := m; y := nnz |};
  pp_chain : forall t, 0 <= t < P - 1 ->
    coord_at thread_coord_ends t = coord_at thread_coords (t + 1)
}.

(** ** Sums of products *)

Section Sums.
Context {ValueT : Type}.
Variables (zero : ValueT) (add mul : ValueT -> ValueT -> ValueT).
Variables (row_offsets column_indices : list Z) (values vector_x : list ValueT).

(** [values[j] * vector_x[column_indices[j]]] *)
Definition term (j : Z) : ValueT :=
  mul (at_ zero values j) (at_ zero vector_x (at_ 0 column_indices j)).

(** [running_total] after the items [lo .. hi - 1], in this order. *)
Definition sum_from (running_total : ValueT) (lo hi : Z) : ValueT :=
  fold_left (fun acc j => add acc (term j)) (seqZ lo (hi - lo)) running_total.

Definition segment (lo hi : Z) : ValueT := sum_from zero lo hi.

(** The row sum in the order of [SpmvGold]. *)
Definition row_sum (i : Z) : ValueT :=
  segment (ro_at row_offsets i) (ro_at row_offsets (i + 1)).

(** [vector_y_out[k]] after the fix-up steps [0 .. n - 1], from the content
    [v]: step [t] adds [carry t] when [carry_row t] is [k]. *)
Fixpoint fixed (carry_row : Z -> Z) (carry : Z -> ValueT) (n : nat) (k : Z) (v : ValueT)
  : ValueT :=
  match n with
  | O => v
  | S n' =>
      if decide (carry_row (Z.of_nat n') = k)
      then add (fixed carry_row carry n' k v) (carry (Z.of_nat n'))
      else fixed carry_row carry n' k v
  end.

Section Threads.
Variables (thread_coords thread_coord_ends : list int2).

(** [thread_coord.y] when thread [t] arrives at row [k]. *)
Definition pos (t k : Z) : Z :=
  if decide (k = x (coord_at thread_coords t)) then y (coord_at thread_coords t)
  else Z.max (y (coord_at thread_coords t)) (ro_at row_offsets k).

(** Thread [t] stores into [vector_y_out[k]]. *)
Definition writes (t k : Z) : Prop :=
  x (coord_at thread_coords t) <= k < x (coord_at thread_coord_ends t).

(** What thread [t] stores into [vector_y_out[k]]. *)
Definition row_value (t k : Z) : ValueT :=
  segment (pos t k) (ro_at row_offsets (k + 1)).

(** The carry-out value of thread [t]. *)
Definition carry_value (t : Z) : ValueT :=
  segment (pos t (x (coord_at thread_coord_ends t))) (y (coord_at thread_coord_ends t)).

(** The row thread [t] carries out to. *)
Definition carry_row (t : Z) : Z := x (coord_at thread_coord_ends t).

(** [vector_y_out[k]] after threads [0 .. n - 1], from the content [v0]. *)
Fixpoint written (n : nat) (k : Z) (v0 : ValueT) : ValueT :=
  match n with
  | O => v0
  | S n' =>
      if decide (writes (Z.of_nat n') k) then row_value (Z.of_nat n') k
      else written n' k v0
  end.

(** State of the parallel loop when threads [0 .. k - 1] are done, from
    the output vector [y0]. *)
Definition threads_done (m : Z) (y0 : list ValueT) (k : Z)
    (st : list ValueT * list Z * list ValueT) : Prop :=
  0 <= k /\
  Z.of_nat (length st.1.1) = m /\
  Z.of_nat (length st.1.2) = 256 /\
  Z.of_nat (length st.2) = 256 /\
  (forall r, at_ zero st.1.1 r = written (Z.to_nat k) r (at_ zero y0 r)) /\
  (forall t, 0 <= t < k ->
     at_ 0 st.1.2 t = carry_row t /\ at_ zero st.2 t = carry_value t).

(** State of the parallel loop when the threads of the list [ran] have
    run, in whatever order, from the output vector [y0] and the carry
    arrays [rc0] and [vc0]. *)
Definition threads_ran (m : Z) (y0 : list ValueT) (rc0 : list Z) (vc0 : list ValueT)
    (ran : list Z) (st : list ValueT * list Z * list ValueT) : Prop :=
  Z.of_nat (length st.1.1) = m /\
  Z.of_nat (length st.1.2) = 256 /\
  Z.of_nat (length st.2) = 256 /\
  (forall k, 0 <= k < m ->
     (forall t, t ∈ ran -> writes t k -> at_ zero st.1.1 k = row_value t k) /\
     ((forall t, t ∈ ran -> ~ writes t k) -> at_ zero st.1.1 k = at_ zero y0 k)) /\
  (forall t, 0 <= t < 256 ->
     (t ∈ ran -> at_ 0 st.1.2 t = carry_row t /\ at_ zero st.2 t = carry_value t) /\
     (t ∉ ran -> at_ 0 st.1.2 t = at_ 0 rc0 t /\ at_ zero st.2 t = at_ zero vc0 t)).

(** Where the path stands when threads [0 .. k - 1] are done. *)
Definition reach (k : Z) : int2 :=
  if decide (k = 0) then {| x := 0; y := 0 |} else coord_at thread_coord_ends (k - 1).

(** What the threads [0 .. k - 1] have carried out to row [i]. *)
Definition carried (k i : Z) : ValueT :=
  if decide (x (reach k) = i) then segment (ro_at row_offsets i) (y (reach k))
  else zero.

End Threads.
End Sums.

(** The laws of exact arithmetic the comparison with [SpmvGold] uses. *)
Record exact_add {ValueT} (zero : ValueT) (add : ValueT -> ValueT -> ValueT) : Prop := {
  add_assoc : forall a b c, add a (add b c) = add (add a b) c;
  add_comm : forall a b, add a b = add b a;
  add_zero_r : forall a, add a zero = a
}.

(** ** Executable checks of the well-formedness conditions *)

Definition wf_row_offsets_b (m nnz : Z) (row_offsets : list Z) : bool :=
  (1 <=? m) && (0 <=? nnz) && (Z.of_nat (length row_offsets) =? m + 1)
  && (ro_at row_offsets 0 =? 0) && (ro_at row_offsets m =? nnz)
  && forallb (fun i => ro_at row_offsets i <=? ro_at row_offsets (i + 1)) (seqZ 0 m).

Definition wf_csr_b {ValueT} (m n nnz : Z) (row_offsets column_indices : list Z)
    (values vector_x : list ValueT) : bool :=
  wf_row_offsets_b m nnz row_offsets
  && (Z.of_nat (length column_indices) =? nnz)
  && (Z.of_nat (length values) =? nnz)
  && (Z.of_nat (length vector_x) =? n)
  && forallb (fun j => (0 <=? at_ 0 column_indices j) && (at_ 0 column_indices j <? n))
             (seqZ 0 nnz).

Definition coords_in_range_b (P m nnz : Z) (thread_coords thread_coord_ends : list int2)
  : bool :=
  (P <=? Z.of_nat (length thread_coords))
  && (P <=? Z.of_nat (length thread_coord_ends))
  && forallb (fun t =>
       (0 <=? x (coord_at thread_coords t))
       && (x (coord_at thread_coords t) <=? x (coord_at thread_coord_ends t))
       && (x (coord_at thread_coord_ends t) <=? m)
       && (0 <=? y (coord_at thread_coords t))
       && (y (coord_at thread_coords t) <=? y (coord_at thread_coord_ends t))
       && (y (coord_at thread_coord_ends t) <=? nnz))
     (seqZ 0 P).

(** ** A small matrix

    Four rows and six nonzeros, all in row 1 (the rows 0, 2 and 3 are
    empty), cut for three threads. *)

Definition ex_row_offsets : list Z := [0; 0; 6; 6; 6].
Definition ex_column_indices : list Z := [0; 1; 2; 3; 4; 5].
Definition ex_values : list Z := [1; 1; 1; 1; 1; 1].
Definition ex_vector_x : list Z := [1; 2; 3; 4; 5; 6].
Definition ex_fresh_coords : list int2 := replicate 3 {| x := -1; y := -1 |}.
Definition ex_thread_coords : list int2 :=
  [{| x := 0; y := 0 |}; {| x := 1; y := 3 |}; {| x := 2; y := 6 |}].
Definition ex_thread_coord_ends : list int2 :=
  [{| x := 1; y := 3 |}; {| x := 2; y := 6 |}; {| x := 4; y := 6 |}].
Definition ex_fresh_y : list Z := [-1; -1; -1; -1].

(** ** Vocabulary of the further properties *)

(** A list in non-decreasing order. *)
Definition nondecreasing (l : list Z) : Prop :=
  forall i j, 0 <= i <= j -> j < Z.of_nat (length l) -> at_ 0 l i <= at_ 0 l j.

(** The step of the merge path of a CSR matrix after the point [c]: down
    to the next row when the nonzeros of row [x c] are used up, else on to
    the next nonzero. *)
Definition path_step (m : Z) (row_offsets : list Z) (c : int2) : int2 :=
  if (x c <? m) && (y c =? ro_at row_offsets (x c + 1))
  then {| x := x c + 1; y := y c |}
  else {| x := x c; y := y c + 1 |}.

(** Executable checks of [on_path] and [path_partition]. *)
Definition on_path_b (m nnz : Z) (row_offsets : list Z) (c : int2) : bool :=
  (0 <=? x c) && (x c <=? m) && (0 <=? y c) && (y c <=? nnz)
  && (ro_at row_offsets (x c) <=? y c)
  && ((m <=? x c) || (y c <=? ro_at row_offsets (x c + 1))).

Definition int2_eqb (c c' : int2) : bool := (x c =? x c') && (y c =? y c').

Definition path_partition_b (P m nnz : Z) (row_offsets : list Z)
    (thread_coords thread_coord_ends : list int2) : bool :=
  coords_in_range_b P m nnz thread_coords thread_coord_ends
  && forallb (fun t => on_path_b m nnz row_offsets (coord_at thread_coords t)
                       && on_path_b m nnz row_offsets (coord_at thread_coord_ends t))
             (seqZ 0 P)
  && int2_eqb (coord_at thread_coords 0) {| x := 0; y := 0 |}
  && int2_eqb (coord_at thread_coord_ends (P - 1)) {| x := m; y := nnz |}
  && forallb (fun t => int2_eqb (coord_at thread_coord_ends t)
                                (coord_at thread_coords (t + 1)))
             (seqZ 0 (P - 1)).

(** An uneven cut of the small matrix for two threads, and a cut for one
    thread that stops after row 0. *)
Definition ex_uneven_coords : list int2 := [{| x := 0; y := 0 |}; {| x := 1; y := 1 |}].
Definition ex_uneven_coord_ends : list int2 := [{| x := 1; y := 1 |}; {| x := 4; y := 6 |}].
Definition ex_short_coords : list int2 := [{| x := 0; y := 0 |}].
Definition ex_short_coord_ends : list int2 := [{| x := 1; y := 3 |}].


(** One row of nine nonzeros, cut for five threads, and the example's
    column indices with a column that [vector_x] does not have. *)
Definition ex_one_row_offsets : list Z := [0; 9].
Definition ex_one_row_coords : list int2 :=
  [{| x := 0; y := 0 |}; {| x := 0; y := 2 |}; {| x := 0; y := 4 |};
   {| x := 0; y := 6 |}; {| x := 0; y := 8 |}].
Definition ex_one_row_coord_ends : list int2 :=
  [{| x := 0; y := 2 |}; {| x := 0; y := 4 |}; {| x := 0; y := 6 |};
   {| x := 0; y := 8 |}; {| x := 1; y := 9 |}].
Definition ex_bad_column_indices : list Z := [0; 1; 9; 3; 4; 5].

(** Matrices at which the index arithmetic leaves [int]: few rows with
    almost [2 ^ 31] nonzeros in the last one, and [2 ^ 30 + 1] rows with
    two nonzeros in the last one. *)
Definition ex_fresh (P : nat) : list int2 := replicate P {| x := -1; y := -1 |}.
Definition ex_huge_rows : Z := 2 ^ 31 - 1000.
Definition ex_huge_row_offsets : list Z := replicate (Z.to_nat ex_huge_rows) 0 ++ [2].
(** * Part III: properties *)

(** ** Checked accesses *)

Lemma bind_Ok_inv {A B} (r : result A) (k : A -> result B) b :
bind r k = Ok b -> exists a, r = Ok a /\ k a = Ok b.
Proof. destruct r; simpl; [eauto | discriminate | discriminate | discriminate]. Qed.

Lemma read_Ok {A} (d : A) arr l i :
0 <= i < Z.of_nat (length l) -> read arr l i = Ok (at_ d l i).
Proof.
intros [H0 Hlen]. unfold read, at_.
rewrite (proj2 (Z.leb_le 0 i)) by done.
destruct (lookup_lt_is_Some_2 l (Z.to_nat i) ltac:(lia)) as [v ->]. done.
Qed.

Lemma read_Ok_inv {A} (d : A) arr l i v :
read arr l i = Ok v -> 0 <= i < Z.of_nat (length l) /\ at_ d l i = v.
Proof.
unfold read, at_. destruct (0 <=? i) eqn:Hi; [|discriminate].
destruct (l !! Z.to_nat i) as [w|] eqn:Hl; [|discriminate].
intros [= ->]. apply lookup_lt_Some in Hl. simpl. split; [lia | done].
Qed.

Lemma read_oob {A} arr (l : list A) i :
~ (0 <= i < Z.of_nat (length l)) -> read arr l i = OutOfBounds arr i.
Proof.
intros Hn. unfold read. destruct (0 <=? i) eqn:Hi; [|done].
rewrite lookup_ge_None_2; [done | lia].
Qed.

Lemma write_Ok {A} arr (l : list A) i v :
0 <= i < Z.of_nat (length l) -> write arr l i v = Ok (<[Z.to_nat i := v]> l).
Proof.
intros [H0 Hlen]. unfold write.
by rewrite (proj2 (Z.leb_le 0 i)), (proj2 (Z.ltb_lt _ _)).
Qed.

Lemma write_oob {A} arr (l : list A) i v :
~ (0 <= i < Z.of_nat (length l)) -> write arr l i v = OutOfBounds arr i.
Proof.
intros Hn. unfold write.
destruct (0 <=? i) eqn:H0; [|done].
destruct (i <? Z.of_nat (length l)) eqn:H1; [lia | done].
Qed.

Lemma at_insert_eq {A} (d : A) l i v :
0 <= i < Z.of_nat (length l) -> at_ d (<[Z.to_nat i := v]> l) i = v.
Proof.
intros [H0 Hlen]. unfold at_. rewrite (proj2 (Z.leb_le 0 i)) by done.
rewrite list_lookup_insert_eq by lia. done.
Qed.

Lemma at_insert_ne {A} (d : A) l i j v :
0 <= i -> i <> j -> at_ d (<[Z.to_nat i := v]> l) j = at_ d l j.
Proof.
intros H0 Hne. unfold at_. destruct (0 <=? j) eqn:Hj; [|done].
rewrite list_lookup_insert_ne by lia. done.
Qed.

Lemma at_lookup {A} (d : A) l i v :
0 <= i -> l !! Z.to_nat i = Some v -> at_ d l i = v.
Proof. intros H0 Hl. unfold at_. by rewrite (proj2 (Z.leb_le 0 i)), Hl. Qed.

(** Two lists of one length with the same cells are equal. *)
Lemma at_ext {A} (d : A) (l1 l2 : list A) :
length l1 = length l2 ->
(forall i, 0 <= i < Z.of_nat (length l1) -> at_ d l1 i = at_ d l2 i) ->
l1 = l2.
Proof.
intros Hlen Hat. apply list_eq_same_length with (n := length l1); [done..|].
intros i a b Hi Ha Hb.
specialize (Hat (Z.of_nat i) ltac:(lia)). unfold at_ in Hat.
rewrite (proj2 (Z.leb_le 0 _)), Nat2Z.id, Ha, Hb in Hat by lia. done.
Qed.

(** ** Counting loops *)

Lemma for_loop_done {St} lo hi (body : Z -> St -> result St) s :
hi <= lo -> for_loop lo hi body s = Ok s.
Proof. intros H. unfold for_loop. by replace (Z.to_nat (hi - lo)) with O by lia. Qed.

Lemma for_loop_step {St} lo hi (body : Z -> St -> result St) s :
lo < hi ->
for_loop lo hi body s = (let* s' := body lo s in for_loop (lo + 1) hi body s').
Proof.
intros H. unfold for_loop.
replace (Z.to_nat (hi - lo)) with (S (Z.to_nat (hi - (lo + 1)))) by lia. done.
Qed.

(** Invariant rule: [I] holds on entry and every iteration keeps it, so the
  loop ends normally in a state with [I hi]. *)
Lemma for_loop_inv {St} (I : Z -> St -> Prop) lo hi (body : Z -> St -> result St) s :
lo <= hi ->
I lo s ->
(forall i s, lo <= i < hi -> I i s -> exists s', body i s = Ok s' /\ I (i + 1) s') ->
exists s', for_loop lo hi body s = Ok s' /\ I hi s'.
Proof.
intros Hle. unfold for_loop.
remember (Z.to_nat (hi - lo)) as n eqn:Hn.
revert lo s Hle Hn. induction n as [|n IH]; intros lo s Hle Hn H0 Hstep.
- exists s. replace hi with lo by lia. done.
- destruct (Hstep lo s ltac:(lia) H0) as (s1 & Hb & H1). simpl. rewrite Hb. simpl.
  apply IH; [lia | lia | done |].
  intros i s2 Hi. apply Hstep. lia.
Qed.

(** An iteration that fails stops the loop with its error, after the
  iterations before it went well. *)
Lemma for_loop_fail {St} (I : Z -> St -> Prop) lo hi k (body : Z -> St -> result St) s arr ix :
lo <= k < hi ->
I lo s ->
(forall i s, lo <= i < k -> I i s -> exists s', body i s = Ok s' /\ I (i + 1) s') ->
(forall s, I k s -> body k s = OutOfBounds arr ix) ->
for_loop lo hi body s = OutOfBounds arr ix.
Proof.
intros Hk. unfold for_loop.
remember (Z.to_nat (k - lo)) as n eqn:Hn.
revert lo s Hk Hn. induction n as [|n IH]; intros lo s Hk Hn H0 Hstep Hfail.
- assert (lo = k) as -> by lia.
  replace (Z.to_nat (hi - k)) with (S (Z.to_nat (hi - (k + 1)))) by lia.
  simpl. by rewrite (Hfail s H0).
- destruct (Hstep lo s ltac:(lia) H0) as (s1 & Hb & H1).
  replace (Z.to_nat (hi - lo)) with (S (Z.to_nat (hi - (lo + 1)))) by lia.
  simpl. rewrite Hb. simpl.
  apply IH; [lia | lia | done | | done].
  intros i s2 Hi. apply Hstep. lia.
Qed.

(** A counting loop is the run of its iterations in ascending order. *)
Lemma for_iter_run_in_order {St} (i : nat) lo (body : Z -> St -> result St) s :
  for_iter i lo body s = run_in_order (seqZ lo (Z.of_nat i)) body s.
Proof.
  revert lo s. induction i as [|i IH]; intros lo s; [done|].
  rewrite seqZ_cons by lia.
  replace (Z.pred (Z.of_nat (S i))) with (Z.of_nat i) by lia.
  replace (Z.succ lo) with (lo + 1) by lia.
  simpl. destruct (body lo s) as [s'| | |]; [simpl; apply IH | done | done | done].
Qed.

Lemma for_loop_run_in_order {St} lo hi (body : Z -> St -> result St) s :
  for_loop lo hi body s = run_in_order (seqZ lo (hi - lo)) body s.
Proof.
  unfold for_loop. rewrite for_iter_run_in_order.
  destruct (Z_le_gt_dec (hi - lo) 0).
  - by rewrite !seqZ_nil by lia.
  - by rewrite Z2Nat.id by lia.
Qed.

(** ** The merge path *)

Lemma pivot_of_bounds x_min x_max :
  x_min < x_max -> x_min <= pivot_of_Z x_min x_max < x_max.
Proof.
  intros Hlt. unfold pivot_of_Z. rewrite Z.shiftr_div_pow2 by lia. change (2 ^ 1) with 2.
  pose proof (Z.div_mod (x_min + x_max) 2 ltac:(lia)).
  pose proof (Z.mod_pos_bound (x_min + x_max) 2 ltac:(lia)). lia.
Qed.

Section MergePath.
Variables (m nnz : Z) (row_offsets : list Z).
Hypothesis Hwf : wf_row_offsets m nnz row_offsets.

Lemma ro_mono_nat (n : nat) i :
  0 <= i -> i + Z.of_nat n <= m ->
  ro_at row_offsets i <= ro_at row_offsets (i + Z.of_nat n).
Proof.
  intros Hi. induction n as [|n IH]; intros Hm.
  - rewrite Z.add_0_r. lia.
  - pose proof (wf_step _ _ _ Hwf (i + Z.of_nat n) ltac:(lia)) as Hs.
    replace (i + Z.of_nat (S n)) with (i + Z.of_nat n + 1) by lia. lia.
Qed.

Lemma ro_mono i j : 0 <= i <= j -> j <= m -> ro_at row_offsets i <= ro_at row_offsets j.
Proof.
  intros [Hi Hij] Hj. replace j with (i + Z.of_nat (Z.to_nat (j - i))) by lia.
  apply ro_mono_nat; lia.
Qed.

Lemma ro_range i : 0 <= i <= m -> 0 <= ro_at row_offsets i <= nnz.
Proof.
  intros Hi. rewrite <- (wf_first _ _ _ Hwf) at 1. rewrite <- (wf_last _ _ _ Hwf).
  split; apply ro_mono; lia.
Qed.

Lemma read_row_offsets i :
  0 <= i <= m -> read A_row_offsets row_offsets i = Ok (ro_at row_offsets i).
Proof. intros Hi. apply read_Ok. rewrite (wf_length _ _ _ Hwf). lia. Qed.

(** Along the path both coordinates grow with the diagonal. *)
Lemma on_path_mono c c' :
  on_path m nnz row_offsets c -> on_path m nnz row_offsets c' ->
  x c + y c <= x c' + y c' -> x c <= x c' /\ y c <= y c'.
Proof.
  intros [Hx Hy Hlo Hhi] [Hx' Hy' Hlo' Hhi'] Hd.
  assert (x c <= x c') as Hxx.
  { destruct (Z_le_gt_dec (x c) (x c')) as [|Hgt]; [done|].
    pose proof (ro_mono (x c' + 1) (x c) ltac:(lia) ltac:(lia)). lia. }
  split; [done|].
  destruct (Z_le_gt_dec (y c) (y c')) as [|Hgt]; [done|].
  pose proof (ro_mono (x c + 1) (x c') ltac:(lia) ltac:(lia)). lia.
Qed.

Lemma on_path_unique c c' :
  on_path m nnz row_offsets c -> on_path m nnz row_offsets c' ->
  x c + y c = x c' + y c' -> c = c'.
Proof.
  intros Hc Hc' Hd.
  destruct (on_path_mono c c' Hc Hc' ltac:(lia)).
  destruct (on_path_mono c' c Hc' Hc ltac:(lia)).
  destruct c, c'; simpl in *. f_equal; lia.
Qed.

Lemma search_loop_Z_eq a b diagonal x_min x_max :
  search_loop_Z a b diagonal x_min x_max =
  if decide (x_min < x_max) then
    let* a_pivot := a (pivot_of_Z x_min x_max) in
    let* b_item := b (diagonal - pivot_of_Z x_min x_max - 1) in
    if decide (a_pivot <= b_item)
    then search_loop_Z a b diagonal (pivot_of_Z x_min x_max + 1) x_max
    else search_loop_Z a b diagonal x_min (pivot_of_Z x_min x_max)
  else Ok x_min.
Proof.
  rewrite search_loop_Z_equation_1.
  destruct (Z_lt_dec x_min x_max); destruct (decide (x_min < x_max));
    try lia; simpl; [|done].
  destruct (a (pivot_of_Z x_min x_max)) as [ap| | |]; simpl; [|done|done|done].
  destruct (b (diagonal - pivot_of_Z x_min x_max - 1)) as [bi| | |]; simpl; [|done|done|done].
  destruct (Z_le_dec ap bi); destruct (decide (ap <= bi)); try lia; done.
Qed.

(** The loop ends at the first [x] of the range whose row marker
    [row_offsets[x + 1]] is above item [diagonal - x - 1]. *)
Lemma search_loop_spec diagonal x_min x_max :
  0 <= x_min <= x_max -> x_max <= m ->
  exists r, search_loop_Z (list_a row_offsets) list_b diagonal x_min x_max = Ok r /\
    x_min <= r <= x_max /\
    (x_min < r -> ro_at row_offsets r <= diagonal - r) /\
    (r < x_max -> diagonal - r <= ro_at row_offsets (r + 1)).
Proof.
  remember (Z.to_nat (x_max - x_min)) as n eqn:Hn.
  revert x_min x_max Hn.
  induction n as [n IH] using lt_wf_ind. intros x_min x_max Hn [H0 Hle] Hm.
  rewrite search_loop_Z_eq. destruct (decide (x_min < x_max)) as [Hlt|Hge].
  - pose proof (pivot_of_bounds _ _ Hlt) as Hp.
    set (p := pivot_of_Z x_min x_max) in *.
    unfold list_a at 1, ptr_add. rewrite read_row_offsets by lia. simpl.
    destruct (decide (ro_at row_offsets (1 + p) <= 0 + (diagonal - p - 1))) as [Ha|Ha].
    + destruct (IH (Z.to_nat (x_max - (p + 1))) ltac:(lia) (p + 1) x_max eq_refl
                  ltac:(lia) Hm) as (r & -> & Hr & Hlo & Hhi).
      exists r. split; [done|]. split; [lia|]. split; [|done].
      intros _. destruct (decide (p + 1 < r)) as [|Heq]; [auto|].
      replace r with (p + 1) by lia. replace (p + 1) with (1 + p) by lia. lia.
    + destruct (IH (Z.to_nat (p - x_min)) ltac:(lia) x_min p eq_refl
                  ltac:(lia) ltac:(lia)) as (r & -> & Hr & Hlo & Hhi).
      exists r. split; [done|]. split; [lia|]. split; [done|].
      intros _. destruct (decide (r < p)) as [|Heq]; [auto|].
      replace r with p in * by lia. replace (p + 1) with (1 + p) by lia. lia.
  - exists x_min. split; [done|]. lia.
Qed.

(** The search succeeds on every diagonal and lands on the path. *)
Lemma MergePathSearch_on_path diagonal :
  0 <= diagonal <= m + nnz ->
  exists c, MergePathSearch_Z diagonal (list_a row_offsets) list_b m nnz = Ok c /\
    x c + y c = diagonal /\ on_path m nnz row_offsets c /\
    Z.max 0 (diagonal - nnz) <= x c <= Z.min diagonal m.
Proof.
  intros Hd. pose proof (wf_rows _ _ _ Hwf). pose proof (wf_nnz _ _ _ Hwf).
  unfold MergePathSearch_Z.
  destruct (search_loop_spec diagonal (Z.max (diagonal - nnz) 0) (Z.min diagonal m)
              ltac:(lia) ltac:(lia)) as (r & -> & Hr & Hlo & Hhi).
  simpl. eexists. split; [done|]. simpl.
  rewrite Z.min_l by lia. split; [lia|]. split; [|lia].
  split; simpl; [lia | lia | |].
  - destruct (decide (Z.max (diagonal - nnz) 0 < r)) as [|Heq]; [auto|].
    assert (r = Z.max (diagonal - nnz) 0) as -> by lia.
    destruct (Z.max_spec (diagonal - nnz) 0) as [[Hmx ->]|[Hmx ->]].
    + rewrite (wf_first _ _ _ Hwf). lia.
    + pose proof (ro_range (diagonal - nnz) ltac:(lia)). lia.
  - intros Hrm. destruct (decide (r < Z.min diagonal m)) as [|Heq]; [auto|].
    pose proof (ro_range (r + 1) ltac:(lia)). lia.
Qed.
End MergePath.

(** ** Partitioner: diagonals *)

Section Diagonals.
Variables (P m nnz : Z).
Hypotheses (HP : 1 <= P) (Hm : 0 <= m + nnz).

Lemma items_per_thread_div :
  items_per_thread_Z P m nnz = (m + nnz + P - 1) `div` P.
Proof. unfold items_per_thread_Z, num_merge_items_Z. apply Z.quot_div_nonneg; lia. Qed.

(** [items_per_thread_Z] is the ceiling of [(m + nnz) / P]. *)
Lemma items_per_thread_ceil :
  (items_per_thread_Z P m nnz - 1) * P < m + nnz <= items_per_thread_Z P m nnz * P.
Proof.
  rewrite items_per_thread_div.
  pose proof (Z.div_mod (m + nnz + P - 1) P ltac:(lia)).
  pose proof (Z.mod_pos_bound (m + nnz + P - 1) P ltac:(lia)). nia.
Qed.

Lemma ceil_unique q :
  (q - 1) * P < m + nnz <= q * P -> q = items_per_thread_Z P m nnz.
Proof. pose proof items_per_thread_ceil. nia. Qed.

Lemma items_per_thread_nonneg : 0 <= items_per_thread_Z P m nnz.
Proof. pose proof items_per_thread_ceil. nia. Qed.

Lemma start_diagonal_range t :
  0 <= t -> 0 <= start_diagonal_Z P m nnz t <= m + nnz.
Proof.
  intros Ht. pose proof items_per_thread_nonneg.
  unfold start_diagonal_Z, num_merge_items_Z. nia.
Qed.

Lemma end_diagonal_range t :
  0 <= t -> start_diagonal_Z P m nnz t <= end_diagonal_Z P m nnz t <= m + nnz.
Proof.
  intros Ht. pose proof items_per_thread_nonneg. pose proof (start_diagonal_range t Ht).
  unfold end_diagonal_Z, num_merge_items_Z. lia.
Qed.

Lemma start_diagonal_0 : start_diagonal_Z P m nnz 0 = 0.
Proof. unfold start_diagonal_Z, num_merge_items_Z. lia. Qed.

Lemma end_diagonal_next t :
  0 <= t -> end_diagonal_Z P m nnz t = start_diagonal_Z P m nnz (t + 1).
Proof.
  intros Ht. pose proof items_per_thread_nonneg.
  unfold end_diagonal_Z, start_diagonal_Z, num_merge_items_Z. nia.
Qed.

Lemma end_diagonal_last : end_diagonal_Z P m nnz (P - 1) = m + nnz.
Proof.
  pose proof items_per_thread_ceil. pose proof items_per_thread_nonneg.
  unfold end_diagonal_Z, start_diagonal_Z, num_merge_items_Z. nia.
Qed.
End Diagonals.

(** ** Partitioner: the two coordinate arrays *)

Section PartitionSpec.
Variables (P m nnz : Z) (row_offsets : list Z).
Hypotheses (Hwf : wf_row_offsets m nnz row_offsets) (HP : 1 <= P).

Lemma partition_thread_filled k st :
  0 <= k < P -> filled P m nnz row_offsets k st ->
  exists st', partition_thread_Z P m nnz row_offsets k st = Ok st' /\
    filled P m nnz row_offsets (k + 1) st'.
Proof.
  intros Hk (Hl1 & Hl2 & Hdone). destruct st as [tc tce]. simpl in *.
  pose proof (wf_rows _ _ _ Hwf). pose proof (wf_nnz _ _ _ Hwf).
  pose proof (start_diagonal_range P m nnz HP ltac:(lia) k ltac:(lia)) as Hs.
  pose proof (end_diagonal_range P m nnz HP ltac:(lia) k ltac:(lia)) as He.
  destruct (MergePathSearch_on_path m nnz row_offsets Hwf _ Hs) as (c & Hc & _).
  destruct (MergePathSearch_on_path m nnz row_offsets Hwf (end_diagonal_Z P m nnz k)
              ltac:(lia)) as (c' & Hc' & _).
  pose proof Hc as Hd. pose proof Hc' as Hd'. unfold list_a, list_b in Hd, Hd'.
  rewrite Hd. simpl. rewrite write_Ok by lia. simpl.
  rewrite Hd'. simpl. rewrite write_Ok by lia. simpl.
  eexists. split; [done|]. unfold filled. simpl.
  rewrite !length_insert. split; [done|]. split; [done|].
  intros t Ht. destruct (decide (t = k)) as [->|Hne].
  - rewrite !at_insert_eq by lia. done.
  - rewrite !at_insert_ne by lia. apply Hdone. lia.
Qed.

Lemma OmpMergePartitionMatrix_spec (tc0 tce0 : list int2) :
  Z.of_nat (length tc0) = P -> Z.of_nat (length tce0) = P ->
  exists tc tce,
    OmpMergePartitionMatrix_Z P m nnz row_offsets tc0 tce0 = Ok (tc, tce) /\
    partitioned P m nnz row_offsets tc tce.
Proof.
  intros Hl0 Hl0'. unfold OmpMergePartitionMatrix_Z.
  destruct (for_loop_inv (filled P m nnz row_offsets) 0 P (partition_thread_Z P m nnz row_offsets) (tc0, tce0))
    as ([tc tce] & Hrun & Hinv); [lia | | | ].
  - split; [done|]. split; [done|]. intros t Ht. lia.
  - intros i st Hi. by apply partition_thread_filled.
  - exists tc, tce. split; [done|]. apply Hinv.
Qed.

(** Every coordinate the partitioner stores is the path point of its
    diagonal. *)
Lemma partitioned_on_path tc tce t :
  partitioned P m nnz row_offsets tc tce -> 0 <= t < P ->
  on_path m nnz row_offsets (coord_at tc t) /\
  x (coord_at tc t) + y (coord_at tc t) = start_diagonal_Z P m nnz t /\
  on_path m nnz row_offsets (coord_at tce t) /\
  x (coord_at tce t) + y (coord_at tce t) = end_diagonal_Z P m nnz t.
Proof.
  intros (_ & _ & Hp) Ht. destruct (Hp t Ht) as [Hs He].
  pose proof (wf_rows _ _ _ Hwf). pose proof (wf_nnz _ _ _ Hwf).
  pose proof (start_diagonal_range P m nnz HP ltac:(lia) t ltac:(lia)) as Hsr.
  pose proof (end_diagonal_range P m nnz HP ltac:(lia) t ltac:(lia)) as Her.
  destruct (MergePathSearch_on_path m nnz row_offsets Hwf _ Hsr) as (c & Hc & ? & ? & _).
  destruct (MergePathSearch_on_path m nnz row_offsets Hwf (end_diagonal_Z P m nnz t)
              ltac:(lia)) as (c' & Hc' & ? & ? & _).
  rewrite Hc in Hs. rewrite Hc' in He.
  injection Hs as <-. injection He as <-. done.
Qed.
End PartitionSpec.

(** ** [int] arithmetic within its range *)

Lemma max_int_eq : max_int = 2147483647.
Proof. reflexivity. Qed.

Lemma min_int_eq : min_int = -2147483648.
Proof. reflexivity. Qed.

Ltac int_lia := pose proof max_int_eq; pose proof min_int_eq; lia.

Lemma int_of_Ok v : min_int <= v <= max_int -> int_of v = Ok v.
Proof.
  intros [Hlo Hhi]. unfold int_of.
  by rewrite (proj2 (Z.leb_le _ _) Hlo), (proj2 (Z.leb_le _ _) Hhi).
Qed.

Lemma int_of_overflow v : ~ (min_int <= v <= max_int) -> int_of v = IntOverflow v.
Proof.
  intros Hn. unfold int_of.
  destruct (min_int <=? v) eqn:Hlo; [|done].
  destruct (v <=? max_int) eqn:Hhi; [|done].
  apply Z.leb_le in Hlo, Hhi. lia.
Qed.

(** A run that ends normally is the run of the two's complement machine:
    where the checked operation gives a value, wrapping gives the same. *)
Lemma int_of_wrap32 v r : int_of v = Ok r -> wrap32 v = r.
Proof.
  unfold int_of. destruct (min_int <=? v) eqn:Hlo; [|done].
  destruct (v <=? max_int) eqn:Hhi; [|done]. intros [= <-].
  apply Z.leb_le in Hlo, Hhi. rewrite min_int_eq in Hlo. rewrite max_int_eq in Hhi.
  unfold wrap32. rewrite Z.mod_small by lia. lia.
Qed.

(** ** The search on [int] *)

Lemma search_loop_pivot_step a b diagonal x_min x_max x_pivot
    (r : {c : result Z | add_int x_pivot 1 = c})
    (Hpivot : pivot_of x_min x_max = Ok x_pivot) (l : x_min < x_max) :
  search_loop_unfold_clause_1_clause_2_clause_4_clause_5 a b diagonal x_min x_max
    x_pivot r Hpivot l
  = let* x_min' := proj1_sig r in search_loop a b diagonal x_min' x_max.
Proof. destruct r as [[x_min'| | |] e]; done. Qed.

Lemma search_loop_pivot a b diagonal x_min x_max
    (r : {c : result Z | pivot_of x_min x_max = c}) (l : x_min < x_max) :
  search_loop_unfold_clause_1_clause_2 a b diagonal x_min x_max r l
  = let* x_pivot := proj1_sig r in
    let* le := pivot_test a b diagonal x_pivot in
    if (le : bool) then
      let* x_min' := add_int x_pivot 1 in
      search_loop a b diagonal x_min' x_max
    else search_loop a b diagonal x_min x_pivot.
Proof.
  destruct r as [[x_pivot| | |] e]; [|done|done|done].
  cbn [proj1_sig bind]. unfold search_loop_unfold_clause_1_clause_2.
  unfold search_loop_unfold_clause_1_clause_2_clause_4.
  destruct (pivot_test a b diagonal x_pivot) as [[|]| | |]; [|done|done|done|done].
  cbn [bind]. by rewrite search_loop_pivot_step.
Qed.

Lemma search_loop_eq a b diagonal x_min x_max :
  search_loop a b diagonal x_min x_max =
  if decide (x_min < x_max) then
    let* x_pivot := pivot_of x_min x_max in
    let* le := pivot_test a b diagonal x_pivot in
    if (le : bool) then
      let* x_min' := add_int x_pivot 1 in
      search_loop a b diagonal x_min' x_max
    else search_loop a b diagonal x_min x_pivot
  else Ok x_min.
Proof.
  rewrite search_loop_equation_1. unfold search_loop_unfold_clause_1.
  destruct (Z_lt_dec x_min x_max) as [l|]; destruct (decide (x_min < x_max));
    try lia; [|done].
  by rewrite search_loop_pivot.
Qed.

Lemma search_loop_Z_range a b diagonal x_min x_max r :
  search_loop_Z a b diagonal x_min x_max = Ok r -> x_min <= r <= Z.max x_min x_max.
Proof.
  remember (Z.to_nat (x_max - x_min)) as n eqn:Hn.
  revert x_min x_max Hn. induction n as [n IH] using lt_wf_ind.
  intros x_min x_max Hn. rewrite search_loop_Z_eq.
  destruct (decide (x_min < x_max)) as [Hlt|]; [|intros [= <-]; lia].
  pose proof (pivot_of_bounds _ _ Hlt) as Hp.
  destruct (a (pivot_of_Z x_min x_max)) as [ap| | |]; [|done|done|done]. simpl.
  destruct (b (diagonal - pivot_of_Z x_min x_max - 1)) as [bi| | |]; [|done|done|done].
  simpl. destruct (decide (ap <= bi)); intros Hr.
  - apply (IH (Z.to_nat (x_max - (pivot_of_Z x_min x_max + 1)))) in Hr; lia.
  - apply (IH (Z.to_nat (pivot_of_Z x_min x_max - x_min))) in Hr; lia.
Qed.

(** While twice the bounds of the range and the indices into [b] are
    [int]s, the loop on [int] is the loop on the integers. *)
Lemma search_loop_int a b b' diagonal x_min x_max :
  min_int <= x_min + x_min -> x_max + x_max - 1 <= max_int ->
  min_int <= diagonal - x_max -> diagonal - x_min <= max_int ->
  (forall i, diagonal - x_max <= i < diagonal - x_min -> b i = b' i) ->
  search_loop a b diagonal x_min x_max = search_loop_Z a b' diagonal x_min x_max.
Proof.
  remember (Z.to_nat (x_max - x_min)) as n eqn:Hn.
  revert x_min x_max Hn. induction n as [n IH] using lt_wf_ind.
  intros x_min x_max Hn Hlo Hhi Hdlo Hdhi Hb.
  rewrite search_loop_eq, search_loop_Z_eq.
  destruct (decide (x_min < x_max)) as [Hlt|]; [|done].
  pose proof (pivot_of_bounds _ _ Hlt) as Hp.
  unfold pivot_of, add_int. rewrite int_of_Ok by int_lia.
  simpl. fold (pivot_of_Z x_min x_max). set (p := pivot_of_Z x_min x_max) in *.
  unfold pivot_test. destruct (a p) as [ap| | |]; [|done|done|done]. simpl.
  unfold sub_int. rewrite int_of_Ok by int_lia. simpl.
  rewrite int_of_Ok by int_lia. simpl.
  rewrite Hb by lia.
  destruct (b' (diagonal - p - 1)) as [bi| | |]; [|done|done|done]. simpl.
  destruct (decide (ap <= bi)) as [Hle|Hle].
  - rewrite bool_decide_eq_true_2 by done.
    rewrite int_of_Ok by int_lia. simpl.
    apply (IH (Z.to_nat (x_max - (p + 1)))); try int_lia.
    intros i Hi. apply Hb. lia.
  - rewrite bool_decide_eq_false_2 by done.
    apply (IH (Z.to_nat (p - x_min))); try int_lia.
    intros i Hi. apply Hb. lia.
Qed.

Lemma counting_subscript_int i :
  min_int <= i <= max_int ->
  counting_subscript {| val := 0 |} i = counting_subscript_Z {| val := 0 |} i.
Proof. intros Hi. unfold counting_subscript, counting_subscript_Z, add_int. simpl. by rewrite int_of_Ok. Qed.

(** The search on [int] is the search on the integers when the diagonal
    and [b_len] are [int]s that are not negative, and twice the smaller of
    the diagonal and [a_len] is an [int]. *)
Lemma MergePathSearch_int diagonal a b b' a_len b_len :
  0 <= diagonal <= max_int -> 0 <= b_len <= max_int ->
  2 * Z.min diagonal a_len - 1 <= max_int ->
  (forall i, 0 <= i < diagonal -> b i = b' i) ->
  MergePathSearch diagonal a b a_len b_len = MergePathSearch_Z diagonal a b' a_len b_len.
Proof.
  intros Hd Hb Ha Hbb.
  unfold MergePathSearch, MergePathSearch_Z, sub_int.
  rewrite int_of_Ok by int_lia. simpl.
  rewrite (search_loop_int a b b'); try int_lia; [|intros i Hi; apply Hbb; lia].
  destruct (search_loop_Z a b' diagonal (Z.max (diagonal - b_len) 0) (Z.min diagonal a_len))
    as [r| | |] eqn:Hr; [|done|done|done].
  apply search_loop_Z_range in Hr. simpl.
  by rewrite int_of_Ok by int_lia.
Qed.

(** On the two lists of the partitioner, while [m + nnz] is an [int] and
    [m <= 2 ^ 30]. *)
Lemma path_search_int m nnz row_offsets diagonal :
  0 <= m -> 0 <= nnz -> m + nnz <= max_int -> m <= 2 ^ 30 ->
  0 <= diagonal <= m + nnz ->
  MergePathSearch diagonal (ptr_add A_row_offsets row_offsets 1)
    (counting_subscript {| val := 0 |}) m nnz
  = MergePathSearch_Z diagonal (ptr_add A_row_offsets row_offsets 1)
      (counting_subscript_Z {| val := 0 |}) m nnz.
Proof.
  intros Hm Hnnz Hfit Hrows Hd. assert (2 ^ 30 = 1073741824) as H30 by reflexivity.
  apply MergePathSearch_int; try int_lia.
  intros i Hi. apply counting_subscript_int. int_lia.
Qed.

(** ** The partitioner on [int] *)

Section PartitionInt.
Variables (P m nnz : Z).
Hypotheses (HP : 1 <= P) (Hm : 0 <= m) (Hnnz : 0 <= nnz).

Lemma index_arithmetic_bounded tid :
  0 <= tid < P ->
  0 <= num_merge_items_Z m nnz + P - 1 < num_merge_items_Z m nnz + P /\
  0 <= items_per_thread_Z P m nnz <= m + nnz + P - 1 /\
  0 <= items_per_thread_Z P m nnz * tid <= m + nnz + P - 1 /\
  0 <= start_diagonal_Z P m nnz tid + items_per_thread_Z P m nnz <= m + nnz + P - 1.
Proof.
  intros Ht.
  pose proof (items_per_thread_ceil P m nnz HP ltac:(lia)).
  pose proof (items_per_thread_nonneg P m nnz HP ltac:(lia)).
  pose proof (start_diagonal_range P m nnz HP ltac:(lia) tid ltac:(lia)).
  unfold start_diagonal_Z, num_merge_items_Z in *. nia.
Qed.

Hypothesis Hfit : m + nnz + P <= max_int.

Lemma num_merge_items_int : num_merge_items m nnz = Ok (num_merge_items_Z m nnz).
Proof.
  unfold num_merge_items, num_merge_items_Z, add_int.
  apply int_of_Ok. int_lia.
Qed.

Lemma items_per_thread_int : items_per_thread P m nnz = Ok (items_per_thread_Z P m nnz).
Proof.
  destruct (index_arithmetic_bounded 0 ltac:(lia)) as (H1 & H2 & _).
  unfold items_per_thread. rewrite num_merge_items_int. simpl.
  unfold num_merge_items_Z in *.
  unfold add_int, sub_int, div_int.
  rewrite int_of_Ok by int_lia. simpl.
  rewrite int_of_Ok by int_lia. simpl.
  destruct (P =? 0) eqn:HP0; [lia|].
  change ((m + nnz + P - 1) `quot` P) with (items_per_thread_Z P m nnz).
  apply int_of_Ok. int_lia.
Qed.

Lemma start_diagonal_int tid :
  0 <= tid < P -> start_diagonal P m nnz tid = Ok (start_diagonal_Z P m nnz tid).
Proof.
  intros Ht. destruct (index_arithmetic_bounded tid Ht) as (H1 & H2 & H3 & H4).
  unfold start_diagonal. rewrite num_merge_items_int. simpl.
  rewrite items_per_thread_int. simpl.
  unfold mul_int. by rewrite int_of_Ok by int_lia.
Qed.

Lemma end_diagonal_int tid :
  0 <= tid < P -> end_diagonal P m nnz tid = Ok (end_diagonal_Z P m nnz tid).
Proof.
  intros Ht. destruct (index_arithmetic_bounded tid Ht) as (H1 & H2 & H3 & H4).
  unfold end_diagonal. rewrite num_merge_items_int. simpl.
  rewrite items_per_thread_int. simpl. rewrite (start_diagonal_int tid Ht). simpl.
  unfold add_int. by rewrite int_of_Ok by int_lia.
Qed.

Hypothesis Hrows : m <= 2 ^ 30.

Lemma partition_thread_int row_offsets tid st :
  0 <= tid < P ->
  partition_thread P m nnz row_offsets tid st
  = partition_thread_Z P m nnz row_offsets tid st.
Proof.
  intros Ht. destruct st as [tc tce]. unfold partition_thread, partition_thread_Z.
  rewrite (start_diagonal_int tid Ht), (end_diagonal_int tid Ht). simpl.
  pose proof (start_diagonal_range P m nnz HP ltac:(lia) tid ltac:(lia)).
  pose proof (end_diagonal_range P m nnz HP ltac:(lia) tid ltac:(lia)).
  rewrite !(path_search_int m nnz) by lia. done.
Qed.

Lemma for_loop_ext_range {St} lo hi (body body' : Z -> St -> result St) s :
  (forall i s, lo <= i < hi -> body i s = body' i s) ->
  for_loop lo hi body s = for_loop lo hi body' s.
Proof.
  unfold for_loop. remember (Z.to_nat (hi - lo)) as n eqn:Hn.
  revert lo s Hn. induction n as [|n IH]; intros lo s Hn Hb; [done|].
  simpl. rewrite Hb by lia.
  destruct (body' lo s); [simpl | done | done | done].
  apply IH; [lia|]. intros i s' Hi. apply Hb. lia.
Qed.

Lemma run_in_order_ext {St} (order : list Z) (body body' : Z -> St -> result St) s :
  (forall i s, i ∈ order -> body i s = body' i s) ->
  run_in_order order body s = run_in_order order body' s.
Proof.
  revert s. induction order as [|i order IH]; intros s Hb; [done|].
  simpl. rewrite Hb by (by left).
  destruct (body' i s); [simpl | done | done | done].
  apply IH. intros j s' Hj. apply Hb. by right.
Qed.

(** While [m + nnz + P] is an [int] and [m <= 2 ^ 30], the partitioner on
    [int] is the partitioner on the integers. *)
Lemma OmpMergePartitionMatrix_int row_offsets tc0 tce0 :
  OmpMergePartitionMatrix P m nnz row_offsets tc0 tce0
  = OmpMergePartitionMatrix_Z P m nnz row_offsets tc0 tce0.
Proof.
  unfold OmpMergePartitionMatrix, OmpMergePartitionMatrix_Z.
  apply for_loop_ext_range. intros i s Hi. by apply partition_thread_int.
Qed.

Lemma partition_run_in_order_int row_offsets order st :
  order ≡ₚ seqZ 0 P ->
  run_in_order order (partition_thread P m nnz row_offsets) st
  = run_in_order order (partition_thread_Z P m nnz row_offsets) st.
Proof.
  intros Hperm. apply run_in_order_ext. intros i s Hi.
  apply partition_thread_int. rewrite Hperm in Hi. apply elem_of_seqZ in Hi. lia.
Qed.

End PartitionInt.

Lemma OmpMergePartitionMatrix_partitioned P m nnz row_offsets tc0 tce0 :
  wf_row_offsets m nnz row_offsets -> 1 <= P ->
  m + nnz + P <= max_int -> m <= 2 ^ 30 ->
  Z.of_nat (length tc0) = P -> Z.of_nat (length tce0) = P ->
  exists tc tce,
    OmpMergePartitionMatrix P m nnz row_offsets tc0 tce0 = Ok (tc, tce) /\
    partitioned P m nnz row_offsets tc tce.
Proof.
  intros Hwf HP Hfit Hrows Hl Hl'.
  pose proof (wf_rows _ _ _ Hwf). pose proof (wf_nnz _ _ _ Hwf).
  rewrite OmpMergePartitionMatrix_int by lia.
  by apply OmpMergePartitionMatrix_spec.
Qed.

(** ** The search along one diagonal *)


(** ** The partition *)

Section PartitionFacts.
Variables (P m nnz : Z) (row_offsets : list Z).
Hypotheses (Hwf : wf_row_offsets m nnz row_offsets) (HP : 1 <= P).

Lemma partitioned_first tc tce :
  partitioned P m nnz row_offsets tc tce -> coord_at tc 0 = {| x := 0; y := 0 |}.
Proof.
  intros Hp. pose proof (wf_rows _ _ _ Hwf). pose proof (wf_nnz _ _ _ Hwf).
  destruct (partitioned_on_path P m nnz row_offsets Hwf HP tc tce 0 Hp ltac:(lia))
    as ([Hx Hy _ _] & Hd & _).
  rewrite start_diagonal_0 in Hd by lia.
  destruct (coord_at tc 0) as [cx cy]; simpl in *. f_equal; lia.
Qed.

Lemma partitioned_last tc tce :
  partitioned P m nnz row_offsets tc tce ->
  coord_at tce (P - 1) = {| x := m; y := nnz |}.
Proof.
  intros Hp. pose proof (wf_rows _ _ _ Hwf). pose proof (wf_nnz _ _ _ Hwf).
  destruct (partitioned_on_path P m nnz row_offsets Hwf HP tc tce (P - 1) Hp ltac:(lia))
    as (_ & _ & [Hx Hy _ _] & Hd).
  rewrite end_diagonal_last in Hd by lia.
  destruct (coord_at tce (P - 1)) as [cx cy]; simpl in *. f_equal; lia.
Qed.

Lemma partitioned_chain tc tce t :
  partitioned P m nnz row_offsets tc tce -> 0 <= t < P - 1 ->
  coord_at tce t = coord_at tc (t + 1).
Proof.
  intros (_ & _ & Hp) Ht. pose proof (wf_rows _ _ _ Hwf). pose proof (wf_nnz _ _ _ Hwf).
  destruct (Hp t ltac:(lia)) as [_ He]. destruct (Hp (t + 1) ltac:(lia)) as [Hs _].
  rewrite end_diagonal_next in He by lia. congruence.
Qed.

Lemma partitioned_in_range tc tce :
  partitioned P m nnz row_offsets tc tce -> coords_in_range P m nnz tc tce.
Proof.
  intros Hp. pose proof (wf_rows _ _ _ Hwf). pose proof (wf_nnz _ _ _ Hwf).
  split; [destruct Hp as (-> & _); lia|]. split; [destruct Hp as (_ & -> & _); lia|].
  intros t Ht.
  destruct (partitioned_on_path P m nnz row_offsets Hwf HP tc tce t Hp Ht)
    as (Hs & Hds & He & Hde).
  pose proof (end_diagonal_range P m nnz HP ltac:(lia) t ltac:(lia)).
  destruct (on_path_mono m nnz row_offsets Hwf _ _ Hs He ltac:(lia)).
  destruct Hs, He. lia.
Qed.

(** The partitioner cuts the whole merge path into consecutive pieces. *)
Lemma partitioned_path_partition tc tce :
  partitioned P m nnz row_offsets tc tce -> path_partition P m nnz row_offsets tc tce.
Proof.
  intros Hp. split.
  - by apply partitioned_in_range.
  - intros t Ht. by destruct (partitioned_on_path P m nnz row_offsets Hwf HP tc tce t Hp Ht).
  - intros t Ht.
    by destruct (partitioned_on_path P m nnz row_offsets Hwf HP tc tce t Hp Ht) as (_ & _ & ? & _).
  - by apply (partitioned_first tc tce).
  - by apply (partitioned_last tc tce).
  - intros t Ht. by apply partitioned_chain.
Qed.
End PartitionFacts.



(** ** The partition does not read [row_offsets[0]] *)

Lemma pivot_of_Ok_inv x_min x_max x_pivot :
  pivot_of x_min x_max = Ok x_pivot -> x_pivot = pivot_of_Z x_min x_max.
Proof.
  unfold pivot_of, add_int, int_of, pivot_of_Z.
  destruct (_ && _); simpl; [|done]. by intros [= <-].
Qed.

Lemma search_loop_ext a a' b diagonal x_min x_max :
  (forall n, 0 <= n -> a n = a' n) -> 0 <= x_min ->
  search_loop a b diagonal x_min x_max = search_loop a' b diagonal x_min x_max.
Proof.
  intros Ha. remember (Z.to_nat (x_max - x_min)) as n eqn:Hn.
  revert x_min x_max Hn. induction n as [n IH] using lt_wf_ind.
  intros x_min x_max Hn H0. rewrite !(search_loop_eq _ _ _ x_min x_max).
  destruct (decide (x_min < x_max)) as [Hlt|]; [|done].
  pose proof (pivot_of_bounds _ _ Hlt) as Hp.
  destruct (pivot_of x_min x_max) as [p| | |] eqn:Hpivot; [|done|done|done].
  apply pivot_of_Ok_inv in Hpivot. subst p. simpl.
  unfold pivot_test. rewrite <- (Ha (pivot_of_Z x_min x_max)) by lia.
  destruct (a (pivot_of_Z x_min x_max)) as [ap| | |]; [|done|done|done]. simpl.
  destruct (sub_int diagonal (pivot_of_Z x_min x_max)) as [i| | |]; [|done|done|done].
  simpl. destruct (sub_int i 1) as [i'| | |]; [|done|done|done]. simpl.
  destruct (b i') as [bi| | |]; [|done|done|done]. simpl.
  destruct (bool_decide (ap <= bi)).
  - unfold add_int, int_of. destruct (_ && _); simpl; [|done].
    apply (IH (Z.to_nat (x_max - (pivot_of_Z x_min x_max + 1)))); lia.
  - apply (IH (Z.to_nat (pivot_of_Z x_min x_max - x_min))); lia.
Qed.

Lemma MergePathSearch_ext a a' b diagonal a_len b_len :
  (forall n, 0 <= n -> a n = a' n) ->
  MergePathSearch diagonal a b a_len b_len = MergePathSearch diagonal a' b a_len b_len.
Proof.
  intros Ha. unfold MergePathSearch.
  destruct (sub_int diagonal b_len) as [d| | |]; [|done|done|done]. simpl.
  by rewrite (search_loop_ext a a') by (done || lia).
Qed.

Lemma for_loop_ext {St} lo hi (body body' : Z -> St -> result St) s :
  (forall i s, body i s = body' i s) ->
  for_loop lo hi body s = for_loop lo hi body' s.
Proof.
  intros Hb. unfold for_loop. generalize (Z.to_nat (hi - lo)) as n. intros n.
  revert lo s. induction n as [|n IH]; intros lo s; [done|].
  simpl. rewrite Hb. destruct (body' lo s); [simpl; apply IH | done | done | done].
Qed.

Lemma ptr_add_skips_first r0 r0' rest n :
  0 <= n ->
  ptr_add A_row_offsets (r0 :: rest) 1 n = ptr_add A_row_offsets (r0' :: rest) 1 n.
Proof.
  intros Hn. unfold ptr_add, read.
  replace (Z.to_nat (1 + n)) with (S (Z.to_nat n)) by lia. done.
Qed.

(** C10. The partition never depends on [row_offsets[0]]: two offset
    arrays that differ in their first cell only give the same two
    coordinate arrays (or the same failure), for every thread count. *)
Theorem partition_ignores_first_offset P m nnz r0 r0' rest tc0 tce0 :
  OmpMergePartitionMatrix P m nnz (r0 :: rest) tc0 tce0
  = OmpMergePartitionMatrix P m nnz (r0' :: rest) tc0 tce0.
Proof.
  unfold OmpMergePartitionMatrix. apply for_loop_ext.
  intros tid [tc tce]. unfold partition_thread.
  destruct (start_diagonal P m nnz tid) as [sd| | |]; [|done|done|done]. simpl.
  destruct (end_diagonal P m nnz tid) as [ed| | |]; [|done|done|done]. simpl.
  rewrite !(MergePathSearch_ext _ _ _ _ _ _ (ptr_add_skips_first r0 r0' rest)).
  done.
Qed.

(** ** Any order of the partitioner's threads *)

Section PartitionAnyOrder.
Variables (P m nnz : Z) (row_offsets : list Z).
Hypotheses (Hwf : wf_row_offsets m nnz row_offsets) (HP : 1 <= P).

Lemma partition_thread_ran tc0 tce0 ran t st :
  0 <= t < P -> partition_ran P m nnz row_offsets tc0 tce0 ran st ->
  exists st', partition_thread_Z P m nnz row_offsets t st = Ok st' /\
    partition_ran P m nnz row_offsets tc0 tce0 (t :: ran) st'.
Proof.
  intros Ht (Hl1 & Hl2 & Hcells). destruct st as [tc tce]. simpl in Hl1, Hl2, Hcells.
  pose proof (wf_rows _ _ _ Hwf). pose proof (wf_nnz _ _ _ Hwf).
  pose proof (start_diagonal_range P m nnz HP ltac:(lia) t ltac:(lia)) as Hs.
  pose proof (end_diagonal_range P m nnz HP ltac:(lia) t ltac:(lia)) as He.
  destruct (MergePathSearch_on_path m nnz row_offsets Hwf _ Hs) as (c & Hc & _).
  destruct (MergePathSearch_on_path m nnz row_offsets Hwf (end_diagonal_Z P m nnz t)
              ltac:(lia)) as (c' & Hc' & _).
  pose proof Hc as Hd. pose proof Hc' as Hd'. unfold list_a, list_b in Hd, Hd'.
  unfold partition_thread_Z.
  rewrite Hd. simpl. rewrite write_Ok by lia. simpl.
  rewrite Hd'. simpl. rewrite write_Ok by lia. simpl.
  eexists. split; [done|]. unfold partition_ran. simpl. rewrite !length_insert.
  split; [done|]. split; [done|].
  intros t' Ht'. destruct (Hcells t' Ht') as [Hin Hout]. split.
  - intros Hel. apply elem_of_cons in Hel as [->|Hel].
    + by rewrite !at_insert_eq by lia.
    + destruct (decide (t' = t)) as [->|Hne].
      * by rewrite !at_insert_eq by lia.
      * rewrite !at_insert_ne by lia. by apply Hin.
  - intros Hel. apply not_elem_of_cons in Hel as [Hne Hel].
    rewrite !at_insert_ne by lia. by apply Hout.
Qed.

Lemma run_in_order_partition_ran tc0 tce0 order : forall ran st,
  (forall t, t ∈ order -> 0 <= t < P) ->
  partition_ran P m nnz row_offsets tc0 tce0 ran st ->
  exists st', run_in_order order (partition_thread_Z P m nnz row_offsets) st = Ok st' /\
    partition_ran P m nnz row_offsets tc0 tce0 (reverse order ++ ran) st'.
Proof.
  induction order as [|t order IH]; intros ran st Hin Hst.
  - exists st. done.
  - destruct (partition_thread_ran tc0 tce0 ran t st) as (st1 & Hb & Hst1);
      [apply Hin; left | done |].
    simpl. rewrite Hb. simpl.
    destruct (IH (t :: ran) st1) as (st' & Hrun & Hst'); [|done|].
    + intros t' Ht'. apply Hin. by right.
    + exists st'. split; [done|]. by rewrite reverse_cons, <- app_assoc.
Qed.

(** Every order of the partitioner's threads gives the two arrays the
    ascending order gives. *)
Lemma OmpMergePartitionMatrix_any_order order tc0 tce0 :
  order ≡ₚ seqZ 0 P ->
  Z.of_nat (length tc0) = P -> Z.of_nat (length tce0) = P ->
  run_in_order order (partition_thread_Z P m nnz row_offsets) (tc0, tce0)
  = OmpMergePartitionMatrix_Z P m nnz row_offsets tc0 tce0.
Proof.
  intros Hperm Hl Hl'. unfold OmpMergePartitionMatrix_Z. rewrite for_loop_run_in_order.
  assert (partition_ran P m nnz row_offsets tc0 tce0 [] (tc0, tce0)) as H0.
  { split; [done|]. split; [done|]. intros t Ht.
    split; [intros Hel; by apply elem_of_nil in Hel | done]. }
  assert (forall l, l ≡ₚ seqZ 0 P -> forall t, t ∈ l <-> 0 <= t < P) as Hmem.
  { intros l Hl'' t. rewrite Hl'', elem_of_seqZ. lia. }
  assert (forall l, l ≡ₚ seqZ 0 P ->
            exists st, run_in_order l (partition_thread_Z P m nnz row_offsets) (tc0, tce0)
                       = Ok st /\
                       forall t, 0 <= t < P ->
                         MergePathSearch_Z (start_diagonal_Z P m nnz t) (list_a row_offsets)
                           list_b m nnz = Ok (coord_at st.1 t) /\
                         MergePathSearch_Z (end_diagonal_Z P m nnz t) (list_a row_offsets)
                           list_b m nnz = Ok (coord_at st.2 t) /\
                         Z.of_nat (length st.1) = P /\ Z.of_nat (length st.2) = P) as Hrun.
  { intros l Hl''.
    destruct (run_in_order_partition_ran tc0 tce0 l [] (tc0, tce0)) as (st & Hr & Hst);
      [intros t; apply Hmem; done | done |].
    exists st. split; [done|]. intros t Ht. destruct Hst as (? & ? & Hcells).
    destruct (Hcells t Ht) as [[? ?] _]; [|done].
    rewrite app_nil_r, elem_of_reverse. by apply Hmem. }
  destruct (Hrun order Hperm) as ([tc tce] & -> & Hst).
  destruct (Hrun (seqZ 0 (P - 0)) ltac:(by rewrite Z.sub_0_r)) as ([tc' tce'] & -> & Hst').
  simpl in Hst, Hst'.
  destruct (Hst 0 ltac:(lia)) as (_ & _ & Hl1 & Hl2).
  destruct (Hst' 0 ltac:(lia)) as (_ & _ & Hl1' & Hl2').
  f_equal. f_equal.
  - apply (at_ext {| x := 0; y := 0 |}); [lia|]. intros t Ht.
    destruct (Hst t ltac:(lia)) as (H1 & _). destruct (Hst' t ltac:(lia)) as (H1' & _).
    congruence.
  - apply (at_ext {| x := 0; y := 0 |}); [lia|]. intros t Ht.
    destruct (Hst t ltac:(lia)) as (_ & H2 & _). destruct (Hst' t ltac:(lia)) as (_ & H2' & _).
    congruence.
Qed.
End PartitionAnyOrder.

(** ** Running totals *)

Section Totals.
Context {ValueT : Type}.
Variables (zero : ValueT) (add mul : ValueT -> ValueT -> ValueT).
Variables (m n nnz : Z).
Variables (row_offsets column_indices : list Z) (values vector_x : list ValueT).
Hypothesis Hcsr : wf_csr m n nnz row_offsets column_indices values vector_x.

Let Hwf : wf_row_offsets m nnz row_offsets := wf_offsets _ _ _ _ _ _ _ Hcsr.

Abbreviation term' := (term zero mul column_indices values vector_x).
Abbreviation sum_from' := (sum_from zero add mul column_indices values vector_x).
Abbreviation segment' := (segment zero add mul column_indices values vector_x).
Abbreviation row_sum' := (row_sum zero add mul row_offsets column_indices values vector_x).
Abbreviation accumulate' := (accumulate add mul column_indices values vector_x).

Lemma sum_from_empty acc lo hi : hi <= lo -> sum_from' acc lo hi = acc.
Proof. intros H. unfold sum_from. by rewrite seqZ_nil by lia. Qed.

Lemma sum_from_snoc acc lo hi :
  lo <= hi -> sum_from' acc lo (hi + 1) = add (sum_from' acc lo hi) (term' hi).
Proof.
  intros H. unfold sum_from.
  replace (hi + 1 - lo) with ((hi - lo) + 1) by lia.
  rewrite seqZ_app by lia. rewrite fold_left_app.
  replace (lo + (hi - lo)) with hi by lia. done.
Qed.

Lemma sum_from_split acc lo mid hi :
  lo <= mid <= hi -> sum_from' acc lo hi = sum_from' (sum_from' acc lo mid) mid hi.
Proof.
  intros H. unfold sum_from.
  replace (hi - lo) with ((mid - lo) + (hi - mid)) by lia.
  rewrite seqZ_app by lia. rewrite fold_left_app.
  replace (lo + (mid - lo)) with mid by lia. done.
Qed.

Lemma accumulate_Ok j acc :
  0 <= j < nnz -> accumulate' j acc = Ok (add acc (term' j)).
Proof.
  intros Hj. unfold accumulate, term.
  rewrite (read_Ok zero) by (rewrite (wf_values_length _ _ _ _ _ _ _ Hcsr); lia). simpl.
  rewrite (read_Ok 0) by (rewrite (wf_columns_length _ _ _ _ _ _ _ Hcsr); lia). simpl.
  pose proof (wf_columns _ _ _ _ _ _ _ Hcsr j Hj).
  rewrite (read_Ok zero) by (rewrite (wf_x_length _ _ _ _ _ _ _ Hcsr); lia). done.
Qed.

(** The accumulation loops of both kernels. *)
Lemma accumulate_loop acc lo hi :
  0 <= lo -> hi <= nnz ->
  for_loop lo hi accumulate' acc = Ok (sum_from' acc lo hi).
Proof.
  intros Hlo Hhi. destruct (Z_le_gt_dec hi lo) as [Hle|Hgt].
  - by rewrite for_loop_done, sum_from_empty.
  - destruct (for_loop_inv (fun k s => lo <= k /\ s = sum_from' acc lo k)
                lo hi accumulate' acc) as (s & Hrun & _ & ->); [lia | | | done].
    + split; [lia|]. by rewrite sum_from_empty.
    + intros k s Hk [_ ->]. rewrite accumulate_Ok by lia.
      eexists. split; [done|]. split; [lia|]. by rewrite sum_from_snoc by lia.
Qed.

(** ** The serial reference *)

Lemma SpmvGold_row_Ok row yv :
  0 <= row < m -> Z.of_nat (length yv) = m ->
  SpmvGold_row zero add mul row_offsets column_indices values vector_x row yv
  = Ok (<[Z.to_nat row := row_sum' row]> yv).
Proof.
  intros Hrow Hlen. unfold SpmvGold_row.
  rewrite !(read_row_offsets m nnz row_offsets Hwf) by lia. simpl.
  pose proof (ro_range m nnz row_offsets Hwf row ltac:(lia)).
  pose proof (ro_range m nnz row_offsets Hwf (row + 1) ltac:(lia)).
  rewrite accumulate_loop by lia. simpl.
  by rewrite write_Ok by lia.
Qed.

Lemma SpmvGold_spec y0 :
  Z.of_nat (length y0) = m ->
  exists y', SpmvGold zero add mul m row_offsets column_indices values vector_x y0 = Ok y' /\
    Z.of_nat (length y') = m /\
    forall i, 0 <= i < m -> at_ zero y' i = row_sum' i.
Proof.
  intros Hlen. pose proof (wf_rows _ _ _ Hwf). unfold SpmvGold.
  destruct (for_loop_inv
    (fun k yv => Z.of_nat (length yv) = m /\
                 forall i, 0 <= i < k -> at_ zero yv i = row_sum' i)
    0 m (SpmvGold_row zero add mul row_offsets column_indices values vector_x) y0)
    as (y' & Hrun & Hl & Hy); [lia | | | by exists y'].
  - split; [done|]. intros i Hi. lia.
  - intros k yv Hk [Hl Hy]. rewrite SpmvGold_row_Ok by done.
    eexists. split; [done|]. rewrite length_insert. split; [done|].
    intros i Hi. destruct (decide (i = k)) as [->|Hne].
    + by rewrite at_insert_eq by lia.
    + rewrite at_insert_ne by lia. apply Hy. lia.
Qed.
End Totals.

(** ** The kernel, thread by thread *)

Section KernelFacts.
Context {ValueT : Type}.
Variables (zero : ValueT) (add mul : ValueT -> ValueT -> ValueT).
Variables (m n nnz : Z).
Variables (row_offsets column_indices : list Z) (values vector_x : list ValueT).
Variables (thread_coords thread_coord_ends : list int2) (P : Z).
Hypothesis Hcsr : wf_csr m n nnz row_offsets column_indices values vector_x.
Hypothesis Hrange : coords_in_range P m nnz thread_coords thread_coord_ends.

Let Hwf : wf_row_offsets m nnz row_offsets := wf_offsets _ _ _ _ _ _ _ Hcsr.

Abbreviation segment' := (segment zero add mul column_indices values vector_x).
Abbreviation pos' := (pos row_offsets thread_coords).
Abbreviation writes' := (writes thread_coords thread_coord_ends).
Abbreviation row_value' :=
  (row_value zero add mul row_offsets column_indices values vector_x thread_coords).
Abbreviation carry_value' :=
  (carry_value zero add mul row_offsets column_indices values vector_x
     thread_coords thread_coord_ends).
Abbreviation carry_row' := (carry_row thread_coord_ends).
Abbreviation written' :=
  (written zero add mul row_offsets column_indices values vector_x
     thread_coords thread_coord_ends).
Abbreviation consume_row' :=
  (consume_row zero add mul row_offsets column_indices values vector_x).
Abbreviation thread_body' :=
  (thread_body zero add mul row_offsets column_indices values vector_x
     thread_coords thread_coord_ends).

Lemma consume_row_Ok row j yv :
  0 <= row < m -> 0 <= j <= nnz -> Z.of_nat (length yv) = m ->
  consume_row' row (j, yv)
  = Ok (Z.max j (ro_at row_offsets (row + 1)),
        <[Z.to_nat row := segment' j (ro_at row_offsets (row + 1))]> yv).
Proof.
  intros Hrow Hj Hlen. unfold consume_row.
  rewrite (read_row_offsets m nnz row_offsets Hwf) by lia. simpl.
  pose proof (ro_range m nnz row_offsets Hwf (row + 1) ltac:(lia)).
  rewrite (accumulate_loop zero add mul m n nnz row_offsets column_indices values
             vector_x Hcsr) by lia. simpl.
  by rewrite write_Ok by lia.
Qed.

Lemma pos_range t k :
  0 <= t < P -> 0 <= k <= m -> 0 <= pos' t k <= nnz.
Proof.
  intros Ht Hk. destruct Hrange as (_ & _ & Hr). specialize (Hr t Ht).
  pose proof (ro_range m nnz row_offsets Hwf k Hk).
  unfold pos. destruct (decide _); lia.
Qed.

Lemma pos_next t k :
  0 <= t < P -> x (coord_at thread_coords t) <= k < m ->
  Z.max (pos' t k) (ro_at row_offsets (k + 1)) = pos' t (k + 1).
Proof.
  intros Ht Hk. destruct Hrange as (_ & _ & Hr). specialize (Hr t Ht).
  pose proof (wf_step _ _ _ Hwf k ltac:(lia)).
  unfold pos. repeat destruct (decide _); lia.
Qed.

(** "Consume whole rows" of thread [t]. *)
Lemma consume_rows_spec t yv :
  0 <= t < P -> Z.of_nat (length yv) = m ->
  exists yv',
    for_loop (x (coord_at thread_coords t)) (x (coord_at thread_coord_ends t))
      consume_row' (y (coord_at thread_coords t), yv)
    = Ok (pos' t (x (coord_at thread_coord_ends t)), yv') /\
    Z.of_nat (length yv') = m /\
    forall k, at_ zero yv' k = if decide (writes' t k) then row_value' t k else at_ zero yv k.
Proof.
  intros Ht Hlen. pose proof Hrange as (_ & _ & Hr). specialize (Hr t Ht).
  set (i0 := x (coord_at thread_coords t)) in *.
  set (i1 := x (coord_at thread_coord_ends t)) in *.
  destruct (for_loop_inv
    (fun k (st : Z * list ValueT) =>
       i0 <= k /\ st.1 = pos' t k /\ Z.of_nat (length st.2) = m /\
       forall r, at_ zero st.2 r
                 = if decide (i0 <= r < k) then row_value' t r else at_ zero yv r)
    i0 i1 consume_row' (y (coord_at thread_coords t), yv))
    as ([j yv'] & Hrun & _ & Hj & Hl & Hy); [lia | | | ].
  - split; [lia|]. split; [|split; [done|]].
    + simpl. unfold pos. fold i0. by destruct (decide (i0 = i0)).
    + intros r. simpl. destruct (decide (i0 <= r < i0)); [lia | done].
  - intros k [j yv'] Hk (_ & Hj & Hl & Hy). simpl in Hj, Hl, Hy. subst j.
    pose proof (pos_range t k Ht ltac:(lia)).
    rewrite consume_row_Ok by (done || lia).
    eexists. split; [done|]. simpl. rewrite length_insert.
    split; [lia|]. split; [apply pos_next; [done|fold i0; lia]|]. split; [done|].
    intros r. destruct (decide (r = k)) as [->|Hne].
    + rewrite at_insert_eq by lia. destruct (decide (i0 <= k < k + 1)); [done | lia].
    + rewrite at_insert_ne by lia. rewrite Hy.
      destruct (decide (i0 <= r < k)), (decide (i0 <= r < k + 1)); (done || lia).
  - simpl in Hj, Hl, Hy. subst j. exists yv'. split; [done|]. split; [done|].
    intros k. rewrite Hy. unfold writes. fold i0 i1.
    destruct (decide (i0 <= k < i1)); done.
Qed.

(** One thread of the parallel loop: it stores its rows, then its
    carry-out in the two carry arrays. *)
Lemma thread_body_spec t yv rc vc :
  0 <= t < P -> Z.of_nat (length yv) = m ->
  exists yv',
    Z.of_nat (length yv') = m /\
    (forall k, at_ zero yv' k
               = if decide (writes' t k) then row_value' t k else at_ zero yv k) /\
    thread_body' t (yv, rc, vc)
    = (let* rc' := write A_row_carry_out rc t (carry_row' t) in
       let* vc' := write A_value_carry_out vc t (carry_value' t) in
       Ok (yv', rc', vc')).
Proof.
  intros Ht Hlen. pose proof Hrange as (Hl1 & Hl2 & Hr). specialize (Hr t Ht).
  destruct (consume_rows_spec t yv Ht Hlen) as (yv' & Hrun & Hl & Hy).
  exists yv'. split; [done|]. split; [done|].
  unfold thread_body.
  rewrite (read_Ok {| x := 0; y := 0 |}) by lia. simpl.
  rewrite (read_Ok {| x := 0; y := 0 |}) by lia. simpl.
  rewrite Hrun. simpl.
  pose proof (pos_range t (x (coord_at thread_coord_ends t)) Ht ltac:(lia)).
  rewrite (accumulate_loop zero add mul m n nnz row_offsets column_indices values
             vector_x Hcsr) by lia. simpl.
  done.
Qed.
End KernelFacts.

(** ** The carry-out fix-up *)

Section Fixup.
Context {ValueT : Type}.
Variables (d : ValueT) (add : ValueT -> ValueT -> ValueT).
Variables (m P : Z) (row_carry_out : list Z) (value_carry_out : list ValueT).
Hypothesis Hrows : P - 1 <= Z.of_nat (length row_carry_out).
Hypothesis Hvalues : P - 1 <= Z.of_nat (length value_carry_out).
Hypothesis Hcarry : forall t, 0 <= t < P - 1 -> 0 <= at_ 0 row_carry_out t <= m.

Lemma fixup_step_spec t yv :
  0 <= t < P - 1 -> Z.of_nat (length yv) = m ->
  exists yv',
    fixup_step add m row_carry_out value_carry_out t yv = Ok yv' /\
    Z.of_nat (length yv') = m /\
    forall k, 0 <= k < m ->
      at_ d yv' k = if decide (at_ 0 row_carry_out t = k)
                    then add (at_ d yv k) (at_ d value_carry_out t)
                    else at_ d yv k.
Proof.
  intros Ht Hlen. pose proof (Hcarry t Ht) as Hr. unfold fixup_step.
  rewrite (read_Ok 0) by lia. simpl.
  destruct (at_ 0 row_carry_out t <? m) eqn:Hlt.
  - apply Z.ltb_lt in Hlt.
    rewrite (read_Ok d) by lia. simpl. rewrite (read_Ok d) by lia. simpl.
    rewrite write_Ok by lia. eexists. split; [done|].
    rewrite length_insert. split; [done|]. intros k Hk.
    destruct (decide (at_ 0 row_carry_out t = k)) as [<-|Hne].
    + by rewrite at_insert_eq by lia.
    + by rewrite at_insert_ne by lia.
  - apply Z.ltb_ge in Hlt. exists yv. split; [done|]. split; [done|].
    intros k Hk. destruct (decide _); [lia | done].
Qed.

Lemma carry_out_fixup_spec y1 :
  Z.of_nat (length y1) = m ->
  exists y2,
    carry_out_fixup add m P row_carry_out value_carry_out y1 = Ok y2 /\
    Z.of_nat (length y2) = m /\
    forall k, 0 <= k < m ->
      at_ d y2 k = fixed add (at_ 0 row_carry_out) (at_ d value_carry_out)
                     (Z.to_nat (P - 1)) k (at_ d y1 k).
Proof.
  intros Hlen. unfold carry_out_fixup.
  destruct (Z_le_gt_dec (P - 1) 0) as [Hle|Hgt].
  - rewrite for_loop_done by lia. exists y1. split; [done|]. split; [done|].
    intros k Hk. by replace (Z.to_nat (P - 1)) with O by lia.
  - destruct (for_loop_inv
      (fun i yv => 0 <= i /\ Z.of_nat (length yv) = m /\
         forall k, 0 <= k < m ->
           at_ d yv k = fixed add (at_ 0 row_carry_out) (at_ d value_carry_out)
                          (Z.to_nat i) k (at_ d y1 k))
      0 (P - 1) (fixup_step add m row_carry_out value_carry_out) y1)
      as (y2 & Hrun & _ & Hl & Hy); [lia | | | by exists y2].
    + split; [lia|]. split; [done|]. intros k Hk. done.
    + intros i yv Hi (_ & Hl & Hy).
      destruct (fixup_step_spec i yv ltac:(lia) Hl) as (yv' & -> & Hl' & Hy').
      exists yv'. split; [done|]. split; [lia|]. split; [done|].
      intros k Hk. rewrite (Hy' k Hk), (Hy k Hk).
      replace (Z.to_nat (i + 1)) with (S (Z.to_nat i)) by lia. simpl.
      by rewrite Z2Nat.id by lia.
Qed.
End Fixup.

Lemma fixed_ext {ValueT} (add : ValueT -> ValueT -> ValueT) crow crow' cval cval' n k v :
  (forall t, 0 <= t < Z.of_nat n -> crow t = crow' t /\ cval t = cval' t) ->
  fixed add crow cval n k v = fixed add crow' cval' n k v.
Proof.
  induction n as [|n IH]; intros H; [done|]. simpl.
  destruct (H (Z.of_nat n) ltac:(lia)) as [-> ->].
  rewrite IH; [done|]. intros t Ht. apply H. lia.
Qed.

(** ** The kernel as a whole *)

Section KernelRun.
Context {ValueT : Type}.
Variables (zero : ValueT) (add mul : ValueT -> ValueT -> ValueT).
Variables (m n nnz : Z).
Variables (row_offsets column_indices : list Z) (values vector_x : list ValueT).
Variables (thread_coords thread_coord_ends : list int2) (P : Z).
Hypothesis Hcsr : wf_csr m n nnz row_offsets column_indices values vector_x.
Hypothesis Hrange : coords_in_range P m nnz thread_coords thread_coord_ends.

Abbreviation carry_value' :=
  (carry_value zero add mul row_offsets column_indices values vector_x
     thread_coords thread_coord_ends).
Abbreviation carry_row' := (carry_row thread_coord_ends).
Abbreviation written' :=
  (written zero add mul row_offsets column_indices values vector_x
     thread_coords thread_coord_ends).
Abbreviation thread_body' :=
  (thread_body zero add mul row_offsets column_indices values vector_x
     thread_coords thread_coord_ends).

Abbreviation threads_done' :=
  (threads_done zero add mul row_offsets column_indices values vector_x
     thread_coords thread_coord_ends m).

Lemma thread_body_done y0 k st :
  0 <= k < P -> k < 256 -> threads_done' y0 k st ->
  exists st', thread_body' k st = Ok st' /\ threads_done' y0 (k + 1) st'.
Proof.
  intros Hk H256 (_ & Hl & Hlr & Hlv & Hy & Hc). destruct st as [[yv rc] vc].
  simpl in Hl, Hlr, Hlv, Hy, Hc.
  destruct (thread_body_spec zero add mul m n nnz row_offsets column_indices values
              vector_x thread_coords thread_coord_ends P Hcsr Hrange k yv rc vc Hk Hl)
    as (yv' & Hl' & Hy' & ->).
  rewrite !write_Ok by lia. simpl. eexists. split; [done|].
  split; [lia|]. simpl. rewrite !length_insert. split; [done|]. split; [done|].
  split; [done|]. split.
  - intros r. rewrite Hy', Hy.
    replace (Z.to_nat (k + 1)) with (S (Z.to_nat k)) by lia. simpl.
    by rewrite Z2Nat.id by lia.
  - intros t Ht. destruct (decide (t = k)) as [->|Hne].
    + by rewrite !at_insert_eq by lia.
    + rewrite !at_insert_ne by lia. apply Hc. lia.
Qed.

Lemma parallel_phase_spec rc0 vc0 y0 :
  0 <= P <= 256 ->
  Z.of_nat (length y0) = m ->
  Z.of_nat (length rc0) = 256 -> Z.of_nat (length vc0) = 256 ->
  exists st,
    parallel_phase zero add mul row_offsets column_indices values vector_x
      thread_coords thread_coord_ends P rc0 vc0 y0 = Ok st /\
    threads_done' y0 P st.
Proof.
  intros HP Hl Hlr Hlv. unfold parallel_phase.
  apply (for_loop_inv (threads_done' y0) 0 P thread_body'); [lia | |].
  - split; [lia|]. simpl. split; [done|]. split; [done|]. split; [done|].
    split; [done|]. intros t Ht. lia.
  - intros k st Hk. apply thread_body_done; lia.
Qed.

(** Beyond 256 threads the parallel loop runs into the end of
    [row_carry_out]. *)
Lemma parallel_phase_overflow rc0 vc0 y0 :
  256 < P ->
  Z.of_nat (length y0) = m ->
  Z.of_nat (length rc0) = 256 -> Z.of_nat (length vc0) = 256 ->
  parallel_phase zero add mul row_offsets column_indices values vector_x
    thread_coords thread_coord_ends P rc0 vc0 y0 = OutOfBounds A_row_carry_out 256.
Proof.
  intros HP Hl Hlr Hlv. unfold parallel_phase.
  apply (for_loop_fail (threads_done' y0) 0 P 256 thread_body'); [lia | | |].
  - split; [lia|]. simpl. split; [done|]. split; [done|]. split; [done|].
    split; [done|]. intros t Ht. lia.
  - intros k st Hk. apply thread_body_done; lia.
  - intros [[yv rc] vc] (_ & Hl' & Hlr' & Hlv' & _). simpl in Hl', Hlr', Hlv'.
    destruct (thread_body_spec zero add mul m n nnz row_offsets column_indices values
                vector_x thread_coords thread_coord_ends P Hcsr Hrange 256 yv rc vc
                ltac:(lia) Hl') as (yv' & _ & _ & ->).
    by rewrite write_oob by lia.
Qed.

Lemma carry_row_range t : 0 <= t < P -> 0 <= carry_row' t <= m.
Proof.
  intros Ht. destruct Hrange as (_ & _ & Hr). specialize (Hr t Ht).
  unfold carry_row. lia.
Qed.

(** The kernel ends normally, and every cell of its output is what the
    owning thread stored plus the carry-outs of the threads before the
    last, in thread order. *)
Lemma OmpMergeCsrmv_spec junk_row junk_value y0 :
  1 <= P <= 256 ->
  Z.of_nat (length y0) = m ->
  exists y2,
    OmpMergeCsrmv zero add mul m row_offsets column_indices values vector_x
      thread_coords thread_coord_ends P junk_row junk_value y0 = Ok y2 /\
    Z.of_nat (length y2) = m /\
    forall k, 0 <= k < m ->
      at_ zero y2 k = fixed add carry_row' carry_value' (Z.to_nat (P - 1)) k
                        (written' (Z.to_nat P) k (at_ zero y0 k)).
Proof.
  intros HP Hl. unfold OmpMergeCsrmv.
  destruct (parallel_phase_spec (junk_row <$> seqZ 0 256) (junk_value <$> seqZ 0 256) y0)
    as ([[y1 rc] vc] & -> & _ & Hl1 & Hlr & Hlv & Hy & Hc);
    [lia | done | by rewrite length_fmap, length_seqZ
     | by rewrite length_fmap, length_seqZ |].
  simpl in Hl1, Hlr, Hlv, Hy, Hc. simpl.
  destruct (carry_out_fixup_spec zero add m P rc vc ltac:(lia) ltac:(lia)) with (y1 := y1)
    as (y2 & -> & Hl2 & Hy2); [| done |].
  - intros t Ht. destruct (Hc t ltac:(lia)) as [-> _]. apply carry_row_range. lia.
  - exists y2. split; [done|]. split; [done|]. intros k Hk.
    rewrite (Hy2 k Hk), Hy. apply fixed_ext.
    intros t Ht. apply Hc. lia.
Qed.
End KernelRun.

(** ** Stitching the rows along a partition of the path *)

Section Stitch.
Context {ValueT : Type}.
Variables (zero : ValueT) (add mul : ValueT -> ValueT -> ValueT).
Variables (m n nnz : Z).
Variables (row_offsets column_indices : list Z) (values vector_x : list ValueT).
Variables (thread_coords thread_coord_ends : list int2) (P : Z).
Hypothesis Hcsr : wf_csr m n nnz row_offsets column_indices values vector_x.
Hypothesis HP : 1 <= P.
Hypothesis Hpp : path_partition P m nnz row_offsets thread_coords thread_coord_ends.

Let Hwf : wf_row_offsets m nnz row_offsets := wf_offsets _ _ _ _ _ _ _ Hcsr.

Abbreviation segment' := (segment zero add mul column_indices values vector_x).
Abbreviation sum_from' := (sum_from zero add mul column_indices values vector_x).
Abbreviation row_sum' := (row_sum zero add mul row_offsets column_indices values vector_x).
Abbreviation pos' := (pos row_offsets thread_coords).
Abbreviation writes' := (writes thread_coords thread_coord_ends).
Abbreviation row_value' :=
  (row_value zero add mul row_offsets column_indices values vector_x thread_coords).
Abbreviation carry_value' :=
  (carry_value zero add mul row_offsets column_indices values vector_x
     thread_coords thread_coord_ends).
Abbreviation carry_row' := (carry_row thread_coord_ends).
Abbreviation written' :=
  (written zero add mul row_offsets column_indices values vector_x
     thread_coords thread_coord_ends).
Abbreviation fixed' := (fixed add carry_row' carry_value').
Abbreviation reach' := (reach thread_coord_ends).
Abbreviation carried' :=
  (carried zero add mul row_offsets column_indices values vector_x thread_coord_ends).

Lemma reach_start t : 0 <= t < P -> reach' t = coord_at thread_coords t.
Proof.
  intros Ht. unfold reach. destruct (decide (t = 0)) as [->|Hne].
  - symmetry. apply (pp_first _ _ _ _ _ _ Hpp).
  - rewrite (pp_chain _ _ _ _ _ _ Hpp (t - 1)) by lia. f_equal. lia.
Qed.

Lemma reach_next t : 0 <= t -> reach' (t + 1) = coord_at thread_coord_ends t.
Proof.
  intros Ht. unfold reach. destruct (decide (t + 1 = 0)); [lia|]. f_equal. lia.
Qed.

Lemma reach_last : reach' P = {| x := m; y := nnz |}.
Proof.
  replace P with (P - 1 + 1) at 1 by lia. rewrite reach_next by lia.
  apply (pp_last _ _ _ _ _ _ Hpp).
Qed.

(** What is known of thread [t]: it runs forward from one path point to
    another. *)
Lemma thread_piece t :
  0 <= t < P ->
  on_path m nnz row_offsets (reach' t) /\
  on_path m nnz row_offsets (reach' (t + 1)) /\
  x (reach' t) <= x (reach' (t + 1)) /\ y (reach' t) <= y (reach' (t + 1)).
Proof.
  intros Ht. rewrite reach_start, reach_next by lia.
  destruct (pp_range _ _ _ _ _ _ Hpp) as (_ & _ & Hr). specialize (Hr t Ht).
  split; [by apply (pp_start _ _ _ _ _ _ Hpp)|].
  split; [by apply (pp_end _ _ _ _ _ _ Hpp)|]. lia.
Qed.

Lemma pos_at_start t k :
  0 <= t < P -> x (reach' t) = k -> pos' t k = y (reach' t).
Proof.
  intros Ht Hk. rewrite reach_start in * by done. unfold pos.
  destruct (decide _); [done | lia].
Qed.

Lemma pos_past_start t k :
  0 <= t < P -> x (reach' t) < k <= m -> pos' t k = ro_at row_offsets k.
Proof.
  intros Ht Hk. destruct (thread_piece t Ht) as ([Hx _ _ Hhi] & _).
  rewrite reach_start in * by done. unfold pos.
  destruct (decide _); [lia|].
  pose proof (ro_mono m nnz row_offsets Hwf (x (coord_at thread_coords t) + 1) k
                ltac:(lia) ltac:(lia)). lia.
Qed.

(** Every row has a thread that stores it. *)
Lemma owner_exists (k : Z) (i : nat) :
  Z.of_nat i <= P -> 0 <= k < x (reach' (Z.of_nat i)) ->
  exists t, 0 <= t < Z.of_nat i /\ writes' t k.
Proof.
  induction i as [|i IH]; intros Hi Hk.
  - simpl in Hk. unfold reach in Hk. simpl in Hk. lia.
  - rewrite Nat2Z.inj_succ, <- Z.add_1_r in Hk.
    destruct (Z_lt_le_dec k (x (reach' (Z.of_nat i)))) as [Hlt|Hge].
    + destruct (IH ltac:(lia) ltac:(lia)) as (t & Ht & Hw). exists t. split; [lia | done].
    + exists (Z.of_nat i). split; [lia|].
      rewrite reach_next in Hk by lia. rewrite reach_start in Hge by lia.
      unfold writes. lia.
Qed.


(** *** Rows without nonzeros *)

Section ZeroRows.
Hypothesis Hzero : add zero zero = zero.
Variable k : Z.
Hypothesis Hk : 0 <= k < m.
Hypothesis Hempty : ro_at row_offsets k = ro_at row_offsets (k + 1).

Lemma segment_empty lo hi : hi <= lo -> segment' lo hi = zero.
Proof. intros H. unfold segment, sum_from. by rewrite seqZ_nil by lia. Qed.

Lemma pos_lower t : 0 <= t < P -> ro_at row_offsets k <= pos' t k.
Proof.
  intros Ht. destruct (thread_piece t Ht) as ([_ _ Hlo _] & _).
  rewrite reach_start in Hlo by done. unfold pos.
  destruct (decide _) as [->|]; [done | lia].
Qed.

Lemma empty_row_value t : 0 <= t < P -> row_value' t k = zero.
Proof.
  intros Ht. unfold row_value. apply segment_empty.
  pose proof (pos_lower t Ht). lia.
Qed.

Lemma empty_carry_value t : 0 <= t < P -> carry_row' t = k -> carry_value' t = zero.
Proof.
  intros Ht Hrow. unfold carry_value. unfold carry_row in Hrow. rewrite Hrow.
  apply segment_empty. pose proof (pos_lower t Ht).
  destruct (thread_piece t Ht) as (_ & [_ _ _ Hhi] & _).
  rewrite reach_next in Hhi by lia. rewrite Hrow in Hhi. lia.
Qed.

Lemma empty_written (i : nat) v0 :
  Z.of_nat i <= P -> (exists t, 0 <= t < Z.of_nat i /\ writes' t k) ->
  written' i k v0 = zero.
Proof.
  induction i as [|i IH]; intros Hi (t & Ht & Hw); [lia|]. simpl.
  destruct (decide (writes' (Z.of_nat i) k)); [apply empty_row_value; lia|].
  apply IH; [lia|]. exists t. split; [|done].
  destruct (decide (t = Z.of_nat i)) as [->|]; [done | lia].
Qed.

Lemma empty_fixed (i : nat) : Z.of_nat i <= P -> fixed' i k zero = zero.
Proof.
  induction i as [|i IH]; intros Hi; [done|]. simpl.
  destruct (decide _) as [Hrow|]; [|apply IH; lia].
  rewrite IH by lia. rewrite empty_carry_value by (done || lia). done.
Qed.
End ZeroRows.

(** *** Exact arithmetic *)

Section Exact.
Hypothesis Hadd : exact_add zero add.

Lemma add_zero_l a : add zero a = a.
Proof. by rewrite (add_comm _ _ Hadd), (add_zero_r _ _ Hadd). Qed.

Lemma sum_from_add acc lo hi : sum_from' acc lo hi = add acc (segment' lo hi).
Proof.
  unfold segment, sum_from. generalize (seqZ lo (hi - lo)) as l. intros l.
  revert acc. induction l as [|j l IH]; intros acc; simpl.
  - by rewrite (add_zero_r _ _ Hadd).
  - rewrite (IH (add acc _)), (IH (add zero _)).
    by rewrite add_zero_l, (add_assoc _ _ Hadd).
Qed.

Lemma segment_app lo mid hi :
  lo <= mid <= hi -> add (segment' lo mid) (segment' mid hi) = segment' lo hi.
Proof.
  intros H. rewrite <- sum_from_add. unfold segment.
  by rewrite (sum_from_split zero add mul column_indices values vector_x zero lo mid hi).
Qed.

(** After threads [0 .. i - 1] and their fix-up: rows the path has left
    behind hold their sum, the row it stands in has its part carried,
    the others are untouched. *)
Lemma stitch_inv (i : nat) k :
  Z.of_nat i <= P -> 0 <= k < m ->
  (x (reach' (Z.of_nat i)) <= k ->
     (forall v, fixed' i k v = add v (carried' (Z.of_nat i) k)) /\
     (forall v0, written' i k v0 = v0)) /\
  (k < x (reach' (Z.of_nat i)) ->
     forall v0, fixed' i k (written' i k v0) = row_sum' k).
Proof.
  intros Hi Hk. induction i as [|i IH].
  - split.
    + intros _. split; [|done]. intros v. simpl. unfold carried, reach. simpl.
      destruct (decide (0 = k)) as [<-|].
      * by rewrite segment_empty, (add_zero_r _ _ Hadd)
          by (rewrite (wf_first _ _ _ Hwf); lia).
      * by rewrite (add_zero_r _ _ Hadd).
    + unfold reach. simpl. lia.
  - specialize (IH ltac:(lia)). destruct IH as [IH1 IH2].
    set (t := Z.of_nat i) in *.
    assert (0 <= t < P) as Ht by lia.
    replace (Z.of_nat (S i)) with (t + 1) by lia.
    destruct (thread_piece t Ht) as (HS & HE & Hxx & Hyy).
    pose proof (reach_start t Ht) as HrS. pose proof (reach_next t ltac:(lia)) as HrE.
    assert (carry_row' t = x (reach' (t + 1))) as Hcr by (by rewrite HrE).
    assert (writes' t k <-> x (reach' t) <= k < x (reach' (t + 1))) as Hwr
      by (unfold writes; by rewrite HrS, HrE).
    destruct HS as [_ _ HSlo HShi].
    split.
    + intros HEk. destruct (IH1 ltac:(lia)) as [Hf Hw]. split.
      * intros v. simpl. fold t. rewrite Hcr, Hf.
        destruct (decide (x (reach' (t + 1)) = k)) as [Heq|Hne].
        -- replace (carried' (t + 1) k)
             with (segment' (ro_at row_offsets k) (y (reach' (t + 1))))
             by (unfold carried; destruct (decide _); [done | lia]).
           rewrite <- (add_assoc _ _ Hadd). f_equal.
           unfold carry_value. rewrite <- HrE, Heq. unfold carried.
           destruct (decide (x (reach' t) = k)) as [HSk|HSk].
           ++ rewrite (pos_at_start t k Ht HSk). apply segment_app.
              rewrite HSk in HSlo. lia.
           ++ rewrite (pos_past_start t k Ht ltac:(lia)). apply add_zero_l.
        -- replace (carried' (t + 1) k) with zero
             by (unfold carried; destruct (decide _); [lia | done]).
           replace (carried' t k) with zero
             by (unfold carried; destruct (decide _); [lia | done]).
           done.
      * intros v0. simpl. fold t.
        destruct (decide (writes' t k)) as [Hw'|]; [apply Hwr in Hw'; lia | apply Hw].
    + intros HEk v0. simpl. fold t. rewrite Hcr.
      destruct (decide (x (reach' (t + 1)) = k)); [lia|].
      destruct (decide (writes' t k)) as [Hw'|Hw'].
      * apply Hwr in Hw'. destruct (IH1 ltac:(lia)) as [Hf _]. rewrite Hf.
        unfold row_value, carried, row_sum.
        destruct (decide (x (reach' t) = k)) as [HSk|HSk].
        -- rewrite (pos_at_start t k Ht HSk), (add_comm _ _ Hadd). apply segment_app.
           rewrite HSk in HSlo, HShi. lia.
        -- rewrite (pos_past_start t k Ht ltac:(lia)). apply (add_zero_r _ _ Hadd).
      * apply IH2. rewrite Hwr in Hw'. lia.
Qed.

Lemma stitched_row k v0 :
  0 <= k < m ->
  fixed' (Z.to_nat (P - 1)) k (written' (Z.to_nat P) k v0) = row_sum' k.
Proof.
  intros Hk.
  destruct (stitch_inv (Z.to_nat P) k ltac:(lia) Hk) as [_ H].
  rewrite Z2Nat.id in H by lia. rewrite reach_last in H. simpl in H.
  rewrite <- (H ltac:(lia) v0).
  replace (Z.to_nat P) with (S (Z.to_nat (P - 1))) at 2 by lia.
  cbn [fixed]. rewrite Z2Nat.id by lia.
  destruct (decide _) as [Hrow|]; [|done].
  unfold carry_row in Hrow. rewrite (pp_last _ _ _ _ _ _ Hpp) in Hrow. simpl in Hrow. lia.
Qed.
End Exact.
End Stitch.

(** ** Any order of the threads

    The model runs the threads of the parallel loop in ascending order.
    On a partition of the path the threads store into different cells, and
    every other order of the threads ends in the same state. *)

Section AnyOrder.
Context {ValueT : Type}.
Variables (zero : ValueT) (add mul : ValueT -> ValueT -> ValueT).
Variables (m n nnz : Z).
Variables (row_offsets column_indices : list Z) (values vector_x : list ValueT).
Variables (thread_coords thread_coord_ends : list int2) (P : Z).
Hypothesis Hcsr : wf_csr m n nnz row_offsets column_indices values vector_x.
Hypothesis HP : 1 <= P <= 256.
Hypothesis Hpp : path_partition P m nnz row_offsets thread_coords thread_coord_ends.

Abbreviation writes' := (writes thread_coords thread_coord_ends).
Abbreviation reach' := (reach thread_coord_ends).
Abbreviation thread_body' :=
  (thread_body zero add mul row_offsets column_indices values vector_x
     thread_coords thread_coord_ends).
Abbreviation threads_ran' :=
  (threads_ran zero add mul row_offsets column_indices values vector_x
     thread_coords thread_coord_ends m).

Lemma reach_mono (d : nat) i :
  0 <= i -> i + Z.of_nat d <= P -> x (reach' i) <= x (reach' (i + Z.of_nat d)).
Proof.
  intros Hi. induction d as [|d IH]; intros Hd.
  - rewrite Z.add_0_r. lia.
  - destruct (thread_piece m nnz row_offsets thread_coords thread_coord_ends P
                Hpp (i + Z.of_nat d) ltac:(lia)) as (_ & _ & Hx & _).
    replace (i + Z.of_nat (S d)) with (i + Z.of_nat d + 1) by lia. lia.
Qed.

(** No two threads store into the same row. *)
Lemma owner_unique t t' k :
  0 <= t < P -> 0 <= t' < P -> writes' t k -> writes' t' k -> t = t'.
Proof.
  assert (forall t t', 0 <= t < t' -> t' < P -> writes' t k -> writes' t' k -> False)
    as Hlt.
  { intros a b Hab Hb Ha Hb'. unfold writes in Ha, Hb'.
    rewrite <- (reach_next thread_coord_ends a) in Ha by lia.
    rewrite <- (reach_start m nnz row_offsets thread_coords thread_coord_ends P
                  Hpp b) in Hb' by lia.
    pose proof (reach_mono (Z.to_nat (b - (a + 1))) (a + 1) ltac:(lia) ltac:(lia)) as Hm.
    rewrite Z2Nat.id in Hm by lia. replace (a + 1 + (b - (a + 1))) with b in Hm by lia.
    lia. }
  intros Ht Ht' Hw Hw'. destruct (Z.lt_trichotomy t t') as [?|[?|?]]; [|done|].
  - exfalso. apply (Hlt t t'); (done || lia).
  - exfalso. apply (Hlt t' t); (done || lia).
Qed.

Lemma thread_body_ran y0 rc0 vc0 ran t st :
  0 <= t < P -> t ∉ ran -> (forall t', t' ∈ ran -> 0 <= t' < P) ->
  threads_ran' y0 rc0 vc0 ran st ->
  exists st', thread_body' t st = Ok st' /\ threads_ran' y0 rc0 vc0 (t :: ran) st'.
Proof.
  intros Ht Hnew Hran (Hl & Hlr & Hlv & Hy & Hc). destruct st as [[yv rc] vc].
  simpl in Hl, Hlr, Hlv, Hy, Hc.
  destruct (thread_body_spec zero add mul m n nnz row_offsets column_indices values
              vector_x thread_coords thread_coord_ends P Hcsr
              (pp_range _ _ _ _ _ _ Hpp) t yv rc vc Ht Hl) as (yv' & Hl' & Hy' & ->).
  rewrite !write_Ok by lia. simpl. eexists. split; [done|].
  split; [done|]. simpl. rewrite !length_insert. split; [done|]. split; [done|]. split.
  - intros k Hk. destruct (Hy k Hk) as [Hown Hnone]. rewrite Hy'. split.
    + intros t' Ht' Hw'. apply elem_of_cons in Ht' as [->|Ht'].
      * destruct (decide _); done.
      * destruct (decide (writes' t k)) as [Hw|]; [|by apply Hown].
        exfalso. apply Hnew.
        by rewrite (owner_unique t t' k Ht (Hran t' Ht') Hw Hw').
    + intros Hno. destruct (decide (writes' t k)) as [Hw|].
      * exfalso. apply (Hno t); [left | done].
      * apply Hnone. intros t' Ht'. apply Hno. by right.
  - intros t' Ht'. destruct (Hc t' Ht') as [Hin Hout]. split.
    + intros Hel. apply elem_of_cons in Hel as [->|Hel].
      * by rewrite !at_insert_eq by lia.
      * rewrite !at_insert_ne by (try lia; intros ->; done). by apply Hin.
    + intros Hel. apply not_elem_of_cons in Hel as [Hne Hel].
      rewrite !at_insert_ne by (lia || done). by apply Hout.
Qed.

Lemma run_in_order_ran y0 rc0 vc0 order : forall ran st,
  NoDup (order ++ ran) -> (forall t, t ∈ order ++ ran -> 0 <= t < P) ->
  threads_ran' y0 rc0 vc0 ran st ->
  exists st', run_in_order order thread_body' st = Ok st' /\
    threads_ran' y0 rc0 vc0 (reverse order ++ ran) st'.
Proof.
  induction order as [|t order IH]; intros ran st Hnd Hin Hst.
  - exists st. done.
  - simpl in Hnd. apply NoDup_cons in Hnd as [Hnew Hnd].
    destruct (thread_body_ran y0 rc0 vc0 ran t st) as (st1 & Hb & Hst1); [| | |done|].
    + apply Hin. left.
    + intros Hel. apply Hnew. apply elem_of_app. by right.
    + intros t' Ht'. apply Hin. right. apply elem_of_app. by right.
    + simpl. rewrite Hb. simpl.
      destruct (IH (t :: ran) st1) as (st' & Hrun & Hst'); [| |done|].
      * apply NoDup_app. apply NoDup_app in Hnd as (Ho & Hdis & Hr).
        split; [done|]. split; [|by apply NoDup_cons; split;
          [intros Hel; apply Hnew, elem_of_app; by right|]].
        intros t' Ht' Hel. apply elem_of_cons in Hel as [->|Hel].
        -- apply Hnew, elem_of_app. by left.
        -- by apply (Hdis t').
      * intros t' Ht'. apply Hin. apply elem_of_app in Ht' as [Ht'|Ht'].
        -- right. apply elem_of_app. by left.
        -- apply elem_of_cons in Ht' as [->|Ht']; [left|right; apply elem_of_app; by right].
      * exists st'. split; [done|]. by rewrite reverse_cons, <- app_assoc.
Qed.

(** Two states in which the same threads of a partition have run are one
    state, once all of the threads [0 .. P - 1] have run. *)
Lemma threads_ran_all_eq y0 rc0 vc0 ran ran' st st' :
  (forall t, t ∈ ran <-> 0 <= t < P) -> (forall t, t ∈ ran' <-> 0 <= t < P) ->
  threads_ran' y0 rc0 vc0 ran st -> threads_ran' y0 rc0 vc0 ran' st' -> st = st'.
Proof.
  intros Hran Hran' (Hl & Hlr & Hlv & Hy & Hc) (Hl' & Hlr' & Hlv' & Hy' & Hc').
  destruct st as [[yv rc] vc], st' as [[yv' rc'] vc']. simpl in *.
  assert (yv = yv') as ->.
  { apply (at_ext zero); [lia|]. intros k Hk.
    destruct (owner_exists m nnz row_offsets thread_coords thread_coord_ends P Hpp k
                (Z.to_nat P) ltac:(lia)) as (t & Ht & Hw).
    { rewrite Z2Nat.id by lia.
      rewrite (reach_last m nnz row_offsets thread_coords thread_coord_ends P
                 ltac:(lia) Hpp). simpl. lia. }
    destruct (Hy k ltac:(lia)) as [Hown _]. destruct (Hy' k ltac:(lia)) as [Hown' _].
    rewrite (Hown t), (Hown' t); [done | | done | | done]; [apply Hran' | apply Hran]; lia. }
  assert (rc = rc' /\ vc = vc') as [-> ->]; [|done].
  split.
  - apply (at_ext 0); [lia|]. intros t Ht.
    destruct (Hc t ltac:(lia)) as [Hin Hout]. destruct (Hc' t ltac:(lia)) as [Hin' Hout'].
    destruct (decide (t < P)).
    + destruct Hin as [-> _]; [apply Hran; lia|].
      destruct Hin' as [-> _]; [apply Hran'; lia|]. done.
    + destruct Hout as [-> _]; [rewrite Hran; lia|].
      destruct Hout' as [-> _]; [rewrite Hran'; lia|]. done.
  - apply (at_ext zero); [lia|]. intros t Ht.
    destruct (Hc t ltac:(lia)) as [Hin Hout]. destruct (Hc' t ltac:(lia)) as [Hin' Hout'].
    destruct (decide (t < P)).
    + destruct Hin as [_ ->]; [apply Hran; lia|].
      destruct Hin' as [_ ->]; [apply Hran'; lia|]. done.
    + destruct Hout as [_ ->]; [rewrite Hran; lia|].
      destruct Hout' as [_ ->]; [rewrite Hran'; lia|]. done.
Qed.

(** Every order of the threads gives the state the ascending order gives. *)
Lemma parallel_phase_any_order order rc0 vc0 y0 :
  order ≡ₚ seqZ 0 P ->
  Z.of_nat (length y0) = m ->
  Z.of_nat (length rc0) = 256 -> Z.of_nat (length vc0) = 256 ->
  run_in_order order thread_body' (y0, rc0, vc0)
  = parallel_phase zero add mul row_offsets column_indices values vector_x
      thread_coords thread_coord_ends P rc0 vc0 y0.
Proof.
  intros Hperm Hl Hlr Hlv. unfold parallel_phase. rewrite for_loop_run_in_order.
  assert (threads_ran' y0 rc0 vc0 [] (y0, rc0, vc0)) as H0.
  { split; [done|]. split; [done|]. split; [done|]. split.
    - intros k Hk. split; [intros t Ht; by apply elem_of_nil in Ht | done].
    - intros t Ht. split; [intros Hel; by apply elem_of_nil in Hel | done]. }
  assert (forall l, l ≡ₚ seqZ 0 P -> forall t, t ∈ l <-> 0 <= t < P) as Hmem.
  { intros l Hl' t. rewrite Hl', elem_of_seqZ. lia. }
  assert (forall l, l ≡ₚ seqZ 0 P ->
            exists st, run_in_order l thread_body' (y0, rc0, vc0) = Ok st /\
                       threads_ran' y0 rc0 vc0 (reverse l ++ []) st) as Hrun.
  { intros l Hl'. apply run_in_order_ran; [| |done].
    - rewrite app_nil_r, Hl'. apply NoDup_seqZ.
    - intros t. rewrite app_nil_r. apply Hmem. done. }
  destruct (Hrun order Hperm) as (st & -> & Hst).
  destruct (Hrun (seqZ 0 (P - 0)) ltac:(by rewrite Z.sub_0_r)) as (st' & -> & Hst').
  f_equal. apply (threads_ran_all_eq y0 rc0 vc0 _ _ st st' ) with (3 := Hst) (4 := Hst').
  - intros t. rewrite app_nil_r, elem_of_reverse. by apply Hmem.
  - intros t. rewrite app_nil_r, elem_of_reverse. apply Hmem. by rewrite Z.sub_0_r.
Qed.
End AnyOrder.

(** ** The executable checks are sound *)

Lemma range_forallb (f : Z -> bool) lo len :
  forallb f (seqZ lo len) = true -> forall i, lo <= i < lo + len -> f i = true.
Proof.
  intros H i Hi. rewrite forallb_forall in H. apply H.
  apply list_elem_of_In, elem_of_seqZ. lia.
Qed.

Lemma wf_row_offsets_b_true m nnz row_offsets :
  wf_row_offsets_b m nnz row_offsets = true -> wf_row_offsets m nnz row_offsets.
Proof.
  unfold wf_row_offsets_b. rewrite !andb_true_iff.
  intros [[[[[H1 H2] H3] H4] H5] H6].
  split; [lia | lia | lia | lia | lia |].
  intros i Hi. pose proof (range_forallb _ _ _ H6 i ltac:(lia)) as H. simpl in H. lia.
Qed.

Lemma wf_csr_b_true {ValueT} m n nnz row_offsets column_indices
    (values vector_x : list ValueT) :
  wf_csr_b m n nnz row_offsets column_indices values vector_x = true ->
  wf_csr m n nnz row_offsets column_indices values vector_x.
Proof.
  unfold wf_csr_b. rewrite !andb_true_iff.
  intros [[[[H1 H2] H3] H4] H5].
  split; [by apply wf_row_offsets_b_true | lia | lia | lia |].
  intros j Hj. pose proof (range_forallb _ _ _ H5 j ltac:(lia)) as H. simpl in H. lia.
Qed.

Lemma coords_in_range_b_true P m nnz thread_coords thread_coord_ends :
  coords_in_range_b P m nnz thread_coords thread_coord_ends = true ->
  coords_in_range P m nnz thread_coords thread_coord_ends.
Proof.
  unfold coords_in_range_b. rewrite !andb_true_iff.
  intros [[H1 H2] H3]. split; [lia|]. split; [lia|].
  intros t Ht. pose proof (range_forallb _ _ _ H3 t ltac:(lia)) as H. simpl in H. lia.
Qed.

Lemma exact_add_Z : exact_add 0 Z.add.
Proof. split; intros; lia. Qed.

Lemma at_lookup_Some {A} (d : A) l i :
  0 <= i < Z.of_nat (length l) -> l !! Z.to_nat i = Some (at_ d l i).
Proof.
  intros [H0 Hl]. unfold at_. rewrite (proj2 (Z.leb_le 0 i)) by done.
  destruct (lookup_lt_is_Some_2 l (Z.to_nat i) ltac:(lia)) as [v ->]. done.
Qed.

(** ** Partitioner and kernel together *)

Section Together.
Context {ValueT : Type}.
Variables (zero : ValueT) (add mul : ValueT -> ValueT -> ValueT).
Variables (m n nnz : Z).
Variables (row_offsets column_indices : list Z) (values vector_x : list ValueT).
Variables (P : Z) (tc0 tce0 : list int2).
Hypothesis Hcsr : wf_csr m n nnz row_offsets column_indices values vector_x.
Hypothesis HP : 1 <= P <= 256.
Hypothesis Htc0 : Z.of_nat (length tc0) = P.
Hypothesis Htce0 : Z.of_nat (length tce0) = P.
Hypothesis Hfit : m + nnz + P <= max_int.
Hypothesis Hrows : m <= 2 ^ 30.

(** The partition of a well-formed matrix whose sizes fit, then the kernel
    on it: the run ends normally and every cell is told by [written] and [fixed]. *)
Lemma partition_then_kernel :
  exists tc tce,
    OmpMergePartitionMatrix P m nnz row_offsets tc0 tce0 = Ok (tc, tce) /\
    path_partition P m nnz row_offsets tc tce /\
    forall junk_row junk_value y0,
      Z.of_nat (length y0) = m ->
      exists y2,
        OmpMergeCsrmv zero add mul m row_offsets column_indices values vector_x
          tc tce P junk_row junk_value y0 = Ok y2 /\
        Z.of_nat (length y2) = m /\
        forall k, 0 <= k < m ->
          at_ zero y2 k
          = fixed add (carry_row tce)
              (carry_value zero add mul row_offsets column_indices values vector_x tc tce)
              (Z.to_nat (P - 1)) k
              (written zero add mul row_offsets column_indices values vector_x tc tce
                 (Z.to_nat P) k (at_ zero y0 k)).
Proof.
  pose proof (wf_offsets _ _ _ _ _ _ _ Hcsr) as Hwf.
  destruct (OmpMergePartitionMatrix_partitioned P m nnz row_offsets tc0 tce0 Hwf
              ltac:(lia) Hfit Hrows Htc0 Htce0) as (tc & tce & Hrun & Hp).
  pose proof (partitioned_path_partition P m nnz row_offsets Hwf ltac:(lia) tc tce Hp)
    as Hpp.
  exists tc, tce. split; [done|]. split; [done|].
  intros junk_row junk_value y0 Hl.
  apply (OmpMergeCsrmv_spec zero add mul m n nnz row_offsets column_indices values
           vector_x tc tce P Hcsr (pp_range _ _ _ _ _ _ Hpp)); done.
Qed.
End Together.

(** ** The kernel against the serial reference *)


(** ** Safety of the fix-up and of the carry arrays *)


(** C6. With thread ranges inside the grid the kernel ends normally for
    every [P] from 1 to 256, so that every access to the carry arrays, to
    the output vector, to [values] and to [column_indices] is inside its
    array; with more than 256 threads the run leaves [row_carry_out] at
    index 256. *)
Theorem carry_arrays_cap {ValueT} (zero : ValueT) add mul
    m n nnz row_offsets column_indices values vector_x
    thread_coords thread_coord_ends P junk_row junk_value y0 :
  wf_csr m n nnz row_offsets column_indices values vector_x ->
  coords_in_range P m nnz thread_coords thread_coord_ends ->
  Z.of_nat (length y0) = m ->
  1 <= P ->
  (P <= 256 ->
   exists y2,
     OmpMergeCsrmv zero add mul m row_offsets column_indices values vector_x
       thread_coords thread_coord_ends P junk_row junk_value y0 = Ok y2 /\
     Z.of_nat (length y2) = m) /\
  (256 < P ->
   OmpMergeCsrmv zero add mul m row_offsets column_indices values vector_x
     thread_coords thread_coord_ends P junk_row junk_value y0
   = OutOfBounds A_row_carry_out 256).
Proof.
  intros Hcsr Hrange Hl HP. split.
  - intros H256.
    destruct (OmpMergeCsrmv_spec zero add mul m n nnz row_offsets column_indices values
                vector_x thread_coords thread_coord_ends P Hcsr Hrange junk_row
                junk_value y0 ltac:(lia) Hl) as (y2 & Hrun & Hlen & _).
    by exists y2.
  - intros H256. unfold OmpMergeCsrmv.
    rewrite (parallel_phase_overflow zero add mul m n nnz row_offsets column_indices
               values vector_x thread_coords thread_coord_ends P Hcsr Hrange);
      [done | lia | done | |]; by rewrite length_fmap, length_seqZ.
Qed.

(** ** Rows without nonzeros, and what the output held before *)



(** ** The driver's trivial data sets *)

(** C9, as the code has it.  A matrix read from a Matrix Market file with
    exactly one row, or exactly one column, or exactly one nonzero ends
    the run with exit code 0 before any kernel runs; "Trivial dataset" is
    printed unless the run is quiet. *)
Theorem trivial_dataset_exit g_quiet InitMarket mtx_filename grid2d grid3d wheel dense :
  mtx_filename <> EmptyString ->
  coo_num_rows (InitMarket mtx_filename) = 1
  \/ coo_num_cols (InitMarket mtx_filename) = 1
  \/ coo_num_nonzeros (InitMarket mtx_filename) = 1 ->
  RunTests_dataset g_quiet InitMarket mtx_filename grid2d grid3d wheel dense
  = Exit 0 (if g_quiet then [] else [Trivial_dataset]).
Proof.
  intros Hname Hone. unfold RunTests_dataset.
  rewrite (proj2 (String.eqb_neq _ _) Hname). simpl.
  replace ((coo_num_rows (InitMarket mtx_filename) =? 1)
           || (coo_num_cols (InitMarket mtx_filename) =? 1)
           || (coo_num_nonzeros (InitMarket mtx_filename) =? 1)) with true.
  - by destruct g_quiet.
  - symmetry. rewrite !orb_true_iff, !Z.eqb_eq. tauto.
Qed.

(** A loaded 2 by 2 matrix without nonzeros has [nnz <= 1], and the driver
    goes on to the benchmarks with it; a loaded matrix of one row ends a
    quiet run with exit code 0 and nothing printed. *)
Lemma trivial_dataset_not_le :
  ((2 <= 1 \/ 2 <= 1 \/ 0 <= 1) /\
   RunTests_dataset false
     (fun _ => {| coo_num_rows := 2; coo_num_cols := 2; coo_num_nonzeros := 0 |})
     "a.mtx"%string (-1) (-1) (-1) (-1)
   = Benchmark [Dataset_name]) /\
  ((1 <= 1 \/ 5 <= 1 \/ 3 <= 1) /\
   RunTests_dataset true
     (fun _ => {| coo_num_rows := 1; coo_num_cols := 5; coo_num_nonzeros := 3 |})
     "a.mtx"%string (-1) (-1) (-1) (-1)
   = Exit 0 []).
Proof. split; (split; [lia | reflexivity]). Qed.

(** ** 32-bit indices *)

Lemma wrap32_id z : min_int <= z <= max_int -> wrap32 z = z.
Proof.
  unfold wrap32, min_int, max_int. intros Hz.
  rewrite Z.mod_small by lia. lia.
Qed.

(** While [m + nnz + P] fits an [int], the wrapped arithmetic of the
    partitioner is the arithmetic on [Z]. *)
Lemma partition_arithmetic32 P m nnz tid :
  1 <= P -> 1 <= m -> 0 <= nnz -> 0 <= tid < P ->
  m + nnz + P <= max_int ->
  items_per_thread32 P m nnz = items_per_thread_Z P m nnz /\
  start_diagonal32 P m nnz tid = start_diagonal_Z P m nnz tid /\
  end_diagonal32 P m nnz tid = end_diagonal_Z P m nnz tid.
Proof.
  intros HP Hm Hnnz Ht Hfit.
  destruct (index_arithmetic_bounded P m nnz HP ltac:(lia) Hnnz tid Ht) as (H1 & H2 & H3 & H4).
  unfold max_int in Hfit.
  assert (num_merge_items32 m nnz = num_merge_items_Z m nnz) as Hn
    by (unfold num_merge_items32, num_merge_items_Z, max_int in *;
        apply wrap32_id; unfold min_int, max_int; lia).
  assert (items_per_thread32 P m nnz = items_per_thread_Z P m nnz) as Hq.
  { unfold items_per_thread32. rewrite Hn. unfold num_merge_items_Z in *.
    rewrite (wrap32_id (m + nnz + P)) by (unfold min_int, max_int; lia).
    rewrite (wrap32_id (m + nnz + P - 1)) by (unfold min_int, max_int; lia).
    apply wrap32_id. unfold items_per_thread_Z, num_merge_items_Z, min_int, max_int in *. lia. }
  assert (start_diagonal32 P m nnz tid = start_diagonal_Z P m nnz tid) as Hs.
  { unfold start_diagonal32. rewrite Hq, Hn.
    rewrite wrap32_id by (unfold min_int, max_int; lia). done. }
  split; [done|]. split; [done|].
  unfold end_diagonal32. rewrite Hs, Hq, Hn.
  rewrite wrap32_id by (unfold min_int, max_int; lia). done.
Qed.

(** While [2 m] fits an [int], the wrapped pivot of the search is the pivot
    on [Z]. *)
Lemma pivot_arithmetic32 m x_min x_max :
  0 <= x_min <= x_max -> x_max <= m -> 2 * m <= max_int ->
  pivot_of32 x_min x_max = pivot_of_Z x_min x_max.
Proof.
  intros Hx Hm Hfit. unfold pivot_of32, pivot_of_Z.
  by rewrite wrap32_id by (unfold min_int, max_int in *; lia).
Qed.

(** ** The small matrix, run *)

Example ex_partition :
  OmpMergePartitionMatrix 3 4 6 ex_row_offsets ex_fresh_coords ex_fresh_coords
  = Ok (ex_thread_coords, ex_thread_coord_ends).
Proof. reflexivity. Qed.

Example ex_kernel :
  OmpMergeCsrmv 0 Z.add Z.mul 4 ex_row_offsets ex_column_indices ex_values ex_vector_x
    ex_thread_coords ex_thread_coord_ends 3 (fun _ => 77) (fun _ => 99) ex_fresh_y
  = Ok [0; 21; 0; 0].
Proof. reflexivity. Qed.

Example ex_gold :
  SpmvGold 0 Z.add Z.mul 4 ex_row_offsets ex_column_indices ex_values ex_vector_x
    ex_fresh_y
  = Ok [0; 21; 0; 0].
Proof. reflexivity. Qed.

(** The identity of size 4 on two threads. *)
Example ex_identity :
  let row_offsets := [0; 1; 2; 3; 4] in
  exists tc tce,
    OmpMergePartitionMatrix 2 4 4 row_offsets (replicate 2 {| x := 0; y := 0 |})
      (replicate 2 {| x := 0; y := 0 |}) = Ok (tc, tce) /\
    OmpMergeCsrmv 0 Z.add Z.mul 4 row_offsets [0; 1; 2; 3] [1; 1; 1; 1]
      [10; 20; 30; 40] tc tce 2 (fun _ => 0) (fun _ => 0) [7; 7; 7; 7]
    = Ok [10; 20; 30; 40].
Proof. eexists _, _. split; reflexivity. Qed.

(** One empty row on three threads: thread 0 carries out to row [m = 1],
    and the test [row < num_rows] of the fix-up skips it. *)
Example ex_carry_to_row_m :
  OmpMergePartitionMatrix 3 1 0 [0; 0] ex_fresh_coords ex_fresh_coords
  = Ok ([{| x := 0; y := 0 |}; {| x := 1; y := 0 |}; {| x := 1; y := 0 |}],
        [{| x := 1; y := 0 |}; {| x := 1; y := 0 |}; {| x := 1; y := 0 |}]) /\
  OmpMergeCsrmv 0 Z.add Z.mul 1 [0; 0] [] [] [5]
    [{| x := 0; y := 0 |}; {| x := 1; y := 0 |}; {| x := 1; y := 0 |}]
    [{| x := 1; y := 0 |}; {| x := 1; y := 0 |}; {| x := 1; y := 0 |}]
    3 (fun _ => 77) (fun _ => 99) [-1]
  = Ok [0].
Proof. split; reflexivity. Qed.

(** The small matrix on 257 threads: the kernel leaves [row_carry_out]. *)
Example ex_too_many_threads :
  exists tc tce,
    OmpMergePartitionMatrix 257 4 6 ex_row_offsets
      (replicate 257 {| x := 0; y := 0 |}) (replicate 257 {| x := 0; y := 0 |})
    = Ok (tc, tce) /\
    OmpMergeCsrmv 0 Z.add Z.mul 4 ex_row_offsets ex_column_indices ex_values ex_vector_x
      tc tce 257 (fun _ => 77) (fun _ => 99) ex_fresh_y
    = OutOfBounds A_row_carry_out 256.
Proof. eexists _, _. split; vm_compute; reflexivity. Qed.

(** ** The statements at the small matrix *)






Lemma carry_arrays_cap_witness :
  wf_csr 4 6 6 ex_row_offsets ex_column_indices ex_values ex_vector_x /\
  coords_in_range 3 4 6 ex_thread_coords ex_thread_coord_ends /\
  (3 <= 256 ->
   exists y2,
     OmpMergeCsrmv 0 Z.add Z.mul 4 ex_row_offsets ex_column_indices ex_values ex_vector_x
       ex_thread_coords ex_thread_coord_ends 3 (fun _ => 77) (fun _ => 99) ex_fresh_y
       = Ok y2 /\
     Z.of_nat (length y2) = 4) /\
  (256 < 3 ->
   OmpMergeCsrmv 0 Z.add Z.mul 4 ex_row_offsets ex_column_indices ex_values ex_vector_x
     ex_thread_coords ex_thread_coord_ends 3 (fun _ => 77) (fun _ => 99) ex_fresh_y
   = OutOfBounds A_row_carry_out 256).
Proof.
  assert (wf_csr 4 6 6 ex_row_offsets ex_column_indices ex_values ex_vector_x) as Hcsr
    by (apply wf_csr_b_true; reflexivity).
  assert (coords_in_range 3 4 6 ex_thread_coords ex_thread_coord_ends) as Hrange
    by (apply coords_in_range_b_true; reflexivity).
  split; [exact Hcsr|]. split; [exact Hrange|].
  apply (carry_arrays_cap 0 Z.add Z.mul 4 6 6 ex_row_offsets ex_column_indices ex_values
           ex_vector_x ex_thread_coords ex_thread_coord_ends 3 (fun _ => 77)
           (fun _ => 99) ex_fresh_y Hcsr Hrange); [reflexivity | lia].
Defined.



Lemma trivial_dataset_exit_witness :
  "a.mtx"%string <> EmptyString /\
  RunTests_dataset false
    (fun _ => {| coo_num_rows := 1; coo_num_cols := 5; coo_num_nonzeros := 3 |})
    "a.mtx" (-1) (-1) (-1) (-1)
  = Exit 0 [Trivial_dataset].
Proof.
  split; [discriminate|].
  apply (trivial_dataset_exit false
           (fun _ => {| coo_num_rows := 1; coo_num_cols := 5; coo_num_nonzeros := 3 |})
           "a.mtx" (-1) (-1) (-1) (-1));
    [discriminate | left; reflexivity].
Defined.

(** ** The run with wrap-around is the checked run where that ends normally *)

Lemma int_of_Ok_inv v r : int_of v = Ok r -> r = v /\ min_int <= v <= max_int.
Proof.
  unfold int_of. destruct (min_int <=? v) eqn:Hlo; [|done].
  destruct (v <=? max_int) eqn:Hhi; [|done]. intros [= <-].
  apply Z.leb_le in Hlo, Hhi. done.
Qed.

Lemma search_loop32_checked a b b' diagonal (fuel : nat) : forall x_min x_max r,
  (forall i v, b i = Ok v -> b' i = Ok v) ->
  (Z.to_nat (x_max - x_min) <= fuel)%nat ->
  search_loop a b diagonal x_min x_max = Ok r ->
  search_loop32 fuel a b' diagonal x_min x_max = Some (Ok r).
Proof.
  induction fuel as [|fuel IH]; intros x_min x_max r Hb Hfuel.
  - rewrite search_loop_eq. simpl.
    destruct (decide (x_min < x_max)) as [Hlt|]; [lia | by intros [= <-]].
  - rewrite search_loop_eq. simpl.
    destruct (decide (x_min < x_max)) as [Hlt|]; [|by intros [= <-]].
    pose proof (pivot_of_bounds _ _ Hlt) as Hp.
    unfold pivot_of, add_int, pivot_of32.
    destruct (int_of (x_min + x_max)) as [sum| | |] eqn:Hsum; [|done|done|done].
    rewrite (int_of_wrap32 _ _ Hsum). apply int_of_Ok_inv in Hsum as [-> _].
    simpl. fold (pivot_of_Z x_min x_max). set (p := pivot_of_Z x_min x_max) in *.
    unfold pivot_test. destruct (a p) as [ap| | |]; [|done|done|done]. simpl.
    unfold sub_int. destruct (int_of (diagonal - p)) as [i| | |] eqn:Hi; [|done|done|done].
    rewrite (int_of_wrap32 _ _ Hi). apply int_of_Ok_inv in Hi as [-> _]. simpl.
    destruct (int_of (diagonal - p - 1)) as [i'| | |] eqn:Hi'; [|done|done|done].
    rewrite (int_of_wrap32 _ _ Hi'). apply int_of_Ok_inv in Hi' as [-> _]. simpl.
    destruct (b (diagonal - p - 1)) as [bi| | |] eqn:Hbi; [|done|done|done].
    rewrite (Hb _ _ Hbi). simpl.
    destruct (decide (ap <= bi)) as [Hle|Hle].
    + rewrite bool_decide_eq_true_2 by done.
      destruct (int_of (p + 1)) as [x_min'| | |] eqn:Hx; [|done|done|done].
      rewrite (int_of_wrap32 _ _ Hx). apply int_of_Ok_inv in Hx as [-> _]. simpl.
      apply IH; [done | lia].
    + rewrite bool_decide_eq_false_2 by done. apply IH; [done | lia].
Qed.

Lemma counting_subscript32_checked i v :
  counting_subscript {| val := 0 |} i = Ok v ->
  counting_subscript32 {| val := 0 |} i = Ok v.
Proof.
  unfold counting_subscript, counting_subscript32, add_int. intros H.
  by rewrite (int_of_wrap32 _ _ H).
Qed.

Lemma MergePathSearch32_checked (fuel : nat) diagonal a b b' a_len b_len c :
  (forall i v, b i = Ok v -> b' i = Ok v) ->
  (Z.to_nat a_len <= fuel)%nat ->
  MergePathSearch diagonal a b a_len b_len = Ok c ->
  MergePathSearch32 fuel diagonal a b' a_len b_len = Some (Ok c).
Proof.
  intros Hb Hfuel. unfold MergePathSearch, MergePathSearch32, sub_int.
  destruct (int_of (diagonal - b_len)) as [d| | |] eqn:Hd; [|done|done|done].
  rewrite (int_of_wrap32 _ _ Hd). apply int_of_Ok_inv in Hd as [-> _]. simpl.
  destruct (search_loop a b diagonal (Z.max (diagonal - b_len) 0) (Z.min diagonal a_len))
    as [r| | |] eqn:Hr; [|done|done|done].
  rewrite (search_loop32_checked a b b' diagonal fuel (Z.max (diagonal - b_len) 0)
             (Z.min diagonal a_len) r Hb ltac:(lia) Hr). simpl.
  destruct (int_of (diagonal - r)) as [y'| | |] eqn:Hy; [|done|done|done].
  rewrite (int_of_wrap32 _ _ Hy). apply int_of_Ok_inv in Hy as [-> _]. simpl.
  by intros [= <-].
Qed.

Lemma items_per_thread32_checked P m nnz q :
  items_per_thread P m nnz = Ok q ->
  num_merge_items32 m nnz = m + nnz /\ items_per_thread32 P m nnz = q.
Proof.
  unfold items_per_thread, items_per_thread32, num_merge_items, num_merge_items32,
    add_int, sub_int, div_int.
  destruct (int_of (m + nnz)) as [M| | |] eqn:HM; [|done|done|done].
  rewrite (int_of_wrap32 _ _ HM). apply int_of_Ok_inv in HM as [-> _]. simpl.
  destruct (int_of (m + nnz + P)) as [s| | |] eqn:Hs; [|done|done|done].
  rewrite (int_of_wrap32 _ _ Hs). apply int_of_Ok_inv in Hs as [-> _]. simpl.
  destruct (int_of (m + nnz + P - 1)) as [s'| | |] eqn:Hs'; [|done|done|done].
  rewrite (int_of_wrap32 _ _ Hs'). apply int_of_Ok_inv in Hs' as [-> _]. simpl.
  destruct (P =? 0); [done|]. intros Hq. by rewrite (int_of_wrap32 _ _ Hq).
Qed.

Lemma start_diagonal32_checked P m nnz tid d :
  start_diagonal P m nnz tid = Ok d -> start_diagonal32 P m nnz tid = d.
Proof.
  unfold start_diagonal, start_diagonal32.
  destruct (num_merge_items m nnz) as [M| | |] eqn:HM; [|done|done|done]. simpl.
  destruct (items_per_thread P m nnz) as [q| | |] eqn:Hq; [|done|done|done]. simpl.
  apply items_per_thread32_checked in Hq as [-> ->].
  unfold num_merge_items, add_int in HM. apply int_of_Ok_inv in HM as [-> _].
  unfold mul_int. destruct (int_of (q * tid)) as [p| | |] eqn:Hp; [|done|done|done].
  rewrite (int_of_wrap32 _ _ Hp). simpl. by intros [= <-].
Qed.

Lemma end_diagonal32_checked P m nnz tid d :
  end_diagonal P m nnz tid = Ok d -> end_diagonal32 P m nnz tid = d.
Proof.
  unfold end_diagonal, end_diagonal32.
  destruct (num_merge_items m nnz) as [M| | |] eqn:HM; [|done|done|done]. simpl.
  destruct (items_per_thread P m nnz) as [q| | |] eqn:Hq; [|done|done|done]. simpl.
  destruct (start_diagonal P m nnz tid) as [sd| | |] eqn:Hsd; [|done|done|done]. simpl.
  rewrite (start_diagonal32_checked _ _ _ _ _ Hsd).
  apply items_per_thread32_checked in Hq as [-> ->].
  unfold num_merge_items, add_int in HM. apply int_of_Ok_inv in HM as [-> _].
  unfold add_int. destruct (int_of (sd + q)) as [p| | |] eqn:Hp; [|done|done|done].
  rewrite (int_of_wrap32 _ _ Hp). simpl. by intros [= <-].
Qed.

Lemma partition_thread32_checked (fuel : nat) P m nnz row_offsets tid st st' :
  (Z.to_nat m <= fuel)%nat ->
  partition_thread P m nnz row_offsets tid st = Ok st' ->
  partition_thread32 fuel P m nnz row_offsets tid st = Some (Ok st').
Proof.
  intros Hfuel. destruct st as [tc tce]. unfold partition_thread, partition_thread32.
  destruct (start_diagonal P m nnz tid) as [sd| | |] eqn:Hsd; [|done|done|done]. simpl.
  destruct (end_diagonal P m nnz tid) as [ed| | |] eqn:Hed; [|done|done|done]. simpl.
  rewrite (start_diagonal32_checked _ _ _ _ _ Hsd), (end_diagonal32_checked _ _ _ _ _ Hed).
  destruct (MergePathSearch sd _ _ m nnz) as [c| | |] eqn:Hc; [|done|done|done].
  rewrite (MergePathSearch32_checked fuel sd _ _ (counting_subscript32 {| val := 0 |})
             m nnz c counting_subscript32_checked Hfuel Hc). simpl.
  destruct (write A_thread_coords tc tid c) as [tc'| | |]; [|done|done|done]. simpl.
  destruct (MergePathSearch ed _ _ m nnz) as [c'| | |] eqn:Hc'; [|done|done|done].
  rewrite (MergePathSearch32_checked fuel ed _ _ (counting_subscript32 {| val := 0 |})
             m nnz c' counting_subscript32_checked Hfuel Hc'). simpl.
  destruct (write A_thread_coord_ends tce tid c') as [tce'| | |]; [|done|done|done].
  simpl. by intros [= <-].
Qed.

(** Where the checked partitioner ends normally, the partitioner that wraps
    ends with the same two arrays, given [num_rows] iterations for each
    search. *)
Lemma OmpMergePartitionMatrix32_checked (fuel : nat) P m nnz row_offsets tc0 tce0 res :
  (Z.to_nat m <= fuel)%nat ->
  OmpMergePartitionMatrix P m nnz row_offsets tc0 tce0 = Ok res ->
  OmpMergePartitionMatrix32 fuel P m nnz row_offsets tc0 tce0 = Some (Ok res).
Proof.
  intros Hfuel. unfold OmpMergePartitionMatrix, OmpMergePartitionMatrix32, for_loop.
  generalize (Z.to_nat (P - 0)) as n. generalize 0 as lo. generalize (tc0, tce0) as st.
  intros st lo n. revert st lo. induction n as [|n IH]; intros st lo; simpl.
  - by intros [= <-].
  - destruct (partition_thread P m nnz row_offsets lo st) as [st'| | |] eqn:Hst;
      [|done|done|done].
    rewrite (partition_thread32_checked fuel _ _ _ _ _ _ _ Hfuel Hst). simpl. apply IH.
Qed.

(** * Part IV: further properties of the code *)

(** ** The search on any two arrays *)

Lemma search_loop_local (A B : Z -> Z) (a b : iterator) diagonal : forall x_min x_max,
  x_min <= x_max ->
  (forall i, x_min <= i < x_max -> a i = Ok (A i)) ->
  (forall i, x_min <= i < x_max -> b (diagonal - i - 1) = Ok (B (diagonal - i - 1))) ->
  exists r, search_loop_Z a b diagonal x_min x_max = Ok r /\
    x_min <= r <= x_max /\
    (x_min < r -> A (r - 1) <= B (diagonal - r)) /\
    (r < x_max -> B (diagonal - r - 1) < A r).
Proof.
  intros x_min x_max. remember (Z.to_nat (x_max - x_min)) as n eqn:Hn.
  revert x_min x_max Hn. induction n as [n IH] using lt_wf_ind.
  intros x_min x_max Hn Hle Ha Hb.
  rewrite search_loop_Z_eq. destruct (decide (x_min < x_max)) as [Hlt|Hge].
  - pose proof (pivot_of_bounds _ _ Hlt) as Hp.
    set (p := pivot_of_Z x_min x_max) in *.
    rewrite (Ha p) by lia. simpl. rewrite (Hb p) by lia. simpl.
    destruct (decide (A p <= B (diagonal - p - 1))) as [Hc|Hc].
    + destruct (IH (Z.to_nat (x_max - (p + 1))) ltac:(lia) (p + 1) x_max eq_refl
                  ltac:(lia)) as (r & -> & Hr & Hlo & Hhi).
      * intros i Hi. apply Ha. lia.
      * intros i Hi. apply Hb. lia.
      * exists r. split; [done|]. split; [lia|]. split; [|done].
        intros _. destruct (decide (p + 1 < r)) as [|Heq]; [auto|].
        replace r with (p + 1) by lia.
        replace (p + 1 - 1) with p by lia.
        replace (diagonal - (p + 1)) with (diagonal - p - 1) by lia. done.
    + destruct (IH (Z.to_nat (p - x_min)) ltac:(lia) x_min p eq_refl
                  ltac:(lia)) as (r & -> & Hr & Hlo & Hhi).
      * intros i Hi. apply Ha. lia.
      * intros i Hi. apply Hb. lia.
      * exists r. split; [done|]. split; [lia|]. split; [done|].
        intros _. destruct (decide (r < p)) as [|Heq]; [auto|].
        replace r with p by lia. lia.
  - exists x_min. split; [done|]. lia.
Qed.

(** X1. On any two arrays, sorted or not, with at most [2 ^ 30] items in
    [a] and at most [2 ^ 31 - 1] in both together, and any diagonal from
    [0] to the sum of their lengths, the search stays inside both arrays
    and inside [int], and returns a point of that diagonal inside the grid;
    the item before the cut of [a] is at most the item after the cut of
    [b], and the item before the cut of [b] is below the item after the cut
    of [a]. *)
Theorem MergePathSearch_in_bounds (a b : list Z) arr_a arr_b diagonal :
  Z.of_nat (length a) <= 2 ^ 30 ->
  Z.of_nat (length a) + Z.of_nat (length b) <= max_int ->
  0 <= diagonal <= Z.of_nat (length a) + Z.of_nat (length b) ->
  exists c,
    MergePathSearch diagonal (ptr_add arr_a a 0) (ptr_add arr_b b 0)
      (Z.of_nat (length a)) (Z.of_nat (length b)) = Ok c /\
    x c + y c = diagonal /\
    0 <= x c <= Z.of_nat (length a) /\
    0 <= y c <= Z.of_nat (length b) /\
    (0 < x c -> y c < Z.of_nat (length b) -> at_ 0 a (x c - 1) <= at_ 0 b (y c)) /\
    (0 < y c -> x c < Z.of_nat (length a) -> at_ 0 b (y c - 1) < at_ 0 a (x c)).
Proof.
  intros Hrows Hfit Hd. assert (2 ^ 30 = 1073741824) as H30 by reflexivity.
  rewrite (MergePathSearch_int diagonal _ _ (ptr_add arr_b b 0)) by (done || int_lia).
  unfold MergePathSearch_Z.
  set (la := Z.of_nat (length a)) in *. set (lb := Z.of_nat (length b)) in *.
  destruct (search_loop_local (at_ 0 a) (at_ 0 b) (ptr_add arr_a a 0) (ptr_add arr_b b 0)
              diagonal (Z.max (diagonal - lb) 0) (Z.min diagonal la))
    as (r & -> & Hr & Hlo & Hhi); [lia | | |].
  - intros i Hi. unfold ptr_add. rewrite Z.add_0_l. apply read_Ok. fold la. lia.
  - intros i Hi. unfold ptr_add. rewrite Z.add_0_l. apply read_Ok. fold lb. lia.
  - simpl. eexists. split; [done|]. simpl. rewrite Z.min_l by lia.
    split; [lia|]. split; [lia|]. split; [lia|]. split.
    + intros Hx Hy. apply Hlo. lia.
    + intros Hy Hx. specialize (Hhi ltac:(lia)). lia.
Qed.

Lemma MergePathSearch_in_bounds_witness :
  Z.of_nat (length [1; 4; 9]) <= 2 ^ 30 /\
  Z.of_nat (length [1; 4; 9]) + Z.of_nat (length [2; 3; 10]) <= max_int /\
  0 <= 3 <= Z.of_nat (length [1; 4; 9]) + Z.of_nat (length [2; 3; 10]) /\
  exists c,
    MergePathSearch 3 (ptr_add A_row_offsets [1; 4; 9] 0) (ptr_add A_column_indices [2; 3; 10] 0)
      (Z.of_nat (length [1; 4; 9])) (Z.of_nat (length [2; 3; 10])) = Ok c /\
    x c + y c = 3 /\
    0 <= x c <= Z.of_nat (length [1; 4; 9]) /\
    0 <= y c <= Z.of_nat (length [2; 3; 10]) /\
    (0 < x c -> y c < Z.of_nat (length [2; 3; 10]) ->
       at_ 0 [1; 4; 9] (x c - 1) <= at_ 0 [2; 3; 10] (y c)) /\
    (0 < y c -> x c < Z.of_nat (length [1; 4; 9]) ->
       at_ 0 [2; 3; 10] (y c - 1) < at_ 0 [1; 4; 9] (x c)).
Proof.
  split; [simpl; lia|]. split; [vm_compute; discriminate|]. split; [simpl; lia|].
  apply (MergePathSearch_in_bounds [1; 4; 9] [2; 3; 10] A_row_offsets A_column_indices 3);
    [simpl; lia | vm_compute; discriminate | simpl; lia].
Defined.

(** X2. On two sorted arrays, with at most [2 ^ 30] items in [a] and at
    most [2 ^ 31 - 1] in both together, the point returned cuts both so
    that every item before the cut of [a] is at most every item after the
    cut of [b], and every item before the cut of [b] is below every item
    after the cut of [a]: the items before the two cuts are the first
    [diagonal] items of the merge that takes [a] first on ties. *)
Theorem MergePathSearch_sorted_split (a b : list Z) arr_a arr_b diagonal :
  nondecreasing a -> nondecreasing b ->
  Z.of_nat (length a) <= 2 ^ 30 ->
  Z.of_nat (length a) + Z.of_nat (length b) <= max_int ->
  0 <= diagonal <= Z.of_nat (length a) + Z.of_nat (length b) ->
  exists c,
    MergePathSearch diagonal (ptr_add arr_a a 0) (ptr_add arr_b b 0)
      (Z.of_nat (length a)) (Z.of_nat (length b)) = Ok c /\
    x c + y c = diagonal /\
    (forall i j, 0 <= i < x c -> y c <= j < Z.of_nat (length b) ->
                 at_ 0 a i <= at_ 0 b j) /\
    (forall i j, x c <= i < Z.of_nat (length a) -> 0 <= j < y c ->
                 at_ 0 b j < at_ 0 a i).
Proof.
  intros Ha Hb Hrows Hfit Hd. assert (2 ^ 30 = 1073741824) as H30 by reflexivity.
  rewrite (MergePathSearch_int diagonal _ _ (ptr_add arr_b b 0)) by (done || int_lia).
  unfold MergePathSearch_Z.
  set (la := Z.of_nat (length a)) in *. set (lb := Z.of_nat (length b)) in *.
  destruct (search_loop_local (at_ 0 a) (at_ 0 b) (ptr_add arr_a a 0) (ptr_add arr_b b 0)
              diagonal (Z.max (diagonal - lb) 0) (Z.min diagonal la))
    as (r & -> & Hr & Hlo & Hhi); [lia | | |].
  - intros i Hi. unfold ptr_add. rewrite Z.add_0_l. apply read_Ok. fold la. lia.
  - intros i Hi. unfold ptr_add. rewrite Z.add_0_l. apply read_Ok. fold lb. lia.
  - simpl. eexists. split; [done|]. simpl. rewrite Z.min_l by lia.
    split; [lia|]. split.
    + intros i j Hi Hj.
      pose proof (Ha i (r - 1) ltac:(lia) ltac:(fold la; lia)).
      pose proof (Hb (diagonal - r) j ltac:(lia) ltac:(fold lb; lia)).
      specialize (Hlo ltac:(lia)). lia.
    + intros i j Hi Hj.
      pose proof (Ha r i ltac:(lia) ltac:(fold la; lia)).
      pose proof (Hb j (diagonal - r - 1) ltac:(lia) ltac:(fold lb; lia)).
      specialize (Hhi ltac:(lia)). lia.
Qed.

Lemma nondecreasing_b_true (l : list Z) :
  forallb (fun i => at_ 0 l i <=? at_ 0 l (i + 1)) (seqZ 0 (Z.of_nat (length l) - 1)) = true ->
  nondecreasing l.
Proof.
  intros H i j Hij Hj.
  replace j with (i + Z.of_nat (Z.to_nat (j - i))) in * by lia.
  induction (Z.to_nat (j - i)) as [|d IH].
  - rewrite Z.add_0_r. lia.
  - pose proof (range_forallb _ _ _ H (i + Z.of_nat d) ltac:(lia)) as Hs. simpl in Hs.
    replace (i + Z.of_nat (S d)) with (i + Z.of_nat d + 1) by lia.
    specialize (IH ltac:(lia) ltac:(lia)). lia.
Qed.

Lemma MergePathSearch_sorted_split_witness :
  nondecreasing [1; 4; 9] /\ nondecreasing [2; 3; 10] /\
  Z.of_nat (length [1; 4; 9]) <= 2 ^ 30 /\
  Z.of_nat (length [1; 4; 9]) + Z.of_nat (length [2; 3; 10]) <= max_int /\
  0 <= 3 <= Z.of_nat (length [1; 4; 9]) + Z.of_nat (length [2; 3; 10]) /\
  exists c,
    MergePathSearch 3 (ptr_add A_row_offsets [1; 4; 9] 0) (ptr_add A_column_indices [2; 3; 10] 0)
      (Z.of_nat (length [1; 4; 9])) (Z.of_nat (length [2; 3; 10])) = Ok c /\
    x c + y c = 3 /\
    (forall i j, 0 <= i < x c -> y c <= j < Z.of_nat (length [2; 3; 10]) ->
                 at_ 0 [1; 4; 9] i <= at_ 0 [2; 3; 10] j) /\
    (forall i j, x c <= i < Z.of_nat (length [1; 4; 9]) -> 0 <= j < y c ->
                 at_ 0 [2; 3; 10] j < at_ 0 [1; 4; 9] i).
Proof.
  assert (nondecreasing [1; 4; 9]) as Ha by (apply nondecreasing_b_true; reflexivity).
  assert (nondecreasing [2; 3; 10]) as Hb by (apply nondecreasing_b_true; reflexivity).
  split; [exact Ha|]. split; [exact Hb|].
  split; [simpl; lia|]. split; [vm_compute; discriminate|]. split; [simpl; lia|].
  apply (MergePathSearch_sorted_split [1; 4; 9] [2; 3; 10] A_row_offsets A_column_indices 3
           Ha Hb); [simpl; lia | vm_compute; discriminate | simpl; lia].
Defined.



(** ** The merge path of a CSR matrix, step by step *)

(** X4. The points the search returns on consecutive diagonals of a
    well-formed matrix with [m + nnz <= 2 ^ 31 - 1] and [m <= 2 ^ 30] are
    one step apart: the next point is one row down when the nonzeros of the
    current row are used up (so rows without nonzeros are passed at once),
    and one nonzero on otherwise. *)
Theorem MergePathSearch_step m nnz row_offsets d :
  wf_row_offsets m nnz row_offsets ->
  m + nnz <= max_int -> m <= 2 ^ 30 ->
  0 <= d < m + nnz ->
  exists c,
    MergePathSearch d (ptr_add A_row_offsets row_offsets 1)
      (counting_subscript {| val := 0 |}) m nnz = Ok c /\
    MergePathSearch (d + 1) (ptr_add A_row_offsets row_offsets 1)
      (counting_subscript {| val := 0 |}) m nnz = Ok (path_step m row_offsets c).
Proof.
  intros Hwf Hfit Hrows Hd.
  pose proof (wf_rows _ _ _ Hwf). pose proof (wf_nnz _ _ _ Hwf).
  rewrite !path_search_int by lia.
  destruct (MergePathSearch_on_path m nnz row_offsets Hwf d ltac:(lia))
    as (c & Hc & Hsum & Hpath & _).
  destruct (MergePathSearch_on_path m nnz row_offsets Hwf (d + 1) ltac:(lia))
    as (c' & Hc' & Hsum' & Hpath' & _).
  exists c. split; [exact Hc|]. unfold list_a, list_b in Hc'. rewrite Hc'. f_equal.
  apply (on_path_unique m nnz row_offsets Hwf); [done | |].
  - destruct Hpath as [Hx Hy Hlo Hhi]. unfold path_step.
    destruct ((x c <? m) && (y c =? ro_at row_offsets (x c + 1))) eqn:Hb.
    + apply andb_true_iff in Hb as [Hb1 Hb2].
      apply Z.ltb_lt in Hb1. apply Z.eqb_eq in Hb2.
      split; simpl; [lia | lia | lia |].
      intros Hm. pose proof (wf_step _ _ _ Hwf (x c + 1) ltac:(lia)). lia.
    + apply andb_false_iff in Hb.
      assert (x c = m \/ (x c < m /\ y c < ro_at row_offsets (x c + 1))) as Hcase.
      { destruct Hb as [Hb|Hb]; [apply Z.ltb_ge in Hb; left; lia|].
        apply Z.eqb_neq in Hb. destruct (decide (x c = m)); [by left|].
        right. split; [lia|]. specialize (Hhi ltac:(lia)). lia. }
      split; simpl; [lia | | lia |].
      * destruct Hcase as [Hm|[Hm Hlt]]; [lia|].
        pose proof (ro_range m nnz row_offsets Hwf (x c + 1) ltac:(lia)). lia.
      * intros Hm. destruct Hcase as [?|[_ Hlt]]; lia.
  - unfold path_step. destruct (_ && _); simpl; lia.
Qed.

Lemma MergePathSearch_step_witness :
  wf_row_offsets 4 6 ex_row_offsets /\
  4 + 6 <= max_int /\ 4 <= 2 ^ 30 /\ 0 <= 0 < 4 + 6 /\
  exists c,
    MergePathSearch 0 (ptr_add A_row_offsets ex_row_offsets 1)
      (counting_subscript {| val := 0 |}) 4 6 = Ok c /\
    MergePathSearch (0 + 1) (ptr_add A_row_offsets ex_row_offsets 1)
      (counting_subscript {| val := 0 |}) 4 6 = Ok (path_step 4 ex_row_offsets c).
Proof.
  assert (wf_row_offsets 4 6 ex_row_offsets) as Hwf
    by (apply wf_row_offsets_b_true; reflexivity).
  split; [exact Hwf|]. split; [vm_compute; discriminate|]. split; [lia|]. split; [lia|].
  apply (MergePathSearch_step 4 6 ex_row_offsets 0 Hwf);
    [vm_compute; discriminate | lia | lia].
Defined.

(** ** More on the partition *)

(** X5. While [m + nnz + P <= 2 ^ 31 - 1] and [m <= 2 ^ 30], every
    coordinate the partitioner stores lies on the merge path:
    [0 <= i <= m], [0 <= j <= nnz], [row_offsets[i] <= j], and
    [j <= row_offsets[i + 1]] when [i < m]; and every thread's range runs
    forward in both coordinates. *)
Theorem partition_on_path P m nnz row_offsets tc0 tce0 :
  wf_row_offsets m nnz row_offsets ->
  1 <= P ->
  m + nnz + P <= max_int -> m <= 2 ^ 30 ->
  Z.of_nat (length tc0) = P -> Z.of_nat (length tce0) = P ->
  exists thread_coords thread_coord_ends,
    OmpMergePartitionMatrix P m nnz row_offsets tc0 tce0
      = Ok (thread_coords, thread_coord_ends) /\
    forall t, 0 <= t < P ->
      on_path m nnz row_offsets (coord_at thread_coords t) /\
      on_path m nnz row_offsets (coord_at thread_coord_ends t) /\
      x (coord_at thread_coords t) <= x (coord_at thread_coord_ends t) /\
      y (coord_at thread_coords t) <= y (coord_at thread_coord_ends t).
Proof.
  intros Hwf HP Hfit Hrows Hl Hl'.
  destruct (OmpMergePartitionMatrix_partitioned P m nnz row_offsets tc0 tce0 Hwf HP Hfit
              Hrows Hl Hl')
    as (tc & tce & Hrun & Hp).
  exists tc, tce. split; [done|]. intros t Ht.
  destruct (partitioned_on_path P m nnz row_offsets Hwf HP tc tce t Hp Ht)
    as (Hs & _ & He & _).
  destruct (partitioned_in_range P m nnz row_offsets Hwf HP tc tce Hp) as (_ & _ & Hr).
  specialize (Hr t Ht). split; [done|]. split; [done|]. lia.
Qed.

Lemma partition_on_path_witness :
  wf_row_offsets 4 6 ex_row_offsets /\ 1 <= 3 /\
  4 + 6 + 3 <= max_int /\ 4 <= 2 ^ 30 /\
  Z.of_nat (length ex_fresh_coords) = 3 /\
  exists thread_coords thread_coord_ends,
    OmpMergePartitionMatrix 3 4 6 ex_row_offsets ex_fresh_coords ex_fresh_coords
      = Ok (thread_coords, thread_coord_ends) /\
    forall t, 0 <= t < 3 ->
      on_path 4 6 ex_row_offsets (coord_at thread_coords t) /\
      on_path 4 6 ex_row_offsets (coord_at thread_coord_ends t) /\
      x (coord_at thread_coords t) <= x (coord_at thread_coord_ends t) /\
      y (coord_at thread_coords t) <= y (coord_at thread_coord_ends t).
Proof.
  assert (wf_row_offsets 4 6 ex_row_offsets) as Hwf
    by (apply wf_row_offsets_b_true; reflexivity).
  split; [exact Hwf|]. split; [lia|].
  split; [vm_compute; discriminate|]. split; [lia|]. split; [reflexivity|].
  apply (partition_on_path 3 4 6 ex_row_offsets ex_fresh_coords ex_fresh_coords Hwf);
    [lia | vm_compute; discriminate | lia | reflexivity | reflexivity].
Defined.

(** X6. Load balance, while [m + nnz + P <= 2 ^ 31 - 1] and
    [m <= 2 ^ 30]: with [q] the ceiling of [(m + nnz) / P], no thread
    gets more than [q] merge items (rows closed plus nonzeros), a thread
    whose share fits before the end of the path gets exactly [q], and a
    thread that starts at or after the end gets the empty range at
    [(m, nnz)]. *)
Theorem partition_load_balance P m nnz row_offsets tc0 tce0 q :
  wf_row_offsets m nnz row_offsets ->
  1 <= P ->
  m + nnz + P <= max_int -> m <= 2 ^ 30 ->
  Z.of_nat (length tc0) = P -> Z.of_nat (length tce0) = P ->
  (q - 1) * P < m + nnz <= q * P ->
  exists thread_coords thread_coord_ends,
    OmpMergePartitionMatrix P m nnz row_offsets tc0 tce0
      = Ok (thread_coords, thread_coord_ends) /\
    forall t, 0 <= t < P ->
      let items := (x (coord_at thread_coord_ends t) + y (coord_at thread_coord_ends t))
                   - (x (coord_at thread_coords t) + y (coord_at thread_coords t)) in
      0 <= items <= q /\
      (q * (t + 1) <= m + nnz -> items = q) /\
      (m + nnz <= q * t ->
       coord_at thread_coords t = {| x := m; y := nnz |} /\
       coord_at thread_coord_ends t = {| x := m; y := nnz |}).
Proof.
  intros Hwf HP Hfit Hrows Hl Hl' Hq.
  pose proof (wf_rows _ _ _ Hwf). pose proof (wf_nnz _ _ _ Hwf).
  destruct (OmpMergePartitionMatrix_partitioned P m nnz row_offsets tc0 tce0 Hwf HP Hfit
              Hrows Hl Hl')
    as (tc & tce & Hrun & Hp).
  exists tc, tce. split; [done|]. intros t Ht.
  destruct (partitioned_on_path P m nnz row_offsets Hwf HP tc tce t Hp Ht)
    as ([Hsx Hsy _ _] & Hs & [Hex Hey _ _] & He).
  pose proof (ceil_unique P m nnz HP ltac:(lia) q Hq) as Hqq.
  pose proof (items_per_thread_nonneg P m nnz HP ltac:(lia)) as Hq0.
  cbv zeta. rewrite Hs, He.
  unfold end_diagonal_Z, start_diagonal_Z, num_merge_items_Z in *. rewrite <- Hqq in *.
  split; [nia|]. split; [intros Hshare; nia|].
  intros Hpast.
  assert (x (coord_at tc t) + y (coord_at tc t) = m + nnz) as Hs' by nia.
  assert (x (coord_at tce t) + y (coord_at tce t) = m + nnz) as He' by nia.
  destruct (coord_at tc t) as [sx sy], (coord_at tce t) as [ex ey]. simpl in *.
  split; f_equal; lia.
Qed.

Lemma partition_load_balance_witness :
  wf_row_offsets 4 6 ex_row_offsets /\ 1 <= 3 /\
  4 + 6 + 3 <= max_int /\ 4 <= 2 ^ 30 /\
  Z.of_nat (length ex_fresh_coords) = 3 /\
  (4 - 1) * 3 < 4 + 6 <= 4 * 3 /\
  exists thread_coords thread_coord_ends,
    OmpMergePartitionMatrix 3 4 6 ex_row_offsets ex_fresh_coords ex_fresh_coords
      = Ok (thread_coords, thread_coord_ends) /\
    forall t, 0 <= t < 3 ->
      let items := (x (coord_at thread_coord_ends t) + y (coord_at thread_coord_ends t))
                   - (x (coord_at thread_coords t) + y (coord_at thread_coords t)) in
      0 <= items <= 4 /\
      (4 * (t + 1) <= 4 + 6 -> items = 4) /\
      (4 + 6 <= 4 * t ->
       coord_at thread_coords t = {| x := 4; y := 6 |} /\
       coord_at thread_coord_ends t = {| x := 4; y := 6 |}).
Proof.
  assert (wf_row_offsets 4 6 ex_row_offsets) as Hwf
    by (apply wf_row_offsets_b_true; reflexivity).
  split; [exact Hwf|]. split; [lia|].
  split; [vm_compute; discriminate|]. split; [lia|]. split; [reflexivity|]. split; [lia|].
  apply (partition_load_balance 3 4 6 ex_row_offsets ex_fresh_coords ex_fresh_coords 4 Hwf);
    [lia | vm_compute; discriminate | lia | reflexivity | reflexivity | lia].
Defined.

(** X7. While [m + nnz + P <= 2 ^ 31 - 1] and [m <= 2 ^ 30], the
    partitioner stores all [P] cells of both arrays: its result is the same
    whatever the two arrays held on entry. *)
Theorem partition_overwrites P m nnz row_offsets tc0 tce0 tc0' tce0' :
  wf_row_offsets m nnz row_offsets ->
  1 <= P ->
  m + nnz + P <= max_int -> m <= 2 ^ 30 ->
  Z.of_nat (length tc0) = P -> Z.of_nat (length tce0) = P ->
  Z.of_nat (length tc0') = P -> Z.of_nat (length tce0') = P ->
  exists thread_coords thread_coord_ends,
    OmpMergePartitionMatrix P m nnz row_offsets tc0 tce0
      = Ok (thread_coords, thread_coord_ends) /\
    OmpMergePartitionMatrix P m nnz row_offsets tc0' tce0'
      = Ok (thread_coords, thread_coord_ends).
Proof.
  intros Hwf HP Hfit Hrows Hl1 Hl2 Hl1' Hl2'.
  destruct (OmpMergePartitionMatrix_partitioned P m nnz row_offsets tc0 tce0 Hwf HP Hfit
              Hrows Hl1 Hl2)
    as (tc & tce & Hrun & Hla & Hlb & Hp).
  destruct (OmpMergePartitionMatrix_partitioned P m nnz row_offsets tc0' tce0' Hwf HP Hfit
              Hrows Hl1' Hl2')
    as (tc' & tce' & Hrun' & Hla' & Hlb' & Hp').
  exists tc, tce. split; [done|]. rewrite Hrun'. f_equal. f_equal.
  - apply (at_ext {| x := 0; y := 0 |}); [lia|]. intros t Ht.
    destruct (Hp t ltac:(lia)) as [H1 _]. destruct (Hp' t ltac:(lia)) as [H1' _]. congruence.
  - apply (at_ext {| x := 0; y := 0 |}); [lia|]. intros t Ht.
    destruct (Hp t ltac:(lia)) as [_ H2]. destruct (Hp' t ltac:(lia)) as [_ H2']. congruence.
Qed.

Lemma partition_overwrites_witness :
  wf_row_offsets 4 6 ex_row_offsets /\ 1 <= 3 /\
  4 + 6 + 3 <= max_int /\ 4 <= 2 ^ 30 /\
  exists thread_coords thread_coord_ends,
    OmpMergePartitionMatrix 3 4 6 ex_row_offsets ex_fresh_coords ex_fresh_coords
      = Ok (thread_coords, thread_coord_ends) /\
    OmpMergePartitionMatrix 3 4 6 ex_row_offsets ex_thread_coord_ends ex_thread_coords
      = Ok (thread_coords, thread_coord_ends).
Proof.
  assert (wf_row_offsets 4 6 ex_row_offsets) as Hwf
    by (apply wf_row_offsets_b_true; reflexivity).
  split; [exact Hwf|]. split; [lia|].
  split; [vm_compute; discriminate|]. split; [lia|].
  apply (partition_overwrites 3 4 6 ex_row_offsets ex_fresh_coords ex_fresh_coords
           ex_thread_coord_ends ex_thread_coords Hwf);
    [lia | vm_compute; discriminate | lia | reflexivity | reflexivity | reflexivity | reflexivity].
Defined.

(** X8. While [m + nnz + P <= 2 ^ 31 - 1] and [m <= 2 ^ 30], the
    iterations of the partitioner's parallel loop can run in any order:
    every order of the threads [0 .. P - 1] leaves the two arrays as the
    ascending order does. *)
Theorem partition_any_schedule P m nnz row_offsets order tc0 tce0 :
  wf_row_offsets m nnz row_offsets ->
  1 <= P ->
  m + nnz + P <= max_int -> m <= 2 ^ 30 ->
  order ≡ₚ seqZ 0 P ->
  Z.of_nat (length tc0) = P -> Z.of_nat (length tce0) = P ->
  run_in_order order (partition_thread P m nnz row_offsets) (tc0, tce0)
  = OmpMergePartitionMatrix P m nnz row_offsets tc0 tce0.
Proof.
  intros Hwf HP Hfit Hrows Hperm Hl Hl'.
  pose proof (wf_rows _ _ _ Hwf). pose proof (wf_nnz _ _ _ Hwf).
  rewrite (partition_run_in_order_int P m nnz) by (done || lia).
  rewrite OmpMergePartitionMatrix_int by lia.
  by apply (OmpMergePartitionMatrix_any_order P m nnz row_offsets Hwf HP).
Qed.

Lemma partition_any_schedule_witness :
  wf_row_offsets 4 6 ex_row_offsets /\ 1 <= 3 /\
  4 + 6 + 3 <= max_int /\ 4 <= 2 ^ 30 /\ [2; 0; 1] ≡ₚ seqZ 0 3 /\
  run_in_order [2; 0; 1] (partition_thread 3 4 6 ex_row_offsets)
    (ex_fresh_coords, ex_fresh_coords)
  = OmpMergePartitionMatrix 3 4 6 ex_row_offsets ex_fresh_coords ex_fresh_coords.
Proof.
  assert (wf_row_offsets 4 6 ex_row_offsets) as Hwf
    by (apply wf_row_offsets_b_true; reflexivity).
  assert ([2; 0; 1] ≡ₚ seqZ 0 3) as Hperm.
  { change (seqZ 0 3) with [0; 1; 2].
    apply (Permutation_cons_app [0; 1] [] 2). reflexivity. }
  split; [exact Hwf|]. split; [lia|].
  split; [vm_compute; discriminate|]. split; [lia|]. split; [exact Hperm|].
  apply (partition_any_schedule 3 4 6 ex_row_offsets [2; 0; 1] ex_fresh_coords
           ex_fresh_coords Hwf);
    [lia | vm_compute; discriminate | lia | exact Hperm | reflexivity | reflexivity].
Defined.

(** ** More on the kernel *)

Lemma on_path_b_true m nnz row_offsets c :
  on_path_b m nnz row_offsets c = true -> on_path m nnz row_offsets c.
Proof.
  unfold on_path_b. rewrite !andb_true_iff, orb_true_iff.
  intros [[[[[H1 H2] H3] H4] H5] H6]. split; lia.
Qed.

Lemma int2_eqb_true c c' : int2_eqb c c' = true -> c = c'.
Proof.
  unfold int2_eqb. rewrite andb_true_iff. intros [H1 H2].
  destruct c, c'. simpl in *. f_equal; lia.
Qed.

Lemma path_partition_b_true P m nnz row_offsets tc tce :
  path_partition_b P m nnz row_offsets tc tce = true ->
  path_partition P m nnz row_offsets tc tce.
Proof.
  unfold path_partition_b. rewrite !andb_true_iff.
  intros [[[[H1 H2] H3] H4] H5]. split.
  - by apply coords_in_range_b_true.
  - intros t Ht. pose proof (range_forallb _ _ _ H2 t ltac:(lia)) as H. simpl in H.
    apply andb_true_iff in H as [H _]. by apply on_path_b_true.
  - intros t Ht. pose proof (range_forallb _ _ _ H2 t ltac:(lia)) as H. simpl in H.
    apply andb_true_iff in H as [_ H]. by apply on_path_b_true.
  - by apply int2_eqb_true.
  - by apply int2_eqb_true.
  - intros t Ht. pose proof (range_forallb _ _ _ H5 t ltac:(lia)) as H. simpl in H.
    by apply int2_eqb_true.
Qed.

Section KernelMore.
Context {ValueT : Type}.
Variables (zero : ValueT) (add mul : ValueT -> ValueT -> ValueT).
Variables (m n nnz : Z).
Variables (row_offsets column_indices : list Z) (values vector_x : list ValueT).
Hypothesis Hcsr : wf_csr m n nnz row_offsets column_indices values vector_x.

(** On a partition of the path, and with exact arithmetic, every cell of
    the kernel's output is the row sum. *)
Lemma kernel_row_sums tc tce P junk_row junk_value y0 :
  exact_add zero add -> 1 <= P <= 256 ->
  path_partition P m nnz row_offsets tc tce ->
  Z.of_nat (length y0) = m ->
  exists y2,
    OmpMergeCsrmv zero add mul m row_offsets column_indices values vector_x
      tc tce P junk_row junk_value y0 = Ok y2 /\
    Z.of_nat (length y2) = m /\
    forall k, 0 <= k < m ->
      at_ zero y2 k = row_sum zero add mul row_offsets column_indices values vector_x k.
Proof.
  intros Hadd HP Hpp Hl.
  destruct (OmpMergeCsrmv_spec zero add mul m n nnz row_offsets column_indices values
              vector_x tc tce P Hcsr (pp_range _ _ _ _ _ _ Hpp) junk_row junk_value y0
              HP Hl) as (y2 & Hrun & Hlen & Hcells).
  exists y2. split; [done|]. split; [done|]. intros k Hk. rewrite Hcells by done.
  apply (stitched_row zero add mul m n nnz row_offsets column_indices values vector_x
           tc tce P Hcsr ltac:(lia) Hpp Hadd). done.
Qed.

(** The vector of the row sums. *)
Lemma gold_vector y0 :
  Z.of_nat (length y0) = m ->
  exists yg,
    SpmvGold zero add mul m row_offsets column_indices values vector_x y0 = Ok yg /\
    Z.of_nat (length yg) = m /\
    (forall k, 0 <= k < m ->
       at_ zero yg k = row_sum zero add mul row_offsets column_indices values vector_x k) /\
    forall y, Z.of_nat (length y) = m ->
      (forall k, 0 <= k < m ->
         at_ zero y k = row_sum zero add mul row_offsets column_indices values vector_x k) ->
      y = yg.
Proof.
  intros Hl.
  destruct (SpmvGold_spec zero add mul m n nnz row_offsets column_indices values
              vector_x Hcsr y0 Hl) as (yg & Hgold & Hleng & Hcells).
  exists yg. split; [done|]. split; [done|]. split; [done|].
  intros y Hly Hy. apply (at_ext zero); [lia|].
  intros k Hk. rewrite Hy, Hcells by lia. done.
Qed.

Lemma written_none tc tce (i : nat) k v0 :
  (forall t, 0 <= t < Z.of_nat i -> ~ writes tc tce t k) ->
  written zero add mul row_offsets column_indices values vector_x tc tce i k v0 = v0.
Proof.
  induction i as [|i IH]; intros Hno; [done|]. simpl.
  destruct (decide _) as [Hw|]; [exfalso; apply (Hno (Z.of_nat i)); [lia | done]|].
  apply IH. intros t Ht. apply Hno. lia.
Qed.

Lemma fixed_none (crow : Z -> Z) (cval : Z -> ValueT) (i : nat) k v :
  (forall t, 0 <= t < Z.of_nat i -> crow t <> k) ->
  fixed add crow cval i k v = v.
Proof.
  induction i as [|i IH]; intros Hno; [done|]. simpl.
  destruct (decide _) as [Hw|]; [exfalso; apply (Hno (Z.of_nat i)); [lia | done]|].
  apply IH. intros t Ht. apply Hno. lia.
Qed.
End KernelMore.

(** X9. The kernel is right on every partition of the merge path into
    consecutive pieces that are cut at points of the path, not only on the
    partitioner's equal shares: with exact arithmetic it gives the vector
    of [SpmvGold]. *)
Theorem OmpMergeCsrmv_any_path_partition {ValueT} (zero : ValueT) add mul
    m n nnz row_offsets column_indices values vector_x
    thread_coords thread_coord_ends P junk_row junk_value y0 y0' :
  exact_add zero add ->
  wf_csr m n nnz row_offsets column_indices values vector_x ->
  1 <= P <= 256 ->
  path_partition P m nnz row_offsets thread_coords thread_coord_ends ->
  Z.of_nat (length y0) = m -> Z.of_nat (length y0') = m ->
  exists vector_y,
    OmpMergeCsrmv zero add mul m row_offsets column_indices values vector_x
      thread_coords thread_coord_ends P junk_row junk_value y0 = Ok vector_y /\
    SpmvGold zero add mul m row_offsets column_indices values vector_x y0'
      = Ok vector_y.
Proof.
  intros Hadd Hcsr HP Hpp Hl Hl'.
  destruct (gold_vector zero add mul m n nnz row_offsets column_indices values vector_x
              Hcsr y0' Hl') as (yg & Hgold & _ & _ & Huniq).
  destruct (kernel_row_sums zero add mul m n nnz row_offsets column_indices values
              vector_x Hcsr thread_coords thread_coord_ends P junk_row junk_value y0
              Hadd HP Hpp Hl) as (y2 & Hrun & Hlen & Hcells).
  exists yg. split; [|done]. rewrite Hrun. f_equal. by apply Huniq.
Qed.

Lemma OmpMergeCsrmv_any_path_partition_witness :
  exact_add 0 Z.add /\
  wf_csr 4 6 6 ex_row_offsets ex_column_indices ex_values ex_vector_x /\
  1 <= 2 <= 256 /\
  path_partition 2 4 6 ex_row_offsets ex_uneven_coords ex_uneven_coord_ends /\
  exists vector_y,
    OmpMergeCsrmv 0 Z.add Z.mul 4 ex_row_offsets ex_column_indices ex_values ex_vector_x
      ex_uneven_coords ex_uneven_coord_ends 2 (fun _ => 77) (fun _ => 99) ex_fresh_y
      = Ok vector_y /\
    SpmvGold 0 Z.add Z.mul 4 ex_row_offsets ex_column_indices ex_values ex_vector_x
      [5; 5; 5; 5] = Ok vector_y.
Proof.
  assert (wf_csr 4 6 6 ex_row_offsets ex_column_indices ex_values ex_vector_x) as Hcsr
    by (apply wf_csr_b_true; reflexivity).
  assert (path_partition 2 4 6 ex_row_offsets ex_uneven_coords ex_uneven_coord_ends)
    as Hpp by (apply path_partition_b_true; reflexivity).
  split; [exact exact_add_Z|]. split; [exact Hcsr|]. split; [lia|]. split; [exact Hpp|].
  apply (OmpMergeCsrmv_any_path_partition 0 Z.add Z.mul 4 6 6 ex_row_offsets
           ex_column_indices ex_values ex_vector_x ex_uneven_coords ex_uneven_coord_ends 2
           (fun _ => 77) (fun _ => 99) ex_fresh_y [5; 5; 5; 5] exact_add_Z Hcsr);
    [lia | exact Hpp | reflexivity | reflexivity].
Defined.

(** X10. With exact arithmetic the output does not depend on the number of
    threads: while [m <= 2 ^ 30] and [m + nnz] plus either thread count is
    at most [2 ^ 31 - 1], the partitions for any two thread counts from 1
    to 256 give the same vector. *)
Theorem OmpMergeCsrmv_any_thread_count {ValueT} (zero : ValueT) add mul
    m n nnz row_offsets column_indices values vector_x
    P tc0 tce0 junk_row junk_value y0
    P' tc0' tce0' junk_row' junk_value' y0' :
  exact_add zero add ->
  wf_csr m n nnz row_offsets column_indices values vector_x ->
  1 <= P <= 256 -> 1 <= P' <= 256 ->
  m + nnz + P <= max_int -> m + nnz + P' <= max_int -> m <= 2 ^ 30 ->
  Z.of_nat (length tc0) = P -> Z.of_nat (length tce0) = P ->
  Z.of_nat (length tc0') = P' -> Z.of_nat (length tce0') = P' ->
  Z.of_nat (length y0) = m -> Z.of_nat (length y0') = m ->
  exists tc tce tc' tce' vector_y,
    OmpMergePartitionMatrix P m nnz row_offsets tc0 tce0 = Ok (tc, tce) /\
    OmpMergePartitionMatrix P' m nnz row_offsets tc0' tce0' = Ok (tc', tce') /\
    OmpMergeCsrmv zero add mul m row_offsets column_indices values vector_x
      tc tce P junk_row junk_value y0 = Ok vector_y /\
    OmpMergeCsrmv zero add mul m row_offsets column_indices values vector_x
      tc' tce' P' junk_row' junk_value' y0' = Ok vector_y.
Proof.
  intros Hadd Hcsr HP HP' Hfit Hfit' Hrows Hl1 Hl2 Hl1' Hl2' Hy Hy'.
  pose proof (wf_offsets _ _ _ _ _ _ _ Hcsr) as Hwf.
  destruct (OmpMergePartitionMatrix_partitioned P m nnz row_offsets tc0 tce0 Hwf
              ltac:(lia) Hfit Hrows Hl1 Hl2) as (tc & tce & Hrun & Hp).
  destruct (OmpMergePartitionMatrix_partitioned P' m nnz row_offsets tc0' tce0' Hwf
              ltac:(lia) Hfit' Hrows Hl1' Hl2') as (tc' & tce' & Hrun' & Hp').
  pose proof (partitioned_path_partition P m nnz row_offsets Hwf ltac:(lia) tc tce Hp)
    as Hpp.
  pose proof (partitioned_path_partition P' m nnz row_offsets Hwf ltac:(lia) tc' tce' Hp')
    as Hpp'.
  destruct (kernel_row_sums zero add mul m n nnz row_offsets column_indices values
              vector_x Hcsr tc tce P junk_row junk_value y0 Hadd HP Hpp Hy)
    as (y2 & Hk & Hlen & Hcells).
  destruct (kernel_row_sums zero add mul m n nnz row_offsets column_indices values
              vector_x Hcsr tc' tce' P' junk_row' junk_value' y0' Hadd HP' Hpp' Hy')
    as (y2' & Hk' & Hlen' & Hcells').
  exists tc, tce, tc', tce', y2. split; [done|]. split; [done|]. split; [done|].
  rewrite Hk'. f_equal. apply (at_ext zero); [lia|].
  intros k Hk0. rewrite Hcells', Hcells by lia. done.
Qed.

Lemma OmpMergeCsrmv_any_thread_count_witness :
  exact_add 0 Z.add /\
  wf_csr 4 6 6 ex_row_offsets ex_column_indices ex_values ex_vector_x /\
  1 <= 3 <= 256 /\ 1 <= 2 <= 256 /\
  4 + 6 + 3 <= max_int /\ 4 + 6 + 2 <= max_int /\ 4 <= 2 ^ 30 /\
  exists tc tce tc' tce' vector_y,
    OmpMergePartitionMatrix 3 4 6 ex_row_offsets ex_fresh_coords ex_fresh_coords
      = Ok (tc, tce) /\
    OmpMergePartitionMatrix 2 4 6 ex_row_offsets ex_uneven_coords ex_uneven_coords
      = Ok (tc', tce') /\
    OmpMergeCsrmv 0 Z.add Z.mul 4 ex_row_offsets ex_column_indices ex_values ex_vector_x
      tc tce 3 (fun _ => 77) (fun _ => 99) ex_fresh_y = Ok vector_y /\
    OmpMergeCsrmv 0 Z.add Z.mul 4 ex_row_offsets ex_column_indices ex_values ex_vector_x
      tc' tce' 2 (fun _ => 1) (fun _ => 2) [5; 5; 5; 5] = Ok vector_y.
Proof.
  assert (wf_csr 4 6 6 ex_row_offsets ex_column_indices ex_values ex_vector_x) as Hcsr
    by (apply wf_csr_b_true; reflexivity).
  split; [exact exact_add_Z|]. split; [exact Hcsr|]. split; [lia|]. split; [lia|].
  split; [vm_compute; discriminate|]. split; [vm_compute; discriminate|]. split; [lia|].
  apply (OmpMergeCsrmv_any_thread_count 0 Z.add Z.mul 4 6 6 ex_row_offsets
           ex_column_indices ex_values ex_vector_x
           3 ex_fresh_coords ex_fresh_coords (fun _ => 77) (fun _ => 99) ex_fresh_y
           2 ex_uneven_coords ex_uneven_coords (fun _ => 1) (fun _ => 2) [5; 5; 5; 5]
           exact_add_Z Hcsr);
    [lia | lia | vm_compute; discriminate | vm_compute; discriminate | lia
     | reflexivity | reflexivity | reflexivity | reflexivity | reflexivity
     | reflexivity].
Defined.

(** X11. The threads of the kernel's parallel loop can run in any order:
    on a partition of the path, every order of the threads [0 .. P - 1]
    leaves the output vector and the two carry arrays as the ascending
    order does (no law of the arithmetic is used). *)
Theorem kernel_any_schedule {ValueT} (zero : ValueT) add mul
    m n nnz row_offsets column_indices values vector_x
    thread_coords thread_coord_ends P order rc0 vc0 y0 :
  wf_csr m n nnz row_offsets column_indices values vector_x ->
  1 <= P <= 256 ->
  path_partition P m nnz row_offsets thread_coords thread_coord_ends ->
  order ≡ₚ seqZ 0 P ->
  Z.of_nat (length y0) = m ->
  Z.of_nat (length rc0) = 256 -> Z.of_nat (length vc0) = 256 ->
  run_in_order order
    (thread_body zero add mul row_offsets column_indices values vector_x
       thread_coords thread_coord_ends) (y0, rc0, vc0)
  = parallel_phase zero add mul row_offsets column_indices values vector_x
      thread_coords thread_coord_ends P rc0 vc0 y0.
Proof.
  intros Hcsr HP Hpp Hperm Hl Hlr Hlv.
  by apply (parallel_phase_any_order zero add mul m n nnz row_offsets column_indices
              values vector_x thread_coords thread_coord_ends P Hcsr HP Hpp).
Qed.

Lemma kernel_any_schedule_witness :
  wf_csr 4 6 6 ex_row_offsets ex_column_indices ex_values ex_vector_x /\
  1 <= 3 <= 256 /\
  path_partition 3 4 6 ex_row_offsets ex_thread_coords ex_thread_coord_ends /\
  [2; 0; 1] ≡ₚ seqZ 0 3 /\
  run_in_order [2; 0; 1]
    (thread_body 0 Z.add Z.mul ex_row_offsets ex_column_indices ex_values ex_vector_x
       ex_thread_coords ex_thread_coord_ends)
    (ex_fresh_y, replicate 256 7, replicate 256 9)
  = parallel_phase 0 Z.add Z.mul ex_row_offsets ex_column_indices ex_values ex_vector_x
      ex_thread_coords ex_thread_coord_ends 3 (replicate 256 7) (replicate 256 9)
      ex_fresh_y.
Proof.
  assert (wf_csr 4 6 6 ex_row_offsets ex_column_indices ex_values ex_vector_x) as Hcsr
    by (apply wf_csr_b_true; reflexivity).
  assert (path_partition 3 4 6 ex_row_offsets ex_thread_coords ex_thread_coord_ends)
    as Hpp by (apply path_partition_b_true; reflexivity).
  assert ([2; 0; 1] ≡ₚ seqZ 0 3) as Hperm.
  { change (seqZ 0 3) with [0; 1; 2].
    apply (Permutation_cons_app [0; 1] [] 2). reflexivity. }
  split; [exact Hcsr|]. split; [lia|]. split; [exact Hpp|]. split; [exact Hperm|].
  apply (kernel_any_schedule 0 Z.add Z.mul 4 6 6 ex_row_offsets ex_column_indices
           ex_values ex_vector_x ex_thread_coords ex_thread_coord_ends 3 [2; 0; 1]
           (replicate 256 7) (replicate 256 9) ex_fresh_y Hcsr);
    [lia | exact Hpp | exact Hperm | reflexivity | reflexivity | reflexivity].
Defined.

(** X12. The kernel touches no other cell: with thread ranges inside the
    grid, a row that lies in no thread's range [[start.x, end.x)] and is
    the carry-out row of no thread before the last keeps what the output
    vector held. *)
Theorem OmpMergeCsrmv_frame {ValueT} (zero : ValueT) add mul
    m n nnz row_offsets column_indices values vector_x
    thread_coords thread_coord_ends P junk_row junk_value y0 :
  wf_csr m n nnz row_offsets column_indices values vector_x ->
  coords_in_range P m nnz thread_coords thread_coord_ends ->
  1 <= P <= 256 ->
  Z.of_nat (length y0) = m ->
  exists y2,
    OmpMergeCsrmv zero add mul m row_offsets column_indices values vector_x
      thread_coords thread_coord_ends P junk_row junk_value y0 = Ok y2 /\
    Z.of_nat (length y2) = m /\
    forall k, 0 <= k < m ->
      (forall t, 0 <= t < P ->
         ~ (x (coord_at thread_coords t) <= k < x (coord_at thread_coord_ends t))) ->
      (forall t, 0 <= t < P - 1 -> x (coord_at thread_coord_ends t) <> k) ->
      y2 !! Z.to_nat k = y0 !! Z.to_nat k.
Proof.
  intros Hcsr Hrange HP Hl.
  destruct (OmpMergeCsrmv_spec zero add mul m n nnz row_offsets column_indices values
              vector_x thread_coords thread_coord_ends P Hcsr Hrange junk_row junk_value
              y0 HP Hl) as (y2 & Hrun & Hlen & Hcells).
  exists y2. split; [done|]. split; [done|]. intros k Hk Hnow Hnoc.
  rewrite (at_lookup_Some zero y2), (at_lookup_Some zero y0) by lia. f_equal.
  rewrite Hcells by done.
  rewrite fixed_none by (intros t Ht; apply Hnoc; lia).
  apply written_none. intros t Ht. apply Hnow. lia.
Qed.

Lemma OmpMergeCsrmv_frame_witness :
  wf_csr 4 6 6 ex_row_offsets ex_column_indices ex_values ex_vector_x /\
  coords_in_range 1 4 6 ex_short_coords ex_short_coord_ends /\
  1 <= 1 <= 256 /\
  exists y2,
    OmpMergeCsrmv 0 Z.add Z.mul 4 ex_row_offsets ex_column_indices ex_values ex_vector_x
      ex_short_coords ex_short_coord_ends 1 (fun _ => 77) (fun _ => 99) ex_fresh_y
      = Ok y2 /\
    Z.of_nat (length y2) = 4 /\
    forall k, 0 <= k < 4 ->
      (forall t, 0 <= t < 1 ->
         ~ (x (coord_at ex_short_coords t) <= k < x (coord_at ex_short_coord_ends t))) ->
      (forall t, 0 <= t < 1 - 1 -> x (coord_at ex_short_coord_ends t) <> k) ->
      y2 !! Z.to_nat k = ex_fresh_y !! Z.to_nat k.
Proof.
  assert (wf_csr 4 6 6 ex_row_offsets ex_column_indices ex_values ex_vector_x) as Hcsr
    by (apply wf_csr_b_true; reflexivity).
  assert (coords_in_range 1 4 6 ex_short_coords ex_short_coord_ends) as Hrange
    by (apply coords_in_range_b_true; reflexivity).
  split; [exact Hcsr|]. split; [exact Hrange|]. split; [lia|].
  apply (OmpMergeCsrmv_frame 0 Z.add Z.mul 4 6 6 ex_row_offsets ex_column_indices
           ex_values ex_vector_x ex_short_coords ex_short_coord_ends 1 (fun _ => 77)
           (fun _ => 99) ex_fresh_y Hcsr Hrange); [lia | reflexivity].
Defined.

(** ** The serial reference, the empty matrix, and the test driver *)

(** X13. [SpmvGold] ends normally on a well-formed matrix, stores every
    cell of the output, and leaves in cell [i] the sum of the products
    [values[j] * vector_x[column_indices[j]]] of row [i], added from
    [zero] in the order of [j]; what the output vector held before does
    not matter, and no law of the arithmetic is used. *)
Theorem SpmvGold_row_sums {ValueT} (zero : ValueT) add mul
    m n nnz row_offsets column_indices values vector_x y0 :
  wf_csr m n nnz row_offsets column_indices values vector_x ->
  Z.of_nat (length y0) = m ->
  exists vector_y,
    SpmvGold zero add mul m row_offsets column_indices values vector_x y0
      = Ok vector_y /\
    Z.of_nat (length vector_y) = m /\
    (forall i, 0 <= i < m ->
       vector_y !! Z.to_nat i
       = Some (row_sum zero add mul row_offsets column_indices values vector_x i)) /\
    (forall y0', Z.of_nat (length y0') = m ->
       SpmvGold zero add mul m row_offsets column_indices values vector_x y0'
         = Ok vector_y).
Proof.
  intros Hcsr Hl.
  destruct (gold_vector zero add mul m n nnz row_offsets column_indices values vector_x
              Hcsr y0 Hl) as (yg & Hgold & Hlen & Hcells & Huniq).
  exists yg. split; [done|]. split; [done|]. split.
  - intros i Hi. rewrite (at_lookup_Some zero) by lia. f_equal. by apply Hcells.
  - intros y0' Hl'.
    destruct (gold_vector zero add mul m n nnz row_offsets column_indices values vector_x
                Hcsr y0' Hl') as (yg' & -> & Hlen' & Hcells' & _).
    f_equal. by apply Huniq.
Qed.

Lemma SpmvGold_row_sums_witness :
  wf_csr 4 6 6 ex_row_offsets ex_column_indices ex_values ex_vector_x /\
  exists vector_y,
    SpmvGold 0 Z.add Z.mul 4 ex_row_offsets ex_column_indices ex_values ex_vector_x
      ex_fresh_y = Ok vector_y /\
    Z.of_nat (length vector_y) = 4 /\
    (forall i, 0 <= i < 4 ->
       vector_y !! Z.to_nat i
       = Some (row_sum 0 Z.add Z.mul ex_row_offsets ex_column_indices ex_values
                 ex_vector_x i)) /\
    (forall y0', Z.of_nat (length y0') = 4 ->
       SpmvGold 0 Z.add Z.mul 4 ex_row_offsets ex_column_indices ex_values ex_vector_x
         y0' = Ok vector_y).
Proof.
  assert (wf_csr 4 6 6 ex_row_offsets ex_column_indices ex_values ex_vector_x) as Hcsr
    by (apply wf_csr_b_true; reflexivity).
  split; [exact Hcsr|].
  apply (SpmvGold_row_sums 0 Z.add Z.mul 4 6 6 ex_row_offsets ex_column_indices ex_values
           ex_vector_x ex_fresh_y Hcsr). reflexivity.
Defined.

Lemma at_replicate {A} (d v : A) (len : nat) i :
  0 <= i < Z.of_nat len -> at_ d (replicate len v) i = v.
Proof.
  intros Hi. unfold at_. rewrite (proj2 (Z.leb_le 0 i)) by lia.
  rewrite lookup_replicate_2 by lia. done.
Qed.

(** X14. A matrix without nonzeros ([nnz = 0], [1 <= m <= 2 ^ 30]): the
    partitioner handles the path of [m] row markers, and the kernel and
    [SpmvGold] both fill the output with [zero]; of the arithmetic only
    [zero + zero = zero] is used. *)
Theorem no_nonzeros_all_zero {ValueT} (zero : ValueT) add mul
    m n row_offsets column_indices values vector_x
    P tc0 tce0 junk_row junk_value y0 y0' :
  add zero zero = zero ->
  wf_csr m n 0 row_offsets column_indices values vector_x ->
  1 <= P <= 256 ->
  m <= 2 ^ 30 ->
  Z.of_nat (length tc0) = P -> Z.of_nat (length tce0) = P ->
  Z.of_nat (length y0) = m -> Z.of_nat (length y0') = m ->
  exists thread_coords thread_coord_ends,
    OmpMergePartitionMatrix P m 0 row_offsets tc0 tce0
      = Ok (thread_coords, thread_coord_ends) /\
    OmpMergeCsrmv zero add mul m row_offsets column_indices values vector_x
      thread_coords thread_coord_ends P junk_row junk_value y0
      = Ok (replicate (Z.to_nat m) zero) /\
    SpmvGold zero add mul m row_offsets column_indices values vector_x y0'
      = Ok (replicate (Z.to_nat m) zero).
Proof.
  intros Hzero Hcsr HP Hsmall Hl1 Hl2 Hy0 Hy0'.
  pose proof (wf_offsets _ _ _ _ _ _ _ Hcsr) as Hwf. pose proof (wf_rows _ _ _ Hwf) as Hm.
  assert (m + 0 + P <= max_int) as Hfit
    by (assert (2 ^ 30 = 1073741824) as H30 by reflexivity; int_lia).
  assert (forall i, 0 <= i < m -> ro_at row_offsets i = ro_at row_offsets (i + 1)) as Hrows.
  { intros i Hi. pose proof (ro_range m 0 row_offsets Hwf i ltac:(lia)).
    pose proof (ro_range m 0 row_offsets Hwf (i + 1) ltac:(lia)). lia. }
  destruct (partition_then_kernel zero add mul m n 0 row_offsets column_indices
              values vector_x P tc0 tce0 Hcsr HP Hl1 Hl2 Hfit Hsmall)
    as (tc & tce & Hpart & Hpp & Hker).
  destruct (Hker junk_row junk_value y0 Hy0) as (y2 & Hrun & Hlen & Hcells).
  destruct (gold_vector zero add mul m n 0 row_offsets column_indices values vector_x
              Hcsr y0' Hy0') as (yg & Hgold & Hleng & Hcellsg & _).
  exists tc, tce. split; [done|]. split.
  - rewrite Hrun. f_equal. apply (at_ext zero); [rewrite length_replicate; lia|].
    intros k Hk. rewrite at_replicate by lia. rewrite Hcells by lia.
    assert (exists t, 0 <= t < Z.of_nat (Z.to_nat P) /\ writes tc tce t k) as Hown.
    { apply (owner_exists m 0 row_offsets tc tce P Hpp); [lia|].
      rewrite Z2Nat.id by lia.
      rewrite (reach_last m 0 row_offsets tc tce P ltac:(lia) Hpp). simpl. lia. }
    rewrite (empty_written zero add mul m 0 row_offsets column_indices values vector_x
               tc tce P Hpp k ltac:(lia) (Hrows k ltac:(lia))) by (done || lia).
    apply (empty_fixed zero add mul m 0 row_offsets column_indices values vector_x
             tc tce P Hpp Hzero k ltac:(lia) (Hrows k ltac:(lia))). lia.
  - rewrite Hgold. f_equal. apply (at_ext zero); [rewrite length_replicate; lia|].
    intros k Hk. rewrite at_replicate by lia. rewrite Hcellsg by lia.
    unfold row_sum, segment, sum_from. rewrite <- (Hrows k ltac:(lia)).
    by rewrite seqZ_nil by lia.
Qed.

Lemma no_nonzeros_all_zero_witness :
  0 + 0 = 0 /\
  wf_csr 3 2 0 [0; 0; 0; 0] [] [] [8; 9] /\
  1 <= 2 <= 256 /\
  3 <= 2 ^ 30 /\
  exists thread_coords thread_coord_ends,
    OmpMergePartitionMatrix 2 3 0 [0; 0; 0; 0] ex_uneven_coords ex_uneven_coords
      = Ok (thread_coords, thread_coord_ends) /\
    OmpMergeCsrmv 0 Z.add Z.mul 3 [0; 0; 0; 0] [] [] [8; 9]
      thread_coords thread_coord_ends 2 (fun _ => 77) (fun _ => 99) [5; 5; 5]
      = Ok (replicate (Z.to_nat 3) 0) /\
    SpmvGold 0 Z.add Z.mul 3 [0; 0; 0; 0] [] [] [8; 9] [6; 6; 6]
      = Ok (replicate (Z.to_nat 3) 0).
Proof.
  assert (wf_csr 3 2 0 [0; 0; 0; 0] [] [] [8; 9]) as Hcsr
    by (apply wf_csr_b_true; reflexivity).
  split; [reflexivity|]. split; [exact Hcsr|]. split; [lia|]. split; [lia|].
  apply (no_nonzeros_all_zero 0 Z.add Z.mul 3 2 [0; 0; 0; 0] [] [] [8; 9] 2
           ex_uneven_coords ex_uneven_coords (fun _ => 77) (fun _ => 99) [5; 5; 5]
           [6; 6; 6] eq_refl Hcsr);
    [lia | lia | reflexivity | reflexivity | reflexivity | reflexivity].
Defined.

Lemma memset_all_ones_length {ValueT} (all_ones : ValueT) m y :
  Z.of_nat (length y) = m ->
  exists y', memset_all_ones all_ones m y = Ok y' /\ Z.of_nat (length y') = m.
Proof.
  intros Hl. unfold memset_all_ones.
  destruct (for_loop_inv (fun (_ : Z) (yv : list ValueT) => Z.of_nat (length yv) = m)
              0 m (fun i yv => write A_vector_y_out yv i all_ones) y)
    as (y' & Hrun & Hl'); [lia | done | | by exists y'].
  intros i yv Hi Hlen. rewrite write_Ok by lia. eexists. split; [done|].
  by rewrite length_insert.
Qed.

(** X15. [TestOmpMergeCsrmv] partitions once and then runs the kernel on
    that partition once for the check, three more times, and
    [timing_iterations] times: with exact arithmetic, 1 to 256 threads
    (the number of processors when [g_omp_threads] is -1),
    [m + nnz + 256 <= 2 ^ 31 - 1] and [m <= 2 ^ 30], the vector that is
    compared and the vector left at the end are both the vector of
    [SpmvGold], and [g_omp_threads] ends as the thread count used. *)
Theorem TestOmpMergeCsrmv_reference {ValueT} (zero : ValueT) add mul all_ones
    omp_get_num_procs junk_coords junk_coord_ends junk_row junk_value g_omp_threads
    m n nnz row_offsets column_indices values vector_x vector_y_out timing_iterations
    reference_y0 :
  exact_add zero add ->
  wf_csr m n nnz row_offsets column_indices values vector_x ->
  1 <= (if g_omp_threads =? -1 then omp_get_num_procs else g_omp_threads) <= 256 ->
  m + nnz + 256 <= max_int -> m <= 2 ^ 30 ->
  Z.of_nat (length vector_y_out) = m ->
  Z.of_nat (length reference_y0) = m ->
  exists vector_y,
    TestOmpMergeCsrmv zero add mul all_ones omp_get_num_procs junk_coords
      junk_coord_ends junk_row junk_value g_omp_threads m nnz row_offsets
      column_indices values vector_x vector_y_out timing_iterations
    = Ok {| g_omp_threads_after :=
              if g_omp_threads =? -1 then omp_get_num_procs else g_omp_threads;
            checked_y := vector_y;
            final_y := vector_y |} /\
    SpmvGold zero add mul m row_offsets column_indices values vector_x reference_y0
      = Ok vector_y.
Proof.
  intros Hadd Hcsr HT Hfit Hrows Hl Hlr. unfold TestOmpMergeCsrmv.
  set (T := if g_omp_threads =? -1 then omp_get_num_procs else g_omp_threads) in *.
  pose proof (wf_offsets _ _ _ _ _ _ _ Hcsr) as Hwf.
  destruct (OmpMergePartitionMatrix_partitioned T m nnz row_offsets
              (junk_coords <$> seqZ 0 T) (junk_coord_ends <$> seqZ 0 T) Hwf)
    as (tc & tce & -> & Hp);
    [lia | lia | done | rewrite length_fmap, length_seqZ; lia
    | rewrite length_fmap, length_seqZ; lia |].
  pose proof (partitioned_path_partition T m nnz row_offsets Hwf ltac:(lia) tc tce Hp)
    as Hpp.
  destruct (gold_vector zero add mul m n nnz row_offsets column_indices values vector_x
              Hcsr reference_y0 Hlr) as (yg & Hgold & Hleng & _ & Huniq).
  assert (forall call y, Z.of_nat (length y) = m ->
            OmpMergeCsrmv zero add mul m row_offsets column_indices values vector_x
              tc tce T (junk_row call) (junk_value call) y = Ok yg) as Hrun.
  { intros call y Hy.
    destruct (kernel_row_sums zero add mul m n nnz row_offsets column_indices values
                vector_x Hcsr tc tce T (junk_row call) (junk_value call) y Hadd HT Hpp Hy)
      as (y2 & -> & Hlen & Hcells).
    f_equal. by apply Huniq. }
  exists yg. split; [|done]. simpl.
  destruct (memset_all_ones_length all_ones m vector_y_out Hl) as (y1 & -> & Hl1). simpl.
  rewrite (Hrun 0 y1 Hl1). simpl.
  rewrite (Hrun 1 yg Hleng). simpl. rewrite (Hrun 2 yg Hleng). simpl.
  rewrite (Hrun 3 yg Hleng). simpl.
  destruct (Z_le_gt_dec timing_iterations 0) as [Hle|Hgt].
  - by rewrite for_loop_done by lia.
  - destruct (for_loop_inv (fun (_ : Z) (y : list ValueT) => y = yg) 0 timing_iterations
                (fun it y => OmpMergeCsrmv zero add mul m row_offsets column_indices
                               values vector_x tc tce T (junk_row (4 + it))
                               (junk_value (4 + it)) y) yg)
      as (y' & -> & ->); [lia | done | | done].
    intros it y Hit ->. exists yg. split; [by apply Hrun | done].
Qed.

Lemma TestOmpMergeCsrmv_reference_witness :
  exact_add 0 Z.add /\
  wf_csr 4 6 6 ex_row_offsets ex_column_indices ex_values ex_vector_x /\
  1 <= (if -1 =? -1 then 3 else -1) <= 256 /\
  4 + 6 + 256 <= max_int /\ 4 <= 2 ^ 30 /\
  exists vector_y,
    TestOmpMergeCsrmv 0 Z.add Z.mul (-1) 3 (fun _ => {| x := 7; y := 7 |})
      (fun _ => {| x := 8; y := 8 |}) (fun _ _ => 77) (fun _ _ => 99) (-1)
      4 6 ex_row_offsets ex_column_indices ex_values ex_vector_x ex_fresh_y 5
    = Ok {| g_omp_threads_after := if -1 =? -1 then 3 else -1;
            checked_y := vector_y;
            final_y := vector_y |} /\
    SpmvGold 0 Z.add Z.mul 4 ex_row_offsets ex_column_indices ex_values ex_vector_x
      [5; 5; 5; 5] = Ok vector_y.
Proof.
  assert (wf_csr 4 6 6 ex_row_offsets ex_column_indices ex_values ex_vector_x) as Hcsr
    by (apply wf_csr_b_true; reflexivity).
  split; [exact exact_add_Z|]. split; [exact Hcsr|]. split; [simpl; lia|].
  split; [vm_compute; discriminate|]. split; [lia|].
  apply (TestOmpMergeCsrmv_reference 0 Z.add Z.mul (-1) 3 (fun _ => {| x := 7; y := 7 |})
           (fun _ => {| x := 8; y := 8 |}) (fun _ _ => 77) (fun _ _ => 99) (-1)
           4 6 6 ex_row_offsets ex_column_indices ex_values ex_vector_x ex_fresh_y 5
           [5; 5; 5; 5] exact_add_Z Hcsr);
    [simpl; lia | vm_compute; discriminate | lia | reflexivity | reflexivity].
Defined.

(** ** The driver's choices *)

(** X16. When the command line gives no iteration count, [RunTests] takes
    between 100 and 200000 timing iterations for a matrix with nonzeros,
    aiming at [2 ^ 34] nonzeros in all: unless the count is the floor 100
    the nonzeros run through are at most [2 ^ 34], and unless it is the
    cap 200000 one more iteration would exceed [2 ^ 34].  For a matrix
    without nonzeros the division is by zero.  A count given on the
    command line is kept. *)
Theorem RunTests_timing_iterations_range timing_iterations num_nonzeros :
  0 <= num_nonzeros < 2 ^ 31 ->
  (timing_iterations <> -1 ->
   RunTests_timing_iterations timing_iterations num_nonzeros = Some timing_iterations) /\
  (num_nonzeros = 0 -> RunTests_timing_iterations (-1) num_nonzeros = None) /\
  (0 < num_nonzeros ->
   exists it, RunTests_timing_iterations (-1) num_nonzeros = Some it /\
     100 <= it <= 200000 /\
     (100 < it -> it * num_nonzeros <= 2 ^ 34) /\
     (it < 200000 -> 2 ^ 34 < (it + 1) * num_nonzeros)).
Proof.
  intros Hn. unfold RunTests_timing_iterations, default_timing_iterations.
  split; [|split].
  - intros Hne. destruct (timing_iterations =? -1) eqn:He; [lia | done].
  - intros ->. reflexivity.
  - intros Hpos. simpl (-1 =? -1).
    rewrite Z.mod_small by lia.
    destruct (num_nonzeros =? 0) eqn:He; [lia|].
    change (Z.shiftl 16 30) with (2 ^ 34).
    eexists. split; [done|].
    pose proof (Z.div_mod (2 ^ 34) num_nonzeros ltac:(lia)) as Hdm.
    pose proof (Z.mod_pos_bound (2 ^ 34) num_nonzeros ltac:(lia)) as Hmb.
    set (quo := 2 ^ 34 `div` num_nonzeros) in *.
    set (rem := 2 ^ 34 `mod` num_nonzeros) in *.
    assert (0 <= quo) by (apply Z.div_pos; lia).
    split; [lia|]. split.
    + intros Hit. assert (Z.min 200000 (Z.max 100 quo) <= quo) as Hle by lia. nia.
    + intros Hit. assert (quo <= Z.min 200000 (Z.max 100 quo)) as Hle by lia. nia.
Qed.

Lemma RunTests_timing_iterations_range_witness :
  0 <= 1000000 < 2 ^ 31 /\
  (5 <> -1 -> RunTests_timing_iterations 5 1000000 = Some 5) /\
  (1000000 = 0 -> RunTests_timing_iterations (-1) 1000000 = None) /\
  (0 < 1000000 ->
   exists it, RunTests_timing_iterations (-1) 1000000 = Some it /\
     100 <= it <= 200000 /\
     (100 < it -> it * 1000000 <= 2 ^ 34) /\
     (it < 200000 -> 2 ^ 34 < (it + 1) * 1000000)).
Proof.
  split; [lia|].
  apply (RunTests_timing_iterations_range 5 1000000). lia.
Defined.

Local Ltac generated_dataset :=
  split_and!;
  [ intros printed; split; [done | intros [(_ & Hnone & _)|(Hfile & _)]; [tauto | done]]
  | intros printed; split; [done | by intros (Hfile & _)]
  | intros printed; split; [intros [= <-]; tauto | by intros [-> _]]
  | done
  | done ].

(** X17. The choice of the data set at the head of [RunTests], with a
    loader that either returns the matrix of the file or ends the program
    with code 1.  The run ends with code 1 in two cases only: no file name
    and no positive generator parameter is given (after "No graph type
    specified."), or a file is given and the loader fails on it.  It ends
    with code 0 exactly when the file given is loaded and its matrix has
    one row, one column or one nonzero, printing "Trivial dataset" unless
    quiet.  It gets past the choice, to the conversion to CSR, exactly when
    a loaded matrix has none of its three dimensions equal to 1 or, without
    a file, some generator parameter is positive: a generated matrix is
    never taken as trivial.  No other exit code occurs here, and with a
    loader that always returns this is [RunTests_dataset]. *)
Theorem RunTests_dataset_outcomes g_quiet InitMarket load mtx_filename grid2d grid3d wheel dense :
  let outcome :=
    RunTests_dataset_loading g_quiet InitMarket mtx_filename grid2d grid3d wheel dense in
  let one coo := coo_num_rows coo = 1 \/ coo_num_cols coo = 1 \/ coo_num_nonzeros coo = 1 in
  let file := mtx_filename <> EmptyString in
  let generator := 0 < grid2d \/ 0 < grid3d \/ 0 < wheel \/ 0 < dense in
  (forall printed,
     outcome = Exit 1 printed <->
     (~ file /\ ~ generator /\ printed = [No_graph_type])
     \/ (file /\ InitMarket mtx_filename = Load_failure printed)) /\
  (forall printed,
     outcome = Exit 0 printed <->
     file /\ printed = (if g_quiet then [] else [Trivial_dataset])
     /\ exists coo, InitMarket mtx_filename = Loaded coo /\ one coo) /\
  (forall printed,
     outcome = Benchmark printed <->
     printed = [Dataset_name]
     /\ ((file /\ exists coo, InitMarket mtx_filename = Loaded coo /\ ~ one coo)
         \/ (~ file /\ generator))) /\
  match outcome with
  | Exit code _ => code = 0 \/ code = 1
  | Benchmark _ => True
  end /\
  RunTests_dataset_loading g_quiet (fun name => Loaded (load name))
    mtx_filename grid2d grid3d wheel dense
  = RunTests_dataset g_quiet load mtx_filename grid2d grid3d wheel dense.
Proof.
  cbv zeta. unfold RunTests_dataset_loading, RunTests_dataset.
  destruct (String.eqb mtx_filename EmptyString) eqn:Hname; simpl.
  - apply String.eqb_eq in Hname.
    destruct (0 <? grid2d) eqn:Hgrid2d; [apply Z.ltb_lt in Hgrid2d|apply Z.ltb_ge in Hgrid2d].
    { generated_dataset. }
    destruct (0 <? grid3d) eqn:Hgrid3d; [apply Z.ltb_lt in Hgrid3d|apply Z.ltb_ge in Hgrid3d].
    { generated_dataset. }
    destruct (0 <? wheel) eqn:Hwheel; [apply Z.ltb_lt in Hwheel|apply Z.ltb_ge in Hwheel].
    { generated_dataset. }
    destruct (0 <? dense) eqn:Hdense; [apply Z.ltb_lt in Hdense|apply Z.ltb_ge in Hdense].
    { generated_dataset. }
    split_and!; [| | | by right | done].
    + intros printed. split.
      * intros [= <-]. left. split_and!; [tauto | lia | done].
      * by intros [(_ & _ & ->)|(Hfile & _)].
    + intros printed. split; [done | by intros (Hfile & _)].
    + intros printed. split; [done|].
      intros (_ & [(Hfile & _)|(_ & Hsome)]); [done | lia].
  - apply String.eqb_neq in Hname.
    destruct (InitMarket mtx_filename) as [coo|loader_printed] eqn:Hload.
    + destruct ((coo_num_rows coo =? 1) || (coo_num_cols coo =? 1)
                || (coo_num_nonzeros coo =? 1)) eqn:Hone.
      * rewrite !orb_true_iff, !Z.eqb_eq in Hone.
        split_and!; [| | | by left | done].
        -- intros printed. split; [done | by intros [(Hnofile & _)|(_ & Hfailed)]].
        -- intros printed. split.
           ++ intros [= <-]. split_and!; [done | by destruct g_quiet | exists coo; split; [done | tauto]].
           ++ intros (_ & -> & _). by destruct g_quiet.
        -- intros printed. split; [done|].
           intros (_ & [(_ & coo' & [= <-] & Hnone)|(Hnofile & _)]); [tauto | done].
      * rewrite !orb_false_iff, !Z.eqb_neq in Hone.
        split_and!; [| | | done | done].
        -- intros printed. split; [done | by intros [(Hnofile & _)|(_ & Hfailed)]].
        -- intros printed. split; [done|].
           intros (_ & _ & coo' & [= <-] & Hsome). tauto.
        -- intros printed. split.
           ++ intros [= <-]. split; [done|]. left. split; [done|]. exists coo. split; [done | tauto].
           ++ by intros [-> _].
    + split_and!; [| | | by right | done].
      * intros printed. split.
        -- intros [= <-]. by right.
        -- by intros [(Hnofile & _)|(_ & [= <-])].
      * intros printed. split; [done | by intros (_ & _ & coo' & Hloaded & _)].
      * intros printed. split; [done|].
        by intros (_ & [(_ & coo' & Hloaded & _)|(Hnofile & _)]).
Qed.

(** ** The jump tables of the CSRLenGoto variant *)

Lemma for_loop_outcome_done {St} lo hi (body : Z -> St -> outcome St) s :
  hi <= lo -> for_loop_outcome lo hi body s = Done s.
Proof.
  intros H. unfold for_loop_outcome. by replace (Z.to_nat (hi - lo)) with O by lia.
Qed.




(** X19. A thread whose range is shut inside one row, after the first
    nonzero of that row (it starts and ends in the same row), gets a table
    of no cells, and the end marker is written outside it, at index 0. *)
Theorem jump_table_of_thread_overflow m nnz row_offsets thread_coords thread_coord_ends
    junk tid :
  wf_row_offsets m nnz row_offsets ->
  0 <= tid < Z.of_nat (length thread_coords) ->
  tid < Z.of_nat (length thread_coord_ends) ->
  0 <= x (coord_at thread_coords tid) <= m ->
  x (coord_at thread_coords tid) = x (coord_at thread_coord_ends tid) ->
  ro_at row_offsets (x (coord_at thread_coords tid)) < y (coord_at thread_coords tid) ->
  jump_table_of_thread row_offsets thread_coords thread_coord_ends junk tid
  = Fault (Jump_table tid) 0.
Proof.
  intros Hwf Htid Htid' Hx Hsame Hin.
  unfold jump_table_of_thread.
  rewrite (read_Ok {| x := 0; y := 0 |}) by lia. simpl.
  rewrite (read_Ok {| x := 0; y := 0 |}) by lia. simpl.
  rewrite (read_row_offsets m nnz row_offsets Hwf) by lia. simpl.
  unfold first_whole_row. rewrite (proj2 (Z.ltb_lt _ _) Hin). rewrite <- Hsame.
  replace (x (coord_at thread_coords tid) - (x (coord_at thread_coords tid) + 1) + 1)
    with 0 by lia.
  replace (x (coord_at thread_coords tid) - (x (coord_at thread_coords tid) + 1))
    with (-1) by lia.
  unfold new_int_array. simpl.
  rewrite for_loop_outcome_done by lia. simpl. reflexivity.
Qed.


(** The partitioner makes such ranges: one row of nine nonzeros cut for
    five threads gives thread 1 the range from [(0, 2)] to [(0, 4)]. *)
Lemma jump_table_of_thread_overflow_witness :
  OmpMergePartitionMatrix 5 1 9 ex_one_row_offsets
    (replicate 5 {| x := -1; y := -1 |}) (replicate 5 {| x := -1; y := -1 |})
  = Ok (ex_one_row_coords, ex_one_row_coord_ends) /\
  wf_row_offsets 1 9 ex_one_row_offsets /\
  0 <= 1 < Z.of_nat (length ex_one_row_coords) /\
  1 < Z.of_nat (length ex_one_row_coord_ends) /\
  0 <= x (coord_at ex_one_row_coords 1) <= 1 /\
  x (coord_at ex_one_row_coords 1) = x (coord_at ex_one_row_coord_ends 1) /\
  ro_at ex_one_row_offsets (x (coord_at ex_one_row_coords 1))
  < y (coord_at ex_one_row_coords 1) /\
  jump_table_of_thread ex_one_row_offsets ex_one_row_coords ex_one_row_coord_ends
    (fun _ => 7) 1 = Fault (Jump_table 1) 0.
Proof.
  assert (wf_row_offsets 1 9 ex_one_row_offsets) as Hwf
    by (apply wf_row_offsets_b_true; reflexivity).
  split; [reflexivity|].
  split; [exact Hwf|]. split; [simpl; lia|]. split; [simpl; lia|].
  split; [vm_compute; split; discriminate|]. split; [reflexivity|].
  split; [reflexivity|].
  apply (jump_table_of_thread_overflow 1 9 ex_one_row_offsets ex_one_row_coords
           ex_one_row_coord_ends (fun _ => 7) 1 Hwf);
    [simpl; lia | simpl; lia | vm_compute; split; discriminate | reflexivity | reflexivity].
Defined.

(** ** [SpmvGold] on a column index that [vector_x] does not have *)

Section BadColumn.
Context {ValueT : Type}.
Variables (zero : ValueT) (add mul : ValueT -> ValueT -> ValueT).
Variables (m nnz : Z).
Variables (row_offsets column_indices : list Z) (values vector_x : list ValueT).
Variable (k : Z).
Hypothesis Hwf : wf_row_offsets m nnz row_offsets.
Hypothesis Hcolumns : Z.of_nat (length column_indices) = nnz.
Hypothesis Hvalues : Z.of_nat (length values) = nnz.
Hypothesis Hk : 0 <= k < nnz.
Hypothesis Hgood : forall j, 0 <= j < k ->
  0 <= ro_at column_indices j < Z.of_nat (length vector_x).
Hypothesis Hbad : ~ (0 <= ro_at column_indices k < Z.of_nat (length vector_x)).

Lemma accumulate_before_bad j acc :
  0 <= j < k ->
  exists acc', accumulate add mul column_indices values vector_x j acc = Ok acc'.
Proof.
  intros Hj. unfold accumulate.
  rewrite (read_Ok zero) by lia. simpl.
  rewrite (read_Ok 0) by lia. simpl.
  rewrite (read_Ok zero) by (apply Hgood; lia). simpl. by eexists.
Qed.

Lemma accumulate_at_bad acc :
  accumulate add mul column_indices values vector_x k acc
  = OutOfBounds A_vector_x (ro_at column_indices k).
Proof.
  unfold accumulate.
  rewrite (read_Ok zero) by lia. simpl.
  rewrite (read_Ok 0) by lia. simpl.
  by rewrite read_oob.
Qed.

Lemma accumulate_loop_before_bad lo hi acc :
  0 <= lo -> hi <= k ->
  exists acc', for_loop lo hi (accumulate add mul column_indices values vector_x) acc
               = Ok acc'.
Proof.
  intros Hlo Hhi. destruct (Z_le_gt_dec hi lo) as [Hle|Hgt].
  - rewrite for_loop_done by done. by eexists.
  - destruct (for_loop_inv (fun _ _ => True) lo hi
                (accumulate add mul column_indices values vector_x) acc)
      as (acc' & -> & _); [lia | done | | by eexists].
    intros i s Hi _. destruct (accumulate_before_bad i s ltac:(lia)) as [s' ->].
    by exists s'.
Qed.

Lemma accumulate_loop_bad lo hi acc :
  0 <= lo <= k -> k < hi ->
  for_loop lo hi (accumulate add mul column_indices values vector_x) acc
  = OutOfBounds A_vector_x (ro_at column_indices k).
Proof.
  intros Hlo Hhi.
  apply (for_loop_fail (fun _ _ => True) lo hi k); [lia | done | |].
  - intros i s Hi _. destruct (accumulate_before_bad i s ltac:(lia)) as [s' ->].
    by exists s'.
  - intros s _. apply accumulate_at_bad.
Qed.

Lemma SpmvGold_from_row_bad (n : nat) row vector_y_out :
  Z.of_nat n = m - row ->
  0 <= row ->
  ro_at row_offsets row <= k ->
  Z.of_nat (length vector_y_out) = m ->
  for_loop row m (SpmvGold_row zero add mul row_offsets column_indices values vector_x)
    vector_y_out
  = OutOfBounds A_vector_x (ro_at column_indices k).
Proof.
  revert row vector_y_out. induction n as [|n IH]; intros row yv Hn Hrow Hro Hlen.
  - exfalso. replace row with m in Hro by lia. rewrite (wf_last _ _ _ Hwf) in Hro. lia.
  - pose proof (wf_first _ _ _ Hwf) as Hfirst.
    assert (0 <= ro_at row_offsets row) as Hro0.
    { clear IH Hro.
      assert (forall i : nat, Z.of_nat i <= m -> 0 <= ro_at row_offsets (Z.of_nat i)) as H.
      { induction i as [|i IHi]; intros Hi; [change (Z.of_nat 0) with 0; lia|].
        pose proof (wf_step _ _ _ Hwf (Z.of_nat i) ltac:(lia)).
        replace (Z.of_nat (S i)) with (Z.of_nat i + 1) by lia. lia. }
      specialize (H (Z.to_nat row) ltac:(lia)). by rewrite Z2Nat.id in H by lia. }
    rewrite for_loop_step by lia. unfold SpmvGold_row at 1.
    rewrite !(read_row_offsets m nnz row_offsets Hwf) by lia. simpl.
    destruct (Z_lt_le_dec k (ro_at row_offsets (row + 1))) as [Hin|Hout].
    + by rewrite accumulate_loop_bad by lia.
    + destruct (accumulate_loop_before_bad (ro_at row_offsets row)
                  (ro_at row_offsets (row + 1)) zero) as [partial ->]; [lia | lia |].
      simpl. rewrite write_Ok by lia. simpl.
      apply (IH (row + 1)); [lia | lia | done | by rewrite length_insert].
Qed.

End BadColumn.

(** X20. When the arrays have their lengths but some nonzero names a
    column that [vector_x] does not have, [SpmvGold] stops at the first
    such nonzero [k], with the read of [vector_x] at that column outside
    the array; it does not go on to later rows. *)
Theorem SpmvGold_bad_column {ValueT} (zero : ValueT) add mul
    m nnz row_offsets column_indices (values vector_x : list ValueT) k vector_y_out :
  wf_row_offsets m nnz row_offsets ->
  Z.of_nat (length column_indices) = nnz ->
  Z.of_nat (length values) = nnz ->
  Z.of_nat (length vector_y_out) = m ->
  0 <= k < nnz ->
  (forall j, 0 <= j < k -> 0 <= ro_at column_indices j < Z.of_nat (length vector_x)) ->
  ~ (0 <= ro_at column_indices k < Z.of_nat (length vector_x)) ->
  SpmvGold zero add mul m row_offsets column_indices values vector_x vector_y_out
  = OutOfBounds A_vector_x (ro_at column_indices k).
Proof.
  intros Hwf Hc Hv Hy Hk Hgood Hbad. unfold SpmvGold.
  pose proof (wf_rows _ _ _ Hwf).
  apply (SpmvGold_from_row_bad zero add mul m nnz row_offsets column_indices values
           vector_x k Hwf Hc Hv Hk Hgood Hbad (Z.to_nat m) 0); [lia | lia | | done].
  rewrite (wf_first _ _ _ Hwf). lia.
Qed.

Lemma SpmvGold_bad_column_witness :
  wf_row_offsets 4 6 ex_row_offsets /\
  Z.of_nat (length ex_bad_column_indices) = 6 /\
  Z.of_nat (length ex_values) = 6 /\
  Z.of_nat (length ex_fresh_y) = 4 /\
  0 <= 2 < 6 /\
  (forall j, 0 <= j < 2 ->
     0 <= ro_at ex_bad_column_indices j < Z.of_nat (length ex_vector_x)) /\
  ~ (0 <= ro_at ex_bad_column_indices 2 < Z.of_nat (length ex_vector_x)) /\
  SpmvGold 0 Z.add Z.mul 4 ex_row_offsets ex_bad_column_indices ex_values ex_vector_x
    ex_fresh_y
  = OutOfBounds A_vector_x (ro_at ex_bad_column_indices 2).
Proof.
  assert (wf_row_offsets 4 6 ex_row_offsets) as Hwf
    by (apply wf_row_offsets_b_true; reflexivity).
  assert (forall j, 0 <= j < 2 ->
            0 <= ro_at ex_bad_column_indices j < Z.of_nat (length ex_vector_x)) as Hgood.
  { intros j Hj. assert (j = 0 \/ j = 1) as [ -> | -> ] by lia;
      vm_compute; (split; [discriminate | reflexivity]). }
  assert (~ (0 <= ro_at ex_bad_column_indices 2 < Z.of_nat (length ex_vector_x))) as Hbad
    by (intros [_ H]; vm_compute in H; discriminate H).
  split; [exact Hwf|]. split; [reflexivity|]. split; [reflexivity|].
  split; [reflexivity|]. split; [lia|]. split; [exact Hgood|]. split; [exact Hbad|].
  apply (SpmvGold_bad_column 0 Z.add Z.mul 4 6 ex_row_offsets ex_bad_column_indices
           ex_values ex_vector_x 2 ex_fresh_y Hwf);
    [reflexivity | reflexivity | reflexivity | lia | exact Hgood | exact Hbad].
Defined.

(** * Part V: where the index arithmetic leaves [int]

    The sizes below are those of matrices the types admit: every count is
    an [int].  The partitioner adds [num_rows], [num_nonzeros] and
    [num_threads], and the search adds two row numbers; once such a sum is
    not an [int] the run is undefined. *)




(** The first pivot of a search whose range is not empty is half the sum
    of the ends of the range; the search stops when that sum is not an
    [int], before it reads either list. *)
Lemma MergePathSearch_pivot_sum (a b : iterator) diagonal a_len b_len :
  min_int <= diagonal - b_len <= max_int ->
  Z.max (diagonal - b_len) 0 < Z.min diagonal a_len ->
  max_int < Z.max (diagonal - b_len) 0 + Z.min diagonal a_len ->
  MergePathSearch diagonal a b a_len b_len
  = IntOverflow (Z.max (diagonal - b_len) 0 + Z.min diagonal a_len).
Proof.
  intros Hsub Hlt Hsum.
  unfold MergePathSearch, sub_int. rewrite int_of_Ok by done. simpl.
  rewrite search_loop_eq. destruct (decide _) as [_|]; [|lia].
  unfold pivot_of, add_int. by rewrite int_of_overflow by int_lia.
Qed.

Lemma for_loop_fails {St} lo hi k (body : Z -> St -> result St) :
  lo <= k < hi ->
  (forall s r, body k s <> Ok r) ->
  forall s r, for_loop lo hi body s <> Ok r.
Proof.
  intros Hk Hbody. remember (Z.to_nat (k - lo)) as n eqn:Hn.
  revert lo Hk Hn. induction n as [|n IH]; intros lo Hk Hn s r.
  - assert (lo = k) as -> by lia. rewrite for_loop_step by lia.
    destruct (body k s) as [s'| | |] eqn:Hb; [by apply Hbody in Hb | done | done | done].
  - rewrite for_loop_step by lia.
    destruct (body lo s) as [s'| | |]; [simpl | done | done | done].
    apply IH; lia.
Qed.

Lemma wf_row_offsets_last_row (k : nat) v :
  1 <= Z.of_nat k -> 0 <= v ->
  wf_row_offsets (Z.of_nat k) v (replicate k 0 ++ [v]).
Proof.
  intros Hk Hv.
  assert (forall i, 0 <= i < Z.of_nat k -> ro_at (replicate k 0 ++ [v]) i = 0) as Hzero.
  { intros i Hi. apply at_lookup; [lia|].
    rewrite lookup_app_l by (rewrite length_replicate; lia).
    apply lookup_replicate_2. lia. }
  assert (ro_at (replicate k 0 ++ [v]) (Z.of_nat k) = v) as Hlast.
  { apply at_lookup; [lia|]. rewrite Nat2Z.id.
    rewrite lookup_app_r by (rewrite length_replicate; lia).
    rewrite length_replicate. by rewrite Nat.sub_diag. }
  split; [lia | lia | | | |].
  - rewrite length_app, length_replicate. simpl. lia.
  - apply Hzero. lia.
  - exact Hlast.
  - intros i Hi. rewrite (Hzero i) by lia.
    destruct (decide (i + 1 = Z.of_nat k)) as [->|Hne]; [lia|].
    rewrite Hzero by lia. lia.
Qed.

(** The bound on the rows alone: [2 ^ 31 - 1000] rows, two nonzeros in
    the last one, four threads.  [m + nnz + P] is an [int], and thread 3
    starts on a diagonal beyond [2 ^ 30], where the sum for the first pivot
    is not an [int]: in whatever state the thread starts, it does not
    end normally, and neither does the partitioner.  The machine that
    wraps gets a negative pivot and reads [row_offsets] before its first
    cell. *)
Lemma partition_pivot_overflow :
  wf_row_offsets ex_huge_rows 2 ex_huge_row_offsets /\
  ex_huge_rows + 2 + 4 <= max_int /\
  (forall st, partition_thread 4 ex_huge_rows 2 ex_huge_row_offsets 3 st
              = IntOverflow 3221223976) /\
  (forall r, OmpMergePartitionMatrix 4 ex_huge_rows 2 ex_huge_row_offsets
               (ex_fresh 4) (ex_fresh 4) <> Ok r) /\
  (forall st, partition_thread32 1 4 ex_huge_rows 2 ex_huge_row_offsets 3 st
              = Some (OutOfBounds A_row_offsets (-536871659))).
Proof.
  assert (forall l st, partition_thread32 1 4 ex_huge_rows 2 l 3 st
                       = Some (OutOfBounds A_row_offsets (-536871659))) as Hwrap.
  { intros l [tc tce]. reflexivity. }
  assert (forall st, partition_thread 4 ex_huge_rows 2 ex_huge_row_offsets 3 st
                     = IntOverflow 3221223976) as Hthread.
  { intros [tc tce]. unfold partition_thread.
    replace (start_diagonal 4 ex_huge_rows 2 3) with (Ok (A := Z) 1610611989)
      by (vm_compute; reflexivity).
    replace (end_diagonal 4 ex_huge_rows 2 3) with (Ok (A := Z) 2147482650)
      by (vm_compute; reflexivity).
    cbn [bind].
    rewrite MergePathSearch_pivot_sum;
      [reflexivity | vm_compute; split; discriminate | vm_compute; reflexivity
      | vm_compute; reflexivity]. }
  split.
  { pose proof (wf_row_offsets_last_row (Z.to_nat ex_huge_rows) 2) as H.
    rewrite Z2Nat.id in H by (vm_compute; discriminate).
    apply H; [vm_compute; discriminate | lia]. }
  split; [vm_compute; discriminate|]. split; [exact Hthread|].
  split; [|intros st; apply Hwrap].
  unfold OmpMergePartitionMatrix. apply (for_loop_fails 0 4 3); [lia|].
  intros s r. by rewrite Hthread.
Qed.





